(** * Verification of the Markdown chunking pipeline

    Shallow embedding of
    - [exam_tutor_worker/pipelines/chunker.py] ([TokenCounter], [TokenAwareChunker]),
    - [exam_tutor_worker/pipelines/chunk_filter.py] ([filter_chunks]),
    - [exam_tutor_worker/pipelines/normalize.py] and [cleanup.py],
    - [exam_tutor_rag/embed_client.py] ([embed_many]) and the loop of
      [exam_tutor_worker/jobs/ingest_job.py] that builds the rows,
    and the properties of the chunking specification stated over it.

    Conventions of the embedding:
    - a Python [str] is a Rocq [string]; the text is taken to be ASCII, so
      that [str.strip], [str.lower], [str.splitlines] and the classes [\s],
      [\d], [\w] of [re] are the ASCII restrictions of Python's Unicode
      ones (characters above 127 are ordinary non-space, non-word symbols);
    - a Python [int] is a [Z]; [len] is [Z.of_nat] of the length;
    - [Optional[str]] is [option string];
    - a [dict] read in insertion order is an association list, a [dict] or
      [set] only looked up is a [gmap] or [gset];
    - [hashlib.sha256] is computed; the order in which a [set] of strings
      is iterated follows the string hash of the running process, which
      the filter takes as a parameter. *)

From Stdlib Require Import ZArith Ascii String List Lia Bool.
From stdpp Require Import base option list gmap strings sorting.

Local Open Scope string_scope.
Local Open Scope list_scope.
Local Open Scope Z_scope.

(** ** Python string primitives *)

Module PyStr.

(** [len(s)] *)
Definition len (s : string) : Z := Z.of_nat (String.length s).

(** [c.isspace()] on ASCII: tab, LF, VT, FF, CR, FS, GS, RS, US and space. *)
Definition is_space (c : ascii) : bool :=
  let n := nat_of_ascii c in
  ((9 <=? n)%nat && (n <=? 13)%nat) || ((28 <=? n)%nat && (n <=? 32)%nat).

Fixpoint all_space (s : string) : bool :=
  match s with
  | EmptyString => true
  | String c r => is_space c && all_space r
  end.

(** [s.lstrip()] *)
Fixpoint lstrip (s : string) : string :=
  match s with
  | EmptyString => EmptyString
  | String c r => if is_space c then lstrip r else s
  end.

(** [s.rstrip()] *)
Fixpoint rstrip (s : string) : string :=
  match s with
  | EmptyString => EmptyString
  | String c r => if all_space s then EmptyString else String c (rstrip r)
  end.

(** [s.strip()] *)
Definition strip (s : string) : string := rstrip (lstrip s).

(** [bool(s)]: a string is truthy when it is not empty. *)
Definition truthy (s : string) : bool :=
  match s with EmptyString => false | _ => true end.

Fixpoint drop (n : nat) (s : string) : string :=
  match n, s with
  | O, _ => s
  | S n', EmptyString => EmptyString
  | S n', String _ r => drop n' r
  end.

Fixpoint take (n : nat) (s : string) : string :=
  match n, s with
  | O, _ => EmptyString
  | S n', EmptyString => EmptyString
  | S n', String c r => String c (take n' r)
  end.

(** Normalisation of a slice bound [a] against a length, as Python does:
    a negative bound counts from the end, and the result is clamped. *)
Definition slice_bound (a : Z) (n : Z) : nat :=
  Z.to_nat (if a <? 0 then Z.max 0 (n + a) else Z.min a n).

(** [s[a:]] *)
Definition slice_from (a : Z) (s : string) : string :=
  drop (slice_bound a (len s)) s.

(** [s[a:b]] for [0 <= a] *)
Definition slice (a b : Z) (s : string) : string :=
  let i := slice_bound a (len s) in
  let j := slice_bound b (len s) in
  take (j - i) (drop i s).

(** [sep.join(parts)] *)
Fixpoint join (sep : string) (parts : list string) : string :=
  match parts with
  | [] => EmptyString
  | [p] => p
  | p :: ps => p +:+ sep +:+ join sep ps
  end.

(** [s.startswith(p)] *)
Definition startswith (p s : string) : bool := String.prefix p s.

(** [p in s] *)
Fixpoint contains (p s : string) : bool :=
  String.prefix p s ||
  match s with
  | EmptyString => false
  | String _ r => contains p r
  end.

Definition lower_char (c : ascii) : ascii :=
  let n := nat_of_ascii c in
  if (65 <=? n)%nat && (n <=? 90)%nat then ascii_of_nat (n + 32) else c.

(** [s.lower()] *)
Fixpoint lower (s : string) : string :=
  match s with
  | EmptyString => EmptyString
  | String c r => String (lower_char c) (lower r)
  end.

Definition LF : ascii := ascii_of_nat 10.
Definition CR : ascii := ascii_of_nat 13.
Definition TAB : ascii := ascii_of_nat 9.
Definition nl : string := String LF EmptyString.
Definition nlnl : string := String LF (String LF EmptyString).

End PyStr.

(** ** [TokenCounter] *)

(** The Hugging Face tokenizer, when one is loaded: the two calls the
    counter makes on it. *)
Record Tokenizer := {
  encode : string -> list Z;
  decode : list Z -> string
}.

(** [l[a:]] on a list *)
Definition list_slice_from {A} (a : Z) (l : list A) : list A :=
  List.skipn (PyStr.slice_bound a (Z.of_nat (List.length l))) l.

Module TokenCounter.

(** The counter holds [_tok], which is [None] in the fallback. *)
Definition t := option Tokenizer.

(** [__init__]: [loader] is [AutoTokenizer] ([None] when the import failed);
    a load that raises is a loader returning [None]. *)
Definition init (loader : option (string -> option Tokenizer))
    (tokenizer_name : string) : t :=
  match loader with
  | Some from_pretrained => from_pretrained tokenizer_name
  | None => None
  end.

(** [count]. In the fallback Python computes [int(len(text) / 4)] through a
    float; below 2^53 characters this is the integer quotient. *)
Definition count (tc : t) (text : string) : Z :=
  match tc with
  | Some tok => Z.of_nat (List.length (encode tok text))
  | None =>
      let text := PyStr.strip text in
      if negb (PyStr.truthy text) then 0
      else Z.max 1 (PyStr.len text / 4)
  end.

(** [tail_text] *)
Definition tail_text (tc : t) (text : string) (tail_tokens : Z) : string :=
  match tc with
  | None =>
      let n := Z.max 0 (tail_tokens * 4) in
      PyStr.slice_from (- n) text
  | Some tok =>
      let ids := encode tok text in
      let tail_ids := list_slice_from (- tail_tokens) ids in
      decode tok tail_ids
  end.

(** The character heuristic. *)
Definition heuristic : t := None.

End TokenCounter.

(** ** Matching of the regular expressions of the pipeline

    Each function decides one pattern of the source on one string, with the
    leftmost, greedy, backtracking reading of Python's [re]. *)

Module Re.
Import PyStr.

Definition is_digit (c : ascii) : bool :=
  let n := nat_of_ascii c in (48 <=? n)%nat && (n <=? 57)%nat.

(** [\w] on ASCII: letters, digits and the underscore. *)
Definition is_word (c : ascii) : bool :=
  let n := nat_of_ascii c in
  is_digit c || ((65 <=? n)%nat && (n <=? 90)%nat)
  || ((97 <=? n)%nat && (n <=? 122)%nat) || (n =? 95)%nat.

Definition is_hash (c : ascii) : bool := (nat_of_ascii c =? 35)%nat.

(** [- * +], the bullet markers. *)
Definition is_bullet (c : ascii) : bool :=
  let n := nat_of_ascii c in (n =? 45)%nat || (n =? 42)%nat || (n =? 43)%nat.

(** [. ! ?], the sentence ends. *)
Definition is_sentence_end (c : ascii) : bool :=
  let n := nat_of_ascii c in (n =? 46)%nat || (n =? 33)%nat || (n =? 63)%nat.

Fixpoint count_hashes (s : string) : nat :=
  match s with
  | String c r => if is_hash c then S (count_hashes r) else O
  | EmptyString => O
  end.

(** [re.match(r"^(#{1,6})\s+(.+?)\s*$", line)] on a line without a line
    break: the result is [(len(group 1), group(2).strip())]. The line must
    open with one to six [#], then a space character, then at least one
    further character; group 2 is what follows the spaces, up to the
    trailing spaces (one space character when nothing else follows), so
    its [strip] is the [strip] of all that follows the [#]s. *)
Definition match_heading (line : string) : option (Z * string) :=
  let k := count_hashes line in
  if (1 <=? k)%nat && (k <=? 6)%nat then
    match drop k line with
    | String c (String c' r) =>
        if is_space c then Some (Z.of_nat k, strip (String c (String c' r)))
        else None
    | _ => None
    end
  else None.

Fixpoint drop_digits (s : string) : string :=
  match s with
  | String c r => if is_digit c then drop_digits r else s
  | EmptyString => EmptyString
  end.

(** A list marker at the start of [s]: [[-*+]\s+] or [\d+\.\s+]. *)
Definition marker_here (s : string) : bool :=
  match s with
  | String c r =>
      if is_bullet c then
        match r with String c' _ => is_space c' | EmptyString => false end
      else if is_digit c then
        match drop_digits r with
        | String d (String c' _) => (nat_of_ascii d =? 46)%nat && is_space c'
        | _ => false
        end
      else false
  | EmptyString => false
  end.

(** [re.match(r"^(\s*[-*+]\s+|\s*\d+\.\s+)", line)] *)
Definition match_list_marker (line : string) : bool :=
  marker_here (lstrip line).

(** [re.match(r"^(\s+|\s*[-*+]\s+|\s*\d+\.\s+)", line)] *)
Definition match_list_continuation (line : string) : bool :=
  match line with
  | String c _ => is_space c || match_list_marker line
  | EmptyString => false
  end.

(** [re.search(r"-{3,}", s)] *)
Definition search_dashes (s : string) : bool := contains "---" s.

(** [re.split(r"\n{2,}", s)]: [cur] is the piece being read, [skipping]
    holds inside a separator. *)
Fixpoint split_blank_aux (s : string) (cur : string) (skipping : bool)
  : list string :=
  match s with
  | EmptyString => [cur]
  | String c r =>
      if Ascii.eqb c LF then
        if skipping then split_blank_aux r cur true
        else
          match r with
          | String c' r' =>
              if Ascii.eqb c' LF then cur :: split_blank_aux r' EmptyString true
              else split_blank_aux r (cur +:+ String c EmptyString) false
          | EmptyString => split_blank_aux r (cur +:+ String c EmptyString) false
          end
      else split_blank_aux r (cur +:+ String c EmptyString) false
  end.

Definition split_blank (s : string) : list string :=
  split_blank_aux s EmptyString false.

(** [re.split(r"(?<=[.!?])\s+", s)] *)
Fixpoint split_sentences_aux (s : string) (cur : string)
    (after_end skipping : bool) : list string :=
  match s with
  | EmptyString => [cur]
  | String c r =>
      if is_space c then
        if skipping then split_sentences_aux r cur false true
        else if after_end then cur :: split_sentences_aux r EmptyString false true
        else split_sentences_aux r (cur +:+ String c EmptyString) false false
      else
        split_sentences_aux r (cur +:+ String c EmptyString)
          (is_sentence_end c) false
  end.

Definition split_sentences (s : string) : list string :=
  split_sentences_aux s EmptyString false false.

(** [re.sub(r"[ \t]+\n", "\n", s)]: [pending] is the run of blanks and tabs
    read since the last other character. *)
Fixpoint sub_trailing_blanks_aux (s : string) (pending : string) : string :=
  match s with
  | EmptyString => pending
  | String c r =>
      if Ascii.eqb c " "%char || Ascii.eqb c TAB then
        sub_trailing_blanks_aux r (pending +:+ String c EmptyString)
      else if Ascii.eqb c LF then String c (sub_trailing_blanks_aux r EmptyString)
      else pending +:+ String c (sub_trailing_blanks_aux r EmptyString)
  end.

Definition sub_trailing_blanks (s : string) : string :=
  sub_trailing_blanks_aux s EmptyString.

(** [re.sub(r"\n{3,}", "\n\n", s)]: [run] counts the line feeds just read,
    up to two. *)
Fixpoint sub_blank_runs_aux (s : string) (run : nat) : string :=
  match s with
  | EmptyString => EmptyString
  | String c r =>
      if Ascii.eqb c LF then
        if (run <? 2)%nat then String c (sub_blank_runs_aux r (S run))
        else sub_blank_runs_aux r run
      else String c (sub_blank_runs_aux r O)
  end.

Definition sub_blank_runs (s : string) : string := sub_blank_runs_aux s O.

(** The character after a prefix of length [n], if it is a word character. *)
Definition word_at (n : nat) (s : string) : bool :=
  match drop n s with
  | String c _ => is_word c
  | EmptyString => false
  end.

(** [re.search(r"\b" + lit + r"\b", s)] for a literal that starts and ends
    with a word character: [prev_word] tells whether the character before
    [s] is a word character. *)
Fixpoint search_bounded_aux (lit : string) (s : string) (prev_word : bool)
  : bool :=
  (negb prev_word && String.prefix lit s
   && negb (word_at (String.length lit) s))
  || match s with
     | String c r => search_bounded_aux lit r (is_word c)
     | EmptyString => false
     end.

Definition search_bounded (lit s : string) : bool :=
  search_bounded_aux lit s false.

(** [re.search(r"\bphone\s*:\b", s)]: after the colon, which is not a word
    character, the boundary asks for a word character. *)
Fixpoint search_phone_aux (s : string) (prev_word : bool) : bool :=
  (negb prev_word && String.prefix "phone" s
   && match lstrip (drop 5 s) with
      | String c (String c' _) => (nat_of_ascii c =? 58)%nat && is_word c'
      | _ => false
      end)
  || match s with
     | String c r => search_phone_aux r (is_word c)
     | EmptyString => false
     end.

Definition search_phone (s : string) : bool := search_phone_aux s false.

End Re.

Module PyLines.
Import PyStr.

(** The ASCII line boundaries of [str.splitlines]: LF, VT, FF, CR, FS, GS
    and RS (CR LF counts once). *)
Definition is_line_break (c : ascii) : bool :=
  let n := nat_of_ascii c in
  ((10 <=? n)%nat && (n <=? 13)%nat) || ((28 <=? n)%nat && (n <=? 30)%nat).

(** [s.splitlines()]: a final line break opens no further line. *)
Fixpoint splitlines_aux (s : string) (cur : string) : list string :=
  match s with
  | EmptyString => if truthy cur then [cur] else []
  | String c r =>
      if is_line_break c then
        if Ascii.eqb c CR then
          match r with
          | String c' r' =>
              if Ascii.eqb c' LF then cur :: splitlines_aux r' EmptyString
              else cur :: splitlines_aux r EmptyString
          | EmptyString => cur :: splitlines_aux r EmptyString
          end
        else cur :: splitlines_aux r EmptyString
      else splitlines_aux r (cur +:+ String c EmptyString)
  end.

Definition splitlines (s : string) : list string :=
  splitlines_aux s EmptyString.

(** [s.replace(old, new)] for a non-empty [old]: [skip] counts the
    characters of a replaced occurrence still to pass over. *)
Fixpoint replace_aux (old new : string) (s : string) (skip : nat) : string :=
  match s with
  | EmptyString => EmptyString
  | String c r =>
      match skip with
      | S k => replace_aux old new r k
      | O =>
          if String.prefix old s
          then new +:+ replace_aux old new r (String.length old - 1)
          else String c (replace_aux old new r O)
      end
  end.

Definition replace (old new s : string) : string := replace_aux old new s O.

End PyLines.

(** ** Data model of [chunker.py] *)

Inductive BlockType := heading | text | list_ | table | code | image.

Global Instance BlockType_eq_dec : EqDecision BlockType.
Proof. solve_decision. Defined.

(** [_Block] *)
Module Block.
Record t := mk {
  text : string;
  token_count : Z;
  section_path : option string;
  parent_section_path : option string;
  block_type : BlockType;
  heading_level : option Z
}.
End Block.

(** The metadata dictionary of a chunk. The keys are the ones the
    pipeline writes; an absent key reads as [None] (or as the empty list),
    which is how every access of the source, [.get(k)] and
    [.get(k) or []], reads it. [quality_score] is held in hundredths: the
    scores of the source are 1.0 less penalties of 0.7, 0.6, 0.7, 1.0 and
    0.3, plus 0.05, and the chunks whose scores are ever compared carry no
    penalty but 0.3, where the floats 0.7, 0.75 and 1.0 order as their
    exact values. *)
Module Meta.
Record t := mk {
  section_paths : list string;
  primary_section_path : option string;
  parent_section_path : option string;
  block_types : list BlockType;
  merged_heading : option bool;
  tags : list string;
  quality_score : option Z
}.

(** [{}] *)
Definition empty : t := mk [] None None [] None [] None.
End Meta.

(** [Chunk] *)
Module Chunk.
Record t := mk {
  index : Z;
  text : string;
  token_count : Z;
  metadata : Meta.t
}.
End Chunk.

Global Instance Meta_eq_dec : EqDecision Meta.t.
Proof. solve_decision. Defined.

Global Instance Chunk_eq_dec : EqDecision Chunk.t.
Proof. solve_decision. Defined.

(** [x or y] on optional strings: [None] and the empty string are falsy. *)
Definition str_or (x y : option string) : option string :=
  match x with
  | Some s => if PyStr.truthy s then x else y
  | None => y
  end.

(** [list(dict.fromkeys(l))]: the first occurrence of each element, in
    order. *)
Fixpoint fromkeys {A} `{EqDecision A} (l : list A) (seen : list A) : list A :=
  match l with
  | [] => []
  | x :: r =>
      if bool_decide (x ∈ seen) then fromkeys r seen
      else x :: fromkeys r (x :: seen)
  end.

(** A loop that appends [x] unless the list built so far ends with [x]:
    consecutive repeats are dropped. *)
Fixpoint squeeze {A} `{EqDecision A} (l : list A) (acc : list A) : list A :=
  match l with
  | [] => acc
  | x :: r =>
      match last acc with
      | Some y => if bool_decide (y = x) then squeeze r acc
                  else squeeze r (acc ++ [x])
      | None => squeeze r (acc ++ [x])
      end
  end.

(** [[Chunk(index=i, ...) for i, c in enumerate(l)]], counting from [i]. *)
Fixpoint reindex_from (i : Z) (l : list Chunk.t) : list Chunk.t :=
  match l with
  | [] => []
  | c :: r =>
      Chunk.mk i (Chunk.text c) (Chunk.token_count c) (Chunk.metadata c)
      :: reindex_from (i + 1) r
  end.

Definition reindex (l : list Chunk.t) : list Chunk.t := reindex_from 0 l.

(** ** [TokenAwareChunker] *)

(** What a call hands back: the value, or the exception raised. *)
Inductive outcome (A : Type) :=
  | Returned (a : A)
  | Raised (exn : string).
Arguments Returned {A} a.
Arguments Raised {A} exn.

Module TokenAwareChunker.
Import PyStr.

Record t := mk {
  tc : TokenCounter.t;
  min_tokens : Z;
  max_tokens : Z;
  overlap_tokens : Z;
  parent_section_level : Z
}.

(** [__init__]: the body is five assignments; none of them raises. *)
Definition init (loader : option (string -> option Tokenizer))
    (tokenizer_name : string) (min_tokens max_tokens overlap_tokens : Z)
    (parent_section_level : Z) : outcome t :=
  Returned
    (mk (TokenCounter.init loader tokenizer_name)
        min_tokens max_tokens overlap_tokens
        (Z.max 1 (Z.min 6 parent_section_level))).

Definition _tok_count (self : t) (s : string) : Z :=
  TokenCounter.count (tc self) s.

(** The heading stack: [(level, title)], outermost first. *)
Definition stack := list (Z * string).

Definition _section_path (st : stack) : option string :=
  match st with
  | [] => None
  | _ => Some (join " > " (map snd st))
  end.

Definition _parent_section_path (self : t) (st : stack) : option string :=
  match st with
  | [] => None
  | top :: _ =>
      let kept := List.filter (fun e => fst e <=? parent_section_level self) st in
      let kept := match kept with [] => [top] | _ => kept end in
      Some (join " > " (map snd kept))
  end.

(** [while section_stack and section_stack[-1][0] >= level: pop()], on the
    stack read from its end. *)
Fixpoint pop_while_rev (level : Z) (rev_st : stack) : stack :=
  match rev_st with
  | e :: r => if level <=? fst e then pop_while_rev level r else rev_st
  | [] => []
  end.

Definition push_heading (st : stack) (level : Z) (title : string) : stack :=
  rev (pop_while_rev level (rev st)) ++ [(level, title)].

Definition block_at (self : t) (st : stack) (s : string) (n : Z)
    (ty : BlockType) (lvl : option Z) : Block.t :=
  Block.mk s n (_section_path st) (_parent_section_path self st) ty lvl.

(** [flush_para]: the blocks it appends (none or one); the paragraph is
    empty afterwards. *)
Definition flush_para (self : t) (st : stack) (para : list string)
  : list Block.t :=
  match para with
  | [] => []
  | _ =>
      let s := strip (join nl para) in
      if truthy s then [block_at self st s (_tok_count self s) text None]
      else []
  end.

(** The scan of [_iter_blocks] from line [i] on: [lines] are the lines from
    [i], [para] and [st] the paragraph and heading stack so far; the result
    is the blocks appended from here to the end. *)
Fixpoint iter_lines (self : t) (lines : list string) (para : list string)
    (st : stack) : list Block.t :=
  match lines with
  | [] => flush_para self st para
  | line :: rest =>
    let stripped := strip line in
    if negb (truthy stripped) then
      flush_para self st para ++ iter_lines self rest [] st
    else
    match Re.match_heading line with
    | Some (level, title) =>
        let st' := push_heading st level title in
        let heading_text := strip line in
        flush_para self st para ++
        block_at self st' heading_text (_tok_count self heading_text)
                 heading (Some level)
        :: iter_lines self rest [] st'
    | None =>
    if String.eqb stripped "[IMAGE]" then
      flush_para self st para ++
      block_at self st "[IMAGE]" 1 image None :: iter_lines self rest [] st
    else if startswith "```" stripped || startswith "~~~" stripped then
      let fence := slice 0 3 stripped in
      flush_para self st para ++
      (fix code_loop (ls : list string) (code_lines : list string)
         : list Block.t :=
         let emit (ls' : list Block.t) :=
           let s := strip (join nl code_lines) in
           block_at self st s (_tok_count self s) code None :: ls' in
         match ls with
         | [] => emit []
         | l :: ls' =>
             if startswith fence (strip l) then
               let s := strip (join nl (code_lines ++ [l])) in
               block_at self st s (_tok_count self s) code None
               :: iter_lines self ls' [] st
             else code_loop ls' (code_lines ++ [l])
         end) rest [line]
    else
    let table_start :=
      match rest with
      | next :: _ =>
          startswith "|" stripped && startswith "|" (strip next)
          && Re.search_dashes (strip next)
      | [] => false
      end in
    match table_start, rest with
    | true, next :: rest2 =>
      flush_para self st para ++
      (fix table_loop (ls : list string) (table_lines : list string)
         : list Block.t :=
         let s := strip (join nl table_lines) in
         match ls with
         | [] => [block_at self st s (_tok_count self s) table None]
         | l :: ls' =>
             if startswith "|" (strip l)
             then table_loop ls' (table_lines ++ [l])
             else block_at self st s (_tok_count self s) table None
                  :: iter_lines self ls [] st
         end) rest2 [line; next]
    | _, _ =>
    if Re.match_list_marker line then
      flush_para self st para ++
      (fix list_loop (ls : list string) (list_lines : list string)
         : list Block.t :=
         let s := strip (join nl list_lines) in
         match ls with
         | [] => [block_at self st s (_tok_count self s) list_ None]
         | nxt :: ls' =>
             if negb (truthy (strip nxt)) then
               block_at self st s (_tok_count self s) list_ None
               :: iter_lines self ls [] st
             else if Re.match_list_continuation nxt
             then list_loop ls' (list_lines ++ [nxt])
             else block_at self st s (_tok_count self s) list_ None
                  :: iter_lines self ls [] st
         end) rest [line]
    else iter_lines self rest (para ++ [line]) st
    end
    end
  end.

Definition _iter_blocks (self : t) (md : string) : list Block.t :=
  iter_lines self (PyLines.splitlines md) [] [].

(** The hard split of [_split_big_text]:
    [for j in range(0, len(s), step): piece = s[j : j + step].strip()]. *)
Definition hard_split (step : Z) (s : string) : list string :=
  let n := Z.to_nat ((len s + step - 1) / step) in
  List.filter truthy
    (map (fun k => strip (slice (Z.of_nat k * step) (Z.of_nat k * step + step) s))
         (seq 0 n)).

(** One turn of the loop over the sentences: the state is [(out, cur)]. *)
Definition split_sentence_step (self : t) (acc : list string * string)
    (s : string) : list string * string :=
  let '(out, cur) := acc in
  if negb (truthy s) then (out, cur)
  else
    let cand := if truthy cur then strip (cur +:+ " " +:+ s) else s in
    if _tok_count self cand <=? max_tokens self then (out, cand)
    else
      let out := if truthy cur then out ++ [cur] else out in
      if _tok_count self s <=? max_tokens self then (out, s)
      else (out ++ hard_split (Z.max 1 (max_tokens self * 4)) s, EmptyString).

(** One turn of the loop over the paragraphs. *)
Definition split_part_step (self : t) (out : list string) (p : string)
  : list string :=
  if _tok_count self p <=? max_tokens self then out ++ [p]
  else
    let '(out, cur) :=
      fold_left (split_sentence_step self) (Re.split_sentences p) (out, EmptyString) in
    if truthy cur then out ++ [cur] else out.

Definition _split_big_text (self : t) (block : string) : list string :=
  let parts :=
    map strip (List.filter (fun p => truthy (strip p))
                           (Re.split_blank (strip block))) in
  fold_left (split_part_step self) parts [].

(** The expansion of the oversized blocks at the head of [chunk]; both
    branches of the source build the same blocks. *)
Definition expand_block (self : t) (b : Block.t) : list Block.t :=
  if Block.token_count b <=? max_tokens self then [b]
  else
    map (fun p =>
           Block.mk p (_tok_count self p) (Block.section_path b)
                    (Block.parent_section_path b) (Block.block_type b) None)
        (_split_big_text self (Block.text b)).

Definition expand (self : t) (blocks : list Block.t) : list Block.t :=
  concat (map (expand_block self) blocks).

(** The state of the assembly loop of [chunk]. *)
Record asm := mk_asm {
  chunks : list Chunk.t;
  cur : list Block.t;
  cur_tokens : Z;
  idx : Z;
  active_parent : option string
}.

(** The truthy [section_path]s of the blocks, in order. *)
Definition block_section_paths (bs : list Block.t) : list string :=
  omap (fun b => match Block.section_path b with
                 | Some s => if truthy s then Some s else None
                 | None => None
                 end) bs.

Definition joined_text (bs : list Block.t) : string :=
  join nlnl (map Block.text bs).

(** [flush] *)
Definition flush (self : t) (s : asm) : asm :=
  match cur s with
  | [] => s
  | _ =>
      let joined := strip (joined_text (cur s)) in
      let n := _tok_count self joined in
      if 1 <=? n then
        let section_paths := squeeze (block_section_paths (cur s)) [] in
        let block_types := squeeze (map Block.block_type (cur s)) [] in
        let c :=
          Chunk.mk (idx s) joined n
            (Meta.mk section_paths (head section_paths) (active_parent s)
                     block_types None [] None) in
        mk_asm (chunks s ++ [c]) [] 0 (idx s + 1) (active_parent s)
      else mk_asm (chunks s) [] 0 (idx s) (active_parent s)
  end.

Definition is_parent_heading (self : t) (b : Block.t) : bool :=
  match Block.block_type b, Block.heading_level b with
  | heading, Some lvl => lvl <=? parent_section_level self
  | _, _ => false
  end.

(** The head of the body of [for b in blocks] in [chunk]: a heading of a
    parent section closes the chunk in progress and opens its section; a
    section is also opened when none is. *)
Definition enter (self : t) (s : asm) (b : Block.t) : asm :=
  let s :=
    if is_parent_heading self b then
      let s := flush self s in
      mk_asm (chunks s) (cur s) (cur_tokens s) (idx s)
             (Block.parent_section_path b)
    else s in
  match active_parent s with
  | None => mk_asm (chunks s) (cur s) (cur_tokens s) (idx s)
                   (Block.parent_section_path b)
  | Some _ => s
  end.

(** The rest of the body: the block joins the chunk in progress when it
    fits; otherwise the chunk is closed and the block opens the next one,
    behind the tail of the closed chunk when that chunk is of the same
    parent section. *)
Definition place (self : t) (s : asm) (b : Block.t) : asm :=
  let bt := Block.token_count b in
  if cur_tokens s + bt <=? max_tokens self then
    mk_asm (chunks s) (cur s ++ [b]) (cur_tokens s + bt) (idx s)
           (active_parent s)
  else
    let s := flush self s in
    match last (chunks s) with
    | Some prev =>
        if (0 <? overlap_tokens self)
           && bool_decide (Meta.parent_section_path (Chunk.metadata prev)
                           = active_parent s)
        then
          let tail :=
            strip (TokenCounter.tail_text (tc self) (Chunk.text prev)
                                          (overlap_tokens self)) in
          let cur' :=
            if truthy tail then
              [Block.mk tail (_tok_count self tail) None (active_parent s)
                        text None; b]
            else [b] in
          mk_asm (chunks s) cur' (_tok_count self (joined_text cur'))
                 (idx s) (active_parent s)
        else mk_asm (chunks s) [b] bt (idx s) (active_parent s)
    | None => mk_asm (chunks s) [b] bt (idx s) (active_parent s)
    end.

(** The body of [for b in blocks] in [chunk]. *)
Definition step (self : t) (s : asm) (b : Block.t) : asm :=
  place self (enter self s b) b.

(** The chunks of the assembly loop, after the last [flush]. *)
Definition assemble (self : t) (blocks : list Block.t) : list Chunk.t :=
  chunks (flush self (fold_left (step self) blocks (mk_asm [] [] 0 0 None))).

(** The chunk that replaces [prev] when [c] is merged into it. *)
Definition merge_pair (self : t) (prev c : Chunk.t) : Chunk.t :=
  let new_text := Chunk.text prev +:+ nlnl +:+ Chunk.text c in
  let pm := Chunk.metadata prev in
  let cm := Chunk.metadata c in
  Chunk.mk (Chunk.index prev) new_text (_tok_count self new_text)
    (Meta.mk
       (fromkeys (Meta.section_paths pm ++ Meta.section_paths cm) [])
       (str_or (Meta.primary_section_path pm) (Meta.primary_section_path cm))
       (str_or (Meta.parent_section_path pm) (Meta.parent_section_path cm))
       (fromkeys (Meta.block_types pm ++ Meta.block_types cm) [])
       None [] None).

(** The body of the loop that merges the small chunks; [merged] is held
    with its last element first. *)
Definition merge_step (self : t) (rev_merged : list Chunk.t) (c : Chunk.t)
  : list Chunk.t :=
  match rev_merged with
  | prev :: before =>
      if (Chunk.token_count c <? min_tokens self)
         && bool_decide (Meta.parent_section_path (Chunk.metadata prev)
                         = Meta.parent_section_path (Chunk.metadata c))
      then merge_pair self prev c :: before
      else c :: rev_merged
  | [] => [c]
  end.

Definition merge_small (self : t) (cs : list Chunk.t) : list Chunk.t :=
  rev (fold_left (merge_step self) cs []).

(** [chunk], from the parsed blocks on. *)
Definition chunk_blocks (self : t) (blocks : list Block.t) : list Chunk.t :=
  reindex (merge_small self (assemble self (expand self blocks))).

(** [chunk] *)
Definition chunk (self : t) (md : string) : list Chunk.t :=
  chunk_blocks self (_iter_blocks self md).

End TokenAwareChunker.

(** ** SHA-256, as [hashlib.sha256(...).hexdigest()] computes it *)

Module Sha256.

Local Open Scope N_scope.

Definition w32 (x : N) : N := N.land x 4294967295.

Definition rotr (n x : N) : N :=
  N.lor (N.shiftr x n) (w32 (N.shiftl x (32 - n))).

Definition add32 (x y : N) : N := w32 (x + y).

Definition Ch (x y z : N) : N :=
  N.lxor (N.land x y) (N.land (N.lxor x 4294967295) z).

Definition Maj (x y z : N) : N :=
  N.lxor (N.lxor (N.land x y) (N.land x z)) (N.land y z).

Definition Sigma0 (x : N) : N :=
  N.lxor (N.lxor (rotr 2 x) (rotr 13 x)) (rotr 22 x).

Definition Sigma1 (x : N) : N :=
  N.lxor (N.lxor (rotr 6 x) (rotr 11 x)) (rotr 25 x).

Definition sigma0 (x : N) : N :=
  N.lxor (N.lxor (rotr 7 x) (rotr 18 x)) (N.shiftr x 3).

Definition sigma1 (x : N) : N :=
  N.lxor (N.lxor (rotr 17 x) (rotr 19 x)) (N.shiftr x 10).

Definition K : list N :=
  [1116352408; 1899447441; 3049323471; 3921009573; 961987163; 1508970993;
   2453635748; 2870763221; 3624381080; 310598401; 607225278; 1426881987;
   1925078388; 2162078206; 2614888103; 3248222580; 3835390401; 4022224774;
   264347078; 604807628; 770255983; 1249150122; 1555081692; 1996064986;
   2554220882; 2821834349; 2952996808; 3210313671; 3336571891; 3584528711;
   113926993; 338241895; 666307205; 773529912; 1294757372; 1396182291;
   1695183700; 1986661051; 2177026350; 2456956037; 2730485921; 2820302411;
   3259730800; 3345764771; 3516065817; 3600352804; 4094571909; 275423344;
   430227734; 506948616; 659060556; 883997877; 958139571; 1322822218;
   1537002063; 1747873779; 1955562222; 2024104815; 2227730452; 2361852424;
   2428436474; 2756734187; 3204031479; 3329325298].

Definition H0 : list N :=
  [1779033703; 3144134277; 1013904242; 2773480762; 1359893119; 2600822924;
   528734635; 1541459225].

(** The padded message: the bytes, [0x80], zeros up to 56 modulo 64, and
    the bit length on eight bytes, most significant first. *)
Definition pad (bytes : list N) : list N :=
  let n := N.of_nat (List.length bytes) in
  let zeros := N.to_nat ((119 - n mod 64) mod 64) in
  bytes ++ [128] ++ repeat 0 zeros
  ++ map (fun i => N.land (N.shiftr (8 * n) (8 * (7 - N.of_nat i))) 255)
         (seq 0 8).

Fixpoint be_words (bytes : list N) : list N :=
  match bytes with
  | a :: b :: c :: d :: r =>
      (N.shiftl a 24 + N.shiftl b 16 + N.shiftl c 8 + d) :: be_words r
  | _ => []
  end.

(** The message schedule, latest word first. *)
Fixpoint schedule (n : nat) (rev_w : list N) : list N :=
  match n with
  | O => rev_w
  | S n' =>
      let w :=
        add32 (add32 (sigma1 (nth 1 rev_w 0)) (nth 6 rev_w 0))
              (add32 (sigma0 (nth 14 rev_w 0)) (nth 15 rev_w 0)) in
      schedule n' (w :: rev_w)
  end.

Definition round (s : list N) (kw : N * N) : list N :=
  match s with
  | [a; b; c; d; e; f; g; h] =>
      let t1 :=
        add32 (add32 (add32 h (Sigma1 e)) (Ch e f g))
              (add32 (fst kw) (snd kw)) in
      let t2 := add32 (Sigma0 a) (Maj a b c) in
      [add32 t1 t2; a; b; c; add32 d t1; e; f; g]
  | _ => s
  end.

Definition compress (h : list N) (block : list N) : list N :=
  let w := rev (schedule 48 (rev (be_words block))) in
  let s := fold_left round (combine K w) h in
  map (fun p => add32 (fst p) (snd p)) (combine h s).

Definition digest_words (bytes : list N) : list N :=
  let padded := pad bytes in
  let nblocks := (List.length padded / 64)%nat in
  fold_left
    (fun h i => compress h (firstn 64 (skipn (64 * i) padded)))
    (seq 0 nblocks) H0.

Definition hex_digit (d : N) : ascii :=
  if d <? 10 then ascii_of_N (48 + d) else ascii_of_N (87 + d).

Definition hex_word (w : N) : string :=
  string_of_list_ascii
    (map (fun i => hex_digit (N.land (N.shiftr w (4 * (7 - N.of_nat i))) 15))
         (seq 0 8)).

(** [hashlib.sha256(text.encode("utf-8")).hexdigest()] on ASCII text. *)
Definition hexdigest (text : string) : string :=
  String.concat EmptyString
    (map hex_word (digest_words (map N_of_ascii (list_ascii_of_string text)))).

End Sha256.

(** ** [sorted] and set iteration *)

(** A stable insertion sort: [before y x] holds when [y] must precede [x];
    elements that neither precede the other keep their order. *)
Fixpoint insert_by {A} (before : A -> A -> bool) (x : A) (l : list A)
  : list A :=
  match l with
  | [] => [x]
  | y :: r => if before y x then y :: insert_by before x r else x :: y :: r
  end.

Definition sort_by {A} (before : A -> A -> bool) (l : list A) : list A :=
  foldr (insert_by before) [] l.

(** [l[:n]] on a list *)
Definition list_slice_to {A} (n : Z) (l : list A) : list A :=
  firstn (PyStr.slice_bound n (Z.of_nat (List.length l))) l.

(** [sorted(set(l))] on strings *)
Definition sorted_set (l : list string) : list string :=
  sort_by String.ltb (fromkeys l []).

(** The order in which [for t in set(l)] meets the elements. Python fixes
    no order: it follows the hashes of the strings, which change from one
    process to the next. [str_hash] is the hash function of the running
    process. *)
Definition set_iter (str_hash : string -> Z) (l : list string) : list string :=
  sort_by (fun y x => str_hash y <? str_hash x) (fromkeys l []).

(** ** [chunk_filter.py] *)

Module ChunkFilter.
Import PyStr.

Definition _FRONT_MATTER_KEYWORDS : list string :=
  [ "acknowledgements"; "foreword"; "publication"; "publication team";
    "offices of the publication division"; "all rights reserved"; "isbn";
    "pd "; "first edition"; "reprinted"; "revised edition"; "textbook in";
    "national council of educational research";
    "textbook development committee"; "chairperson"; "chief advisor";
    "advisors"; "team members"; "member-coordinators" ].

(** [re.search(p, t)] for the patterns of [_BOILERPLATE_PATTERNS], in
    order. *)
Definition _BOILERPLATE_PATTERNS : list (string -> bool) :=
  [ Re.search_bounded "all rights reserved";
    Re.search_bounded "no part of this publication may be reproduced";
    Re.search_bounded "printed on";
    Re.search_bounded "published at";
    Re.search_phone ].

Record FilterConfig := mkFilterConfig {
  enabled : bool;
  min_tokens : Z;
  max_chunks_per_doc : Z;
  max_chunks_per_parent : Z;
  drop_front_matter : bool;
  drop_image_only : bool;
  drop_boilerplate : bool
}.

(** The defaults of the dataclass. *)
Definition default_config : FilterConfig :=
  mkFilterConfig true 40 2000 400 true true true.

(** [dropped_by_tag] is a dictionary that is only looked up: two
    dictionaries with the same counts are equal, as in Python, in whatever
    order the keys were put in. *)
Record FilterStats := mkFilterStats {
  total_in : Z;
  total_out : Z;
  dropped : Z;
  dropped_by_tag : gmap string Z
}.

Definition _sha (s : string) : string := Sha256.hexdigest s.

Definition _looks_like_heading_only (s : string) : bool :=
  let t := strip s in
  if negb (startswith "#" t) then false
  else negb (contains nl (strip t)).

Definition _is_image_only (s : string) : bool :=
  String.eqb (strip s) "[IMAGE]".

Definition or_empty (x : option string) : string :=
  match x with Some s => s | None => EmptyString end.

Definition _section_tag (parent_section_path : option string) : string :=
  lower (strip (or_empty parent_section_path)).

Definition _match_any_keyword (hay : string) (keywords : list string) : bool :=
  let h := lower hay in
  existsb (fun k => contains k h) keywords.

Definition _has_boilerplate (s : string) : bool :=
  let t := lower s in
  existsb (fun p => p t) _BOILERPLATE_PATTERNS.

Definition has_tag (tag : string) (tags : list string) : bool :=
  bool_decide (tag ∈ tags).

(** [_compute_quality_score], in hundredths. *)
Definition _compute_quality_score (token_count : Z) (tags : list string) : Z :=
  let score := 100 in
  let score := if has_tag "front_matter" tags then score - 70 else score in
  let score := if has_tag "boilerplate" tags then score - 60 else score in
  let score := if has_tag "image_only" tags then score - 70 else score in
  let score := if has_tag "duplicate" tags then score - 100 else score in
  let score := if has_tag "low_signal" tags then score - 30 else score in
  let score := if 200 <=? token_count then score + 5 else score in
  Z.max 0 (Z.min 100 score).

Definition same_parent (c n : Chunk.t) : bool :=
  bool_decide (Meta.parent_section_path (Chunk.metadata c)
               = Meta.parent_section_path (Chunk.metadata n)).

(** The chunk that [_merge_heading_with_next] puts for [c] and [n]. *)
Definition merge_heading_pair (c n : Chunk.t) : Chunk.t :=
  let merged_text := strip (Chunk.text c) +:+ nlnl +:+ strip (Chunk.text n) in
  let merged_tokens :=
    Z.max (len merged_text / 4) (Chunk.token_count c + Chunk.token_count n) in
  let m := Chunk.metadata n in
  let merged_meta :=
    Meta.mk (Meta.section_paths m) (Meta.primary_section_path m)
      (Meta.parent_section_path m) (Meta.block_types m)
      (Some (default true (Meta.merged_heading m)))
      (Meta.tags m) (Meta.quality_score m) in
  Chunk.mk (Chunk.index c) merged_text merged_tokens merged_meta.

(** The [while] loop of [_merge_heading_with_next]. *)
Fixpoint merge_heading_scan (chunks : list Chunk.t) : list Chunk.t :=
  match chunks with
  | [] => []
  | c :: rest =>
      match rest with
      | n :: rest' =>
          if _looks_like_heading_only (Chunk.text c) && same_parent c n
          then merge_heading_pair c n :: merge_heading_scan rest'
          else c :: merge_heading_scan rest
      | [] => [c]
      end
  end.

Definition _merge_heading_with_next (chunks : list Chunk.t) : list Chunk.t :=
  reindex (merge_heading_scan chunks).

(** The state of the tagging loop of [filter_chunks]. *)
Record tagging := mkTagging {
  t_dropped_by_tag : gmap string Z;
  seen_hashes : gset string;
  kept : list Chunk.t
}.

(** [d[k] = d.get(k, 0) + n] *)
Definition bump (k : string) (n : Z) (d : gmap string Z) : gmap string Z :=
  <[k := default 0 (d !! k) + n]> d.

(** The tags the loop computes for [c], in the order it appends them. *)
Definition chunk_tags (cfg : FilterConfig) (seen : gset string) (c : Chunk.t)
  : list string :=
  let meta := Chunk.metadata c in
  let parent :=
    or_empty (str_or (str_or (Meta.parent_section_path meta)
                             (Meta.primary_section_path meta)) (Some EmptyString)) in
  let section := _section_tag (Some parent) in
  (if drop_front_matter cfg && _match_any_keyword section _FRONT_MATTER_KEYWORDS
   then ["front_matter"] else [])
  ++ (if drop_boilerplate cfg && _has_boilerplate (Chunk.text c)
      then ["boilerplate"] else [])
  ++ (if drop_image_only cfg && _is_image_only (Chunk.text c)
      then ["image_only"] else [])
  ++ (if Chunk.token_count c <? min_tokens cfg then ["low_signal"] else [])
  ++ (if bool_decide (_sha (strip (Chunk.text c)) ∈ seen)
      then ["duplicate"] else []).

(** The drop decision. *)
Definition drops (tags : list string) : bool :=
  has_tag "duplicate" tags || has_tag "front_matter" tags
  || has_tag "boilerplate" tags || has_tag "image_only" tags.

(** The metadata the loop builds for [c]. *)
Definition tagged_meta (c : Chunk.t) (tags : list string) : Meta.t :=
  let m := Chunk.metadata c in
  Meta.mk (Meta.section_paths m) (Meta.primary_section_path m)
    (Meta.parent_section_path m) (Meta.block_types m) (Meta.merged_heading m)
    (sorted_set (Meta.tags m ++ tags))
    (Some (_compute_quality_score (Chunk.token_count c) tags)).

(** The body of [for c in chunks]. *)
Definition tag_step (str_hash : string -> Z) (cfg : FilterConfig)
    (s : tagging) (c : Chunk.t) : tagging :=
  let tags := chunk_tags cfg (seen_hashes s) c in
  let h := _sha (strip (Chunk.text c)) in
  if drops tags then
    mkTagging
      (fold_left (fun d t => bump t 1 d) (set_iter str_hash tags)
                 (t_dropped_by_tag s))
      (seen_hashes s) (kept s)
  else
    mkTagging (t_dropped_by_tag s) ({[h]} ∪ seen_hashes s)
      (kept s ++ [Chunk.mk (Chunk.index c) (Chunk.text c)
                           (Chunk.token_count c) (tagged_meta c tags)]).

Definition tag_all (str_hash : string -> Z) (cfg : FilterConfig)
    (chunks : list Chunk.t) : tagging :=
  fold_left (tag_step str_hash cfg) chunks (mkTagging ∅ ∅ []).

(** The key of [by_parent]. *)
Definition parent_key (c : Chunk.t) : string :=
  or_empty (str_or (Meta.parent_section_path (Chunk.metadata c)) (Some EmptyString)).

(** [by_parent.setdefault(parent, []).append(c)] on the dictionary in
    insertion order. *)
Fixpoint group_add (parent : string) (c : Chunk.t)
    (by_parent : list (string * list Chunk.t)) : list (string * list Chunk.t) :=
  match by_parent with
  | [] => [(parent, [c])]
  | (k, g) :: r =>
      if String.eqb k parent then (k, g ++ [c]) :: r
      else (k, g) :: group_add parent c r
  end.

Definition group_by_parent (kept : list Chunk.t)
  : list (string * list Chunk.t) :=
  fold_left (fun bp c => group_add (parent_key c) c bp) kept [].

(** The sort key, [(quality_score, token_count)]. *)
Definition sort_key (c : Chunk.t) : Z * Z :=
  (default 0 (Meta.quality_score (Chunk.metadata c)), Chunk.token_count c).

(** [a > b] on the keys. *)
Definition key_gt (a b : Z * Z) : bool :=
  (fst b <? fst a) || ((fst a =? fst b) && (snd b <? snd a)).

(** [sorted(l, key=..., reverse=True)] *)
Definition sorted_desc (l : list Chunk.t) : list Chunk.t :=
  sort_by (fun y x => key_gt (sort_key y) (sort_key x)) l.

(** The body of [for parent, group in by_parent.items()]: the state is
    [(capped, dropped_by_tag)]. *)
Definition cap_group (cfg : FilterConfig)
    (acc : list Chunk.t * gmap string Z) (group : list Chunk.t)
  : list Chunk.t * gmap string Z :=
  let '(capped, d) := acc in
  if Z.of_nat (List.length group) <=? max_chunks_per_parent cfg
  then (capped ++ group, d)
  else
    let group_sorted := sorted_desc group in
    let keep_set : gset string :=
      list_to_set
        (map (fun c => _sha (strip (Chunk.text c)))
             (list_slice_to (max_chunks_per_parent cfg) group_sorted)) in
    fold_left
      (fun acc c =>
         if bool_decide (_sha (strip (Chunk.text c)) ∈ keep_set)
         then (fst acc ++ [c], snd acc)
         else (fst acc, bump "cap_parent" 1 (snd acc)))
      group (capped, d).

Definition cap_parents (cfg : FilterConfig) (kept : list Chunk.t)
    (d : gmap string Z) : list Chunk.t * gmap string Z :=
  fold_left (cap_group cfg) (map snd (group_by_parent kept)) ([], d).

(** The cap on the whole document. *)
Definition cap_doc (cfg : FilterConfig) (acc : list Chunk.t * gmap string Z)
  : list Chunk.t * gmap string Z :=
  let '(capped, d) := acc in
  if max_chunks_per_doc cfg <? Z.of_nat (List.length capped) then
    let capped_sorted := sorted_desc capped in
    let capped' := list_slice_to (max_chunks_per_doc cfg) capped_sorted in
    (capped',
     bump "cap_doc"
          (Z.of_nat (List.length capped_sorted) - Z.of_nat (List.length capped'))
          d)
  else (capped, d).

(** [filter_chunks] *)
Definition filter_chunks (str_hash : string -> Z) (chunks : list Chunk.t)
    (cfg : FilterConfig) : list Chunk.t * FilterStats :=
  if negb (enabled cfg) then
    (chunks,
     mkFilterStats (Z.of_nat (List.length chunks))
                   (Z.of_nat (List.length chunks)) 0 ∅)
  else
    let chunks := _merge_heading_with_next chunks in
    let s := tag_all str_hash cfg chunks in
    let '(capped, d) :=
      cap_doc cfg (cap_parents cfg (kept s) (t_dropped_by_tag s)) in
    let capped := reindex capped in
    (capped,
     mkFilterStats (Z.of_nat (List.length chunks))
                   (Z.of_nat (List.length capped))
                   (Z.of_nat (List.length chunks) - Z.of_nat (List.length capped))
                   d).

End ChunkFilter.

(** ** [normalize.py] and [cleanup.py] *)

Module Normalize.
Import PyStr.

Definition normalize_markdown (md : string) : string :=
  let md := PyLines.replace (String CR nl) nl md in
  let md := Re.sub_trailing_blanks md in
  let md := Re.sub_blank_runs md in
  let md := PyLines.replace "<!-- image -->" "[IMAGE]" md in
  let paras :=
    map strip (List.filter (fun p => truthy (strip p)) (Re.split_blank md)) in
  let deduped := squeeze paras [] in
  strip (join nlnl deduped).

End Normalize.

Module Cleanup.
Import PyStr.

Definition is_candidate (line : string) : bool :=
  let s := strip line in
  if negb (truthy s) then false
  else if startswith "#" s then false
  else if startswith "|" s then false
  else if Re.match_list_marker s then false
  else if String.eqb s "[IMAGE]" then false
  else (3 <=? len s) && (len s <=? 80).

(** [Counter(l)[s]] *)
Definition occurrences (s : string) (l : list string) : Z :=
  Z.of_nat (List.length (List.filter (String.eqb s) l)).

Definition cleanup_markdown (md : string) : string :=
  let md := PyLines.replace (String CR nl) nl md in
  let lines := PyLines.splitlines md in
  let candidates := map strip (List.filter is_candidate lines) in
  let repeated : gset string :=
    list_to_set
      (List.filter (fun s => 6 <=? occurrences s candidates) candidates) in
  if bool_decide (repeated = ∅) then strip md
  else
    let out :=
      List.filter (fun ln => negb (bool_decide (strip ln ∈ repeated))) lines in
    strip (Re.sub_blank_runs (join nl out)).

End Cleanup.

(** ** The pipeline of [run_ingest_job] *)

Module Ingest.

(** The settings the job reads. *)
Record Settings := mkSettings {
  TOKENIZER_NAME : string;
  CHUNK_MIN_TOKENS : Z;
  CHUNK_MAX_TOKENS : Z;
  CHUNK_OVERLAP_TOKENS : Z;
  CHUNK_PARENT_SECTION_LEVEL : Z;
  CHUNK_FILTER_ENABLED : bool;
  CHUNK_FILTER_MIN_TOKENS : Z;
  CHUNK_FILTER_MAX_CHUNKS_PER_DOC : Z;
  CHUNK_FILTER_MAX_CHUNKS_PER_PARENT : Z
}.

Definition filter_config (settings : Settings) : ChunkFilter.FilterConfig :=
  ChunkFilter.mkFilterConfig
    (CHUNK_FILTER_ENABLED settings) (CHUNK_FILTER_MIN_TOKENS settings)
    (CHUNK_FILTER_MAX_CHUNKS_PER_DOC settings)
    (CHUNK_FILTER_MAX_CHUNKS_PER_PARENT settings) true true true.

(** From the extracted Markdown to the chunks and the statistics:
    [normalize_markdown], [cleanup_markdown], [TokenAwareChunker(...)],
    [chunk], [filter_chunks]. *)
Definition run (str_hash : string -> Z)
    (loader : option (string -> option Tokenizer)) (settings : Settings)
    (markdown : string) : outcome (list Chunk.t * ChunkFilter.FilterStats) :=
  let md := Normalize.normalize_markdown markdown in
  let md := Cleanup.cleanup_markdown md in
  match
    TokenAwareChunker.init loader (TOKENIZER_NAME settings)
      (CHUNK_MIN_TOKENS settings) (CHUNK_MAX_TOKENS settings)
      (CHUNK_OVERLAP_TOKENS settings) (CHUNK_PARENT_SECTION_LEVEL settings)
  with
  | Returned chunker =>
      let chunks := TokenAwareChunker.chunk chunker md in
      Returned (ChunkFilter.filter_chunks str_hash chunks (filter_config settings))
  | Raised e => Raised e
  end.

End Ingest.

(** ** Sample documents and configurations *)

Module Samples.
Import PyStr.

(** A chunker on the character heuristic. *)
Definition chunker (mn mx ov psl : Z) : TokenAwareChunker.t :=
  TokenAwareChunker.mk TokenCounter.heuristic mn mx ov psl.

(** The process hash that orders strings by length. *)
Definition hash_by_length (s : string) : Z := len s.

(** A constant process hash. *)
Definition hash_zero (s : string) : Z := 0.

(** ["#\n\na"] *)
Definition hash_then_letter : string := "#" +:+ nlnl +:+ "a".

(** ["## X\n\nbody text here"] *)
Definition heading_then_body : string := "## X" +:+ nlnl +:+ "body text here".

(** ["# A\n\n" + 40 characters] *)
Definition heading_then_long : string :=
  "# A" +:+ nlnl +:+ "0123456789012345678901234567890123456789".

(** ["### A\n\ntext one\n\n### B\n\ntext two"] *)
Definition deep_headings : string :=
  "### A" +:+ nlnl +:+ "text one" +:+ nlnl +:+ "### B" +:+ nlnl +:+ "text two".

(** ["# A\n\npara1\n\n# B\n\npara2"] *)
Definition two_sections : string :=
  "# A" +:+ nlnl +:+ "para1" +:+ nlnl +:+ "# B" +:+ nlnl +:+ "para2".

(** A section of a heading and two paragraphs, of 39 and 24 characters. *)
Definition long_section : string :=
  "# A" +:+ nlnl +:+ "aaaa bbbb cccc dddd eeee ffff gggg hhhh"
  +:+ nlnl +:+ "iiii jjjj kkkk llll mmmm".

Definition settings (mn mx ov : Z) : Ingest.Settings :=
  Ingest.mkSettings "none" mn mx ov 2 true 40 2000 400.

End Samples.

(** ** Predicates of the statements *)

(** What [reindex] leaves of a chunk: all but the index. *)
Definition same_content (c c' : Chunk.t) : Prop :=
  Chunk.text c = Chunk.text c'
  /\ Chunk.token_count c = Chunk.token_count c'
  /\ Chunk.metadata c = Chunk.metadata c'.

(** In a list sorted by [before], [x] may stand ahead of [y]: [y] does not
    have to precede [x]. *)
Definition ahead {A} (before : A -> A -> bool) (x y : A) : Prop :=
  before y x = false.

(** The hash under which the filter remembers a chunk. *)
Definition hash_of (c : Chunk.t) : string :=
  ChunkFilter._sha (PyStr.strip (Chunk.text c)).

(** The stored count of a chunk is the count of its text. *)
Definition counted (tc : TokenCounter.t) (c : Chunk.t) : Prop :=
  Chunk.token_count c = TokenCounter.count tc (Chunk.text c).

(** The chunk that the tagging loop keeps for [c] when it has seen [seen]. *)
Definition kept_form (cfg : ChunkFilter.FilterConfig) (seen : gset string)
    (c : Chunk.t) : Chunk.t :=
  Chunk.mk (Chunk.index c) (Chunk.text c) (Chunk.token_count c)
           (ChunkFilter.tagged_meta c (ChunkFilter.chunk_tags cfg seen c)).

(** The set of the tagging loop holds the hashes of the kept chunks, and
    nothing else. *)
Definition seen_is_kept (s : ChunkFilter.tagging) : Prop :=
  forall x, x ∈ ChunkFilter.seen_hashes s <-> x ∈ hash_of <$> ChunkFilter.kept s.

Module SampleChunks.

(** A chunk with a text, a token count and a parent section, as the
    chunker builds them. *)
Definition plain (i : Z) (s : string) (tokens : Z) (parent : option string)
  : Chunk.t :=
  Chunk.mk i s tokens
    (Meta.mk (option_list parent) parent parent [text] None [] None).

Definition alpha : Chunk.t := plain 0 "alpha beta gamma" 4 (Some "Chapter 1").

(** The same text between blanks. *)
Definition alpha_padded : Chunk.t :=
  plain 1 "  alpha beta gamma " 4 (Some "Chapter 2").

(** The same text under a front-matter section. *)
Definition alpha_foreword : Chunk.t :=
  plain 0 "alpha beta gamma" 4 (Some "Foreword").

End SampleChunks.

(** [c] is filed under the parent key [p]. *)
Definition has_parent (p : string) (c : Chunk.t) : bool :=
  String.eqb (ChunkFilter.parent_key c) p.

(** The chunks of one group that the cap per parent section lets through. *)
Definition cap_one (cfg : ChunkFilter.FilterConfig) (group : list Chunk.t)
  : list Chunk.t :=
  if Z.of_nat (length group) <=? ChunkFilter.max_chunks_per_parent cfg
  then group
  else
    List.filter
      (fun c =>
         bool_decide
           (hash_of c
            ∈ (list_to_set
                 (map hash_of
                      (list_slice_to (ChunkFilter.max_chunks_per_parent cfg)
                                     (ChunkFilter.sorted_desc group)))
               : gset string)))
      group.

(** The dictionary [d'] is [d] with the count under [k] raised by [n]. *)
Definition bumped (k : string) (n : Z) (d d' : gmap string Z) : Prop :=
  (forall k', k' <> k -> d' !! k' = d !! k')
  /\ default 0 (d' !! k) = default 0 (d !! k) + n.

(** The five tags of the tagging loop. *)
Definition loop_tags : list string :=
  ["front_matter"; "boilerplate"; "image_only"; "low_signal"; "duplicate"].

(** The groups of a list of chunks: the parent keys in the order of their
    first chunk, each with its chunks in order. *)
Definition groups_of (ks : list Chunk.t) : list (string * list Chunk.t) :=
  map (fun p => (p, List.filter (has_parent p) ks))
      (fromkeys (map ChunkFilter.parent_key ks) []).

Module SampleCaps.

(** Three chunks of one section, of 50, 300 and 10 tokens. *)
Definition three : list Chunk.t :=
  [ SampleChunks.plain 0 "first text" 50 (Some "Chapter 1");
    SampleChunks.plain 1 "second text" 300 (Some "Chapter 1");
    SampleChunks.plain 2 "third text" 10 (Some "Chapter 1") ].

(** At most two chunks per parent section, at most one per document. *)
Definition tight : ChunkFilter.FilterConfig :=
  ChunkFilter.mkFilterConfig true 40 1 2 true true true.

End SampleCaps.

(** In a list of chunks held last first, a chunk below [min_tokens] has no
    chunk of its own parent section just before it. *)
Fixpoint small_after_other_rev (min_tokens : Z) (l : list Chunk.t) : Prop :=
  match l with
  | m :: r =>
      match r with
      | p :: _ =>
          (Chunk.token_count m < min_tokens ->
           Meta.parent_section_path (Chunk.metadata p)
           <> Meta.parent_section_path (Chunk.metadata m))
          /\ small_after_other_rev min_tokens r
      | [] => True
      end
  | [] => True
  end.

(** The same on a list in order: of two chunks that follow each other, the
    second is below [min_tokens] only if their parent sections differ. *)
Definition small_after_other (min_tokens : Z) (l : list Chunk.t) : Prop :=
  forall i p c,
    l !! i = Some p -> l !! S i = Some c ->
    Chunk.token_count c < min_tokens ->
    Meta.parent_section_path (Chunk.metadata p)
    <> Meta.parent_section_path (Chunk.metadata c).

(** ** The loops of the parser, stated apart *)

Module ParserLoops.
Import PyStr TokenAwareChunker.

(** The loop that reads a fenced code block. *)
Definition code_loop (self : t) (st : stack) (fence : string)
  : list string -> list string -> list Block.t :=
  fix code_loop (ls : list string) (code_lines : list string) : list Block.t :=
  match ls with
  | [] =>
      let s := strip (join nl code_lines) in
      [block_at self st s (_tok_count self s) code None]
  | l :: ls' =>
      if startswith fence (strip l) then
        let s := strip (join nl (code_lines ++ [l])) in
        block_at self st s (_tok_count self s) code None
        :: iter_lines self ls' [] st
      else code_loop ls' (code_lines ++ [l])
  end.

(** The loop that reads the rows of a table. *)
Definition table_loop (self : t) (st : stack)
  : list string -> list string -> list Block.t :=
  fix table_loop (ls : list string) (table_lines : list string) : list Block.t :=
  let s := strip (join nl table_lines) in
  match ls with
  | [] => [block_at self st s (_tok_count self s) table None]
  | l :: ls' =>
      if startswith "|" (strip l)
      then table_loop ls' (table_lines ++ [l])
      else block_at self st s (_tok_count self s) table None
           :: iter_lines self ls [] st
  end.

(** The loop that reads the lines of a list. *)
Definition list_loop (self : t) (st : stack)
  : list string -> list string -> list Block.t :=
  fix list_loop (ls : list string) (list_lines : list string) : list Block.t :=
  let s := strip (join nl list_lines) in
  match ls with
  | [] => [block_at self st s (_tok_count self s) list_ None]
  | nxt :: ls' =>
      if negb (truthy (strip nxt)) then
        block_at self st s (_tok_count self s) list_ None
        :: iter_lines self ls [] st
      else if Re.match_list_continuation nxt
      then list_loop ls' (list_lines ++ [nxt])
      else block_at self st s (_tok_count self s) list_ None
           :: iter_lines self ls [] st
  end.

(** What the scan does with the line [line], the lines [rest] after it. *)
Definition scan_line (self : t) (line : string) (rest : list string)
    (para : list string) (st : stack) : list Block.t :=
  let stripped := strip line in
  if negb (truthy stripped) then
    flush_para self st para ++ iter_lines self rest [] st
  else
  match Re.match_heading line with
  | Some (level, title) =>
      let st' := push_heading st level title in
      flush_para self st para ++
      block_at self st' stripped (_tok_count self stripped) heading (Some level)
      :: iter_lines self rest [] st'
  | None =>
  if String.eqb stripped "[IMAGE]" then
    flush_para self st para ++
    block_at self st "[IMAGE]" 1 image None :: iter_lines self rest [] st
  else if startswith "```" stripped || startswith "~~~" stripped then
    flush_para self st para ++ code_loop self st (slice 0 3 stripped) rest [line]
  else
  let table_start :=
    match rest with
    | next :: _ =>
        startswith "|" stripped && startswith "|" (strip next)
        && Re.search_dashes (strip next)
    | [] => false
    end in
  match table_start, rest with
  | true, next :: rest2 =>
      flush_para self st para ++ table_loop self st rest2 [line; next]
  | _, _ =>
      if Re.match_list_marker line then
        flush_para self st para ++ list_loop self st rest [line]
      else iter_lines self rest (para ++ [line]) st
  end
  end.

End ParserLoops.

(** ** Sections of a list of blocks *)

Module Sections.
Import TokenAwareChunker.

(** The blocks [bs], read with the heading stack [st], carry the parent
    path of the stack, which each heading block updates. *)
Inductive follows (self : t) : stack -> list Block.t -> Prop :=
  | follows_nil st : follows self st []
  | follows_body st b bs :
      Block.block_type b <> heading ->
      Block.parent_section_path b = _parent_section_path self st ->
      follows self st bs ->
      follows self st (b :: bs)
  | follows_heading st b bs level title :
      Block.block_type b = heading ->
      Block.heading_level b = Some level ->
      Block.parent_section_path b
      = _parent_section_path self (push_heading st level title) ->
      follows self (push_heading st level title) bs ->
      follows self st (b :: bs).

(** The blocks [bs] lie in parent sections: a block that is not a heading
    of a parent section carries the parent path of the last such heading
    before it, or [ap] when there is none. *)
Inductive sectioned (self : t) : option string -> list Block.t -> Prop :=
  | sectioned_nil ap : sectioned self ap []
  | sectioned_same ap b bs :
      is_parent_heading self b = false ->
      Block.parent_section_path b = ap ->
      sectioned self ap bs ->
      sectioned self ap (b :: bs)
  | sectioned_new ap b bs :
      is_parent_heading self b = true ->
      sectioned self (Block.parent_section_path b) bs ->
      sectioned self ap (b :: bs).

(** The first heading block, when there is one, is a heading of a parent
    section. *)
Fixpoint starts_at_parent_level (self : t) (bs : list Block.t) : bool :=
  match bs with
  | [] => true
  | b :: r =>
      match Block.block_type b with
      | heading => is_parent_heading self b
      | _ => starts_at_parent_level self r
      end
  end.

(** No heading of a parent section is over [max_tokens]. *)
Definition parent_headings_fit (self : t) (bs : list Block.t) : bool :=
  forallb (fun b => negb (is_parent_heading self b)
                    || (Block.token_count b <=? max_tokens self)) bs.

(** The entries of the stack at or above the parent section level. *)
Definition kept_levels (self : t) (st : stack) : stack :=
  List.filter (fun e => fst e <=? parent_section_level self) st.

(** The blocks that [flush] turns into a chunk in the state [s], with the
    parent path it records: none when [cur] is empty or counts no token. *)
Definition flushed (self : t) (s : asm) : list (list Block.t * option string) :=
  match cur s with
  | [] => []
  | _ =>
      if 1 <=? _tok_count self (PyStr.strip (joined_text (cur s)))
      then [(cur s, active_parent s)] else []
  end.

(** The groups of blocks flushed while the block [b] is handled. *)
Definition step_groups (self : t) (s : asm) (b : Block.t)
  : list (list Block.t * option string) :=
  (if is_parent_heading self b then flushed self s else [])
  ++ (let s1 := enter self s b in
      if cur_tokens s1 + Block.token_count b <=? max_tokens self then []
      else flushed self s1).

(** The groups of blocks flushed from the state [s] on, one for each chunk
    appended, in order. *)
Fixpoint groups_from (self : t) (s : asm) (blocks : list Block.t)
  : list (list Block.t * option string) :=
  match blocks with
  | [] => flushed self s
  | b :: r => step_groups self s b ++ groups_from self (step self s b) r
  end.

(** The blocks of each chunk of [assemble]. *)
Definition groups (self : t) (blocks : list Block.t)
  : list (list Block.t * option string) :=
  groups_from self (mk_asm [] [] 0 0 None) blocks.

(** The chunk [c] is the chunk flushed for the group [g]. *)
Definition chunk_of_group (g : list Block.t * option string) (c : Chunk.t)
  : Prop :=
  Chunk.text c = PyStr.strip (joined_text (fst g))
  /\ Meta.parent_section_path (Chunk.metadata c) = snd g.

(** The scan from the lines [ls] on follows the stack, whatever the
    paragraph and the stack it starts with. *)
Definition scan_follows (self : t) (ls : list string) : Prop :=
  forall para st, follows self st (iter_lines self ls para st).

(** All blocks of the group carry the parent path recorded for it. *)
Definition one_parent (g : list Block.t * option string) : Prop :=
  Forall (fun b => Block.parent_section_path b = snd g) (fst g).

End Sections.

(** In the state [s] the section [ap] is open, and the blocks in progress
    carry its path. *)
Definition in_section (ap : option string) (s : TokenAwareChunker.asm) : Prop :=
  TokenAwareChunker.active_parent s = ap
  /\ Forall (fun b => Block.parent_section_path b = ap) (TokenAwareChunker.cur s).

(** ** Predicates on strings and blocks *)

(** [s.strip() == s] *)
Definition trimmed (s : string) : Prop := PyStr.strip s = s.

(** The levels of a heading stack grow from the outermost entry inwards. *)
Fixpoint increasing (st : TokenAwareChunker.stack) : Prop :=
  match st with
  | [] => True
  | e :: r =>
      match r with
      | [] => True
      | e' :: _ => fst e < fst e' /\ increasing r
      end
  end.

(** What the parser builds: the text of a block is trimmed and not empty;
    a heading block, and no other, has a level, from 1 to 6; an image
    block is the marker, counted as one token; any other block stores the
    count of its text. *)
Definition well_formed_block (self : TokenAwareChunker.t) (b : Block.t) : Prop :=
  trimmed (Block.text b)
  /\ Block.text b <> EmptyString
  /\ match Block.block_type b with
     | heading =>
         (exists l, Block.heading_level b = Some l /\ 1 <= l <= 6)
         /\ Block.token_count b
            = TokenAwareChunker._tok_count self (Block.text b)
     | image =>
         Block.heading_level b = None
         /\ Block.text b = "[IMAGE]" /\ Block.token_count b = 1
     | _ =>
         Block.heading_level b = None
         /\ Block.token_count b
            = TokenAwareChunker._tok_count self (Block.text b)
     end.

(** The chunks of an assembly state are numbered 0, 1, 2, ... and [idx] is
    the next number. *)
Definition dense (s : TokenAwareChunker.asm) : Prop :=
  TokenAwareChunker.idx s = Z.of_nat (length (TokenAwareChunker.chunks s))
  /\ forall k c, TokenAwareChunker.chunks s !! k = Some c ->
                 Chunk.index c = Z.of_nat k.

(** A chunk with a trimmed text that is not empty, and at least one token. *)
Definition solid (c : Chunk.t) : Prop :=
  trimmed (Chunk.text c) /\ Chunk.text c <> EmptyString
  /\ 1 <= Chunk.token_count c.

(** The texts of the chunks, with a blank line between them. *)
Definition all_text (cs : list Chunk.t) : string :=
  PyStr.join PyStr.nlnl (map Chunk.text cs).

(** ** Predicates on the chunks of the filter *)

(** The section name that the tagging loop reads off a chunk: the parent
    path, else the primary path, trimmed and in lower case. *)
Definition section_of (c : Chunk.t) : string :=
  ChunkFilter._section_tag
    (Some (ChunkFilter.or_empty
             (str_or (str_or (Meta.parent_section_path (Chunk.metadata c))
                             (Meta.primary_section_path (Chunk.metadata c)))
                     (Some EmptyString)))).

(** The chunk has nothing of what the filter drops under [cfg]. *)
Definition clean (cfg : ChunkFilter.FilterConfig) (c : Chunk.t) : Prop :=
  (ChunkFilter.drop_front_matter cfg = true ->
   ChunkFilter._match_any_keyword (section_of c)
     ChunkFilter._FRONT_MATTER_KEYWORDS = false)
  /\ (ChunkFilter.drop_boilerplate cfg = true ->
      ChunkFilter._has_boilerplate (Chunk.text c) = false)
  /\ (ChunkFilter.drop_image_only cfg = true ->
      ChunkFilter._is_image_only (Chunk.text c) = false).

(** The score of a chunk that no tag but [low_signal] can mark: 1.0, or
    0.7 when it is short, 0.75 when it is short and of 200 tokens. *)
Definition kept_score (cfg : ChunkFilter.FilterConfig) (c : Chunk.t) : Z :=
  if Chunk.token_count c <? ChunkFilter.min_tokens cfg
  then (if 200 <=? Chunk.token_count c then 75 else 70)
  else 100.

(** The trimmed text of a chunk. *)
Definition trimmed_text (c : Chunk.t) : string := PyStr.strip (Chunk.text c).

(** ** Predicates on the lines and blocks of the parser *)

(** The string holds a line boundary of [str.splitlines]. *)
Fixpoint has_line_break (s : string) : bool :=
  match s with
  | EmptyString => false
  | String c r => PyLines.is_line_break c || has_line_break r
  end.

(** The lines read into a block so far: there is a first one, not blank,
    and all of them satisfy [L]. *)
Definition headed (L : string -> Prop) (acc : list string) : Prop :=
  match acc with
  | first :: more =>
      PyStr.truthy (PyStr.strip first) = true /\ L first /\ Forall L more
  | [] => False
  end.

(** On lines that satisfy [L], whatever paragraph of such lines and
    whatever stack that satisfies [I] the scan starts with, its blocks
    satisfy [P]. *)
Definition scan_yields (self : TokenAwareChunker.t) (L : string -> Prop)
    (I : TokenAwareChunker.stack -> Prop) (P : Block.t -> Prop)
    (ls : list string) : Prop :=
  Forall L ls ->
  forall para st, I st -> Forall L para ->
    Forall P (TokenAwareChunker.iter_lines self ls para st).

(** The parent section of a block is its section or one around it: the
    block lies under no heading, or its section path names the headings
    around it, outermost first, and its parent path names the first [k]
    of them. *)
Definition parent_is_ancestor (b : Block.t) : Prop :=
  (Block.section_path b = None /\ Block.parent_section_path b = None)
  \/ exists (titles : list string) (k : nat),
       (1 <= k <= length titles)%nat
       /\ Block.section_path b = Some (PyStr.join " > " titles)
       /\ Block.parent_section_path b
          = Some (PyStr.join " > " (take k titles)).

(** A heading block reads as a heading alone, an image block as an image
    alone, to the tests of the filter. *)
Definition read_by_filter (b : Block.t) : Prop :=
  (Block.block_type b = heading ->
   ChunkFilter._looks_like_heading_only (Block.text b) = true)
  /\ (Block.block_type b = image ->
      ChunkFilter._is_image_only (Block.text b) = true).

(** A piece of text that is not empty and counts at most [max_tokens]. *)
Definition fits (self : TokenAwareChunker.t) (p : string) : Prop :=
  p <> EmptyString
  /\ TokenAwareChunker._tok_count self p <= TokenAwareChunker.max_tokens self.

(** ** Runs of line feeds *)

(** No run of line feeds in [s] is longer than [k], when [run] line feeds
    stand just before [s]. *)
Fixpoint lf_bound (k : nat) (s : string) (run : nat) : bool :=
  match s with
  | EmptyString => true
  | String c r =>
      if Ascii.eqb c PyStr.LF then (run <? k)%nat && lf_bound k r (S run)
      else lf_bound k r O
  end.

(** The number of line feeds at the end of [s], when [run] line feeds stand
    just before it. *)
Fixpoint trail (s : string) (run : nat) : nat :=
  match s with
  | EmptyString => run
  | String c r => if Ascii.eqb c PyStr.LF then trail r (S run) else trail r O
  end.

(** A paragraph as [normalize_markdown] joins them: trimmed, not empty,
    without a blank line inside. *)
Definition paragraph (p : string) : Prop :=
  trimmed p /\ p <> EmptyString /\ lf_bound 1 p O = true.

(** ** The lines of [cleanup_markdown] *)

(** [lines] *)
Definition cleanup_lines (md : string) : list string :=
  PyLines.splitlines (PyLines.replace (String PyStr.CR PyStr.nl) PyStr.nl md).

(** The list that [Counter] counts: the candidate lines, trimmed. *)
Definition cleanup_candidates (md : string) : list string :=
  map PyStr.strip (List.filter Cleanup.is_candidate (cleanup_lines md)).

(** [repeated] *)
Definition cleanup_repeated (md : string) : gset string :=
  list_to_set
    (List.filter (fun s => 6 <=? Cleanup.occurrences s (cleanup_candidates md))
                 (cleanup_candidates md)).

(** [out], the lines that the loop keeps. *)
Definition cleanup_kept (md : string) : list string :=
  List.filter
    (fun ln => negb (bool_decide (PyStr.strip ln ∈ cleanup_repeated md)))
    (cleanup_lines md).

(** ** [embed_client.py] and the rows of [run_ingest_job] *)

Module EmbeddingsClient.

(** An item of the ["data"] list of the response: [index] is
    [int(item.get("index"))], [None] when the conversion raises;
    [embedding] is [item.get("embedding")]. *)
Record Item (E : Type) := mkItem {
  index : option Z;
  embedding : option E
}.
Arguments mkItem {E} index embedding.
Arguments index {E} _.
Arguments embedding {E} _.

(** The loop over the items: [embs[idx] = item.get("embedding")] for the
    indices in range. *)
Fixpoint fill {E} (items : list (Item E)) (embs : list (option E))
  : outcome (list (option E)) :=
  match items with
  | [] => Returned embs
  | item :: rest =>
      match index item with
      | None => Raised "TypeError"
      | Some idx =>
          if (0 <=? idx) && (idx <? Z.of_nat (length embs))
          then fill rest (<[Z.to_nat idx := embedding item]> embs)
          else fill rest embs
      end
  end.

(** [embed_many]. [post] is the request to the embeddings server: it
    returns the ["data"] list of the response, or raises. *)
Definition embed_many {E} (post : list string -> outcome (list (Item E)))
    (texts : list string) : outcome (list E) :=
  match post texts with
  | Raised e => Raised e
  | Returned items =>
      match fill items (replicate (length texts) None) with
      | Raised e => Raised e
      | Returned embs =>
          if forallb (fun e => bool_decide (is_Some e)) embs
          then Returned (omap id embs)
          else Raised "RuntimeError"
      end
  end.

End EmbeddingsClient.

(** [l[a:b]] on a list, for [0 <= a] *)
Definition list_slice {A} (a b : Z) (l : list A) : list A :=
  let i := PyStr.slice_bound a (Z.of_nat (length l)) in
  let j := PyStr.slice_bound b (Z.of_nat (length l)) in
  firstn (j - i) (skipn i l).

Module IngestRows.

(** [ChunkRow], less the fields copied from the document. *)
Record ChunkRow (E : Type) := mkChunkRow {
  chunk_index : Z;
  content : string;
  token_count : Z;
  embedding : E
}.
Arguments mkChunkRow {E} chunk_index content token_count embedding.
Arguments chunk_index {E} _.
Arguments content {E} _.
Arguments token_count {E} _.
Arguments embedding {E} _.

Definition BATCH_SIZE : Z := 16.

(** [range(0, n, BATCH_SIZE)] *)
Definition batch_starts (n : Z) : list Z :=
  map (fun k => Z.of_nat k * BATCH_SIZE)
      (seq 0 (Z.to_nat ((n + BATCH_SIZE - 1) / BATCH_SIZE))).

(** The body of [for i in range(0, len(chunks), BATCH_SIZE)]. *)
Definition batch_rows {E}
    (post : list string -> outcome (list (EmbeddingsClient.Item E)))
    (chunks : list Chunk.t) (rows : list (ChunkRow E)) (i : Z)
  : outcome (list (ChunkRow E)) :=
  let batch := list_slice i (i + BATCH_SIZE) chunks in
  match EmbeddingsClient.embed_many post (map Chunk.text batch) with
  | Raised e => Raised e
  | Returned embs =>
      Returned
        (rows ++ map (fun p => mkChunkRow (Chunk.index (fst p)) (Chunk.text (fst p))
                                          (Chunk.token_count (fst p)) (snd p))
                     (combine batch embs))
  end.

(** The rows that [run_ingest_job] hands to the store. *)
Definition rows {E}
    (post : list string -> outcome (list (EmbeddingsClient.Item E)))
    (chunks : list Chunk.t) : outcome (list (ChunkRow E)) :=
  fold_left
    (fun acc i =>
       match acc with
       | Raised e => Raised e
       | Returned rows => batch_rows post chunks rows i
       end)
    (batch_starts (Z.of_nat (length chunks))) (Returned []).

(** What a row takes from its chunk. *)
Definition row_data {E} (r : ChunkRow E) : Z * string * Z :=
  (chunk_index r, content r, token_count r).

Definition chunk_data (c : Chunk.t) : Z * string * Z :=
  (Chunk.index c, Chunk.text c, Chunk.token_count c).

(** A server that answers each text with its length, under its index. *)
Definition echo (texts : list string)
  : outcome (list (EmbeddingsClient.Item Z)) :=
  Returned
    (imap (fun i t => EmbeddingsClient.mkItem (Some (Z.of_nat i))
                                              (Some (PyStr.len t)))
          texts).

(** A server that leaves the last text unanswered. *)
Definition forgetful (texts : list string)
  : outcome (list (EmbeddingsClient.Item Z)) :=
  Returned
    (imap (fun i t => EmbeddingsClient.mkItem (Some (Z.of_nat i))
                                              (Some (PyStr.len t)))
          (removelast texts)).

End IngestRows.

(** A block with a trimmed text that is not empty. *)
Definition block_solid (b : Block.t) : Prop :=
  trimmed (Block.text b) /\ Block.text b <> EmptyString.

(** The texts held by an assembly state, in order: those of the chunks,
    then those of the blocks in progress. *)
Definition held_texts (s : TokenAwareChunker.asm) : list string :=
  map Chunk.text (TokenAwareChunker.chunks s)
  ++ map Block.text (TokenAwareChunker.cur s).

(** The state [s] holds the texts [seen], whatever follows: its blocks in
    progress are trimmed and not empty, and its texts followed by [rest],
    joined by blank lines, read as [seen] followed by [rest]. *)
Definition holds (s : TokenAwareChunker.asm) (seen : list string) : Prop :=
  Forall block_solid (TokenAwareChunker.cur s)
  /\ forall rest,
       PyStr.join PyStr.nlnl (held_texts s ++ rest)
       = PyStr.join PyStr.nlnl (seen ++ rest).

(** * Properties *)

(** ** Strings *)

Section StringFacts.
Import PyStr.

Lemma append_cons (c : ascii) (a b : string) :
  String c a +:+ b = String c (a +:+ b).
Proof. reflexivity. Qed.

Lemma append_nil (a : string) : EmptyString +:+ a = a.
Proof. reflexivity. Qed.

Lemma str_take_drop (k : nat) (s : string) : take k s +:+ drop k s = s.
Proof.
  revert s; induction k as [|k IH]; intros s; [reflexivity|].
  destruct s as [|c r]; [reflexivity|].
  cbn [take drop]. rewrite append_cons. f_equal. apply IH.
Qed.

Lemma str_length_drop (k : nat) (s : string) :
  String.length (drop k s) = (String.length s - k)%nat.
Proof.
  revert s; induction k as [|k IH]; intros s; cbn.
  - lia.
  - destruct s as [|c r]; cbn; [reflexivity|apply IH].
Qed.

Lemma str_length_append (a b : string) :
  String.length (a +:+ b) = (String.length a + String.length b)%nat.
Proof.
  induction a as [|c a IH]; [reflexivity|].
  rewrite append_cons. cbn [String.length]. now rewrite IH.
Qed.

Lemma truthy_false (s : string) : truthy s = false <-> s = EmptyString.
Proof. destruct s; cbn; split; congruence. Qed.

End StringFacts.

(** ** The token counter *)

(** C9, as the code has it. With the character heuristic, [count] trims the
    text first: it returns 0 when the trimmed text is empty and
    [max(1, len(trimmed) / 4)] otherwise; for [n >= 1], [tail_text] returns
    the suffix of the text of [min(len(text), 4 * n)] characters. Both are
    total functions of the string and of [n]. *)
Theorem heuristic_count_and_tail (s : string) (n : Z) (Hn : 1 <= n) :
  TokenCounter.count TokenCounter.heuristic s
  = (if String.eqb (PyStr.strip s) EmptyString then 0
     else Z.max 1 (PyStr.len (PyStr.strip s) / 4))
  /\ (exists pre, s = pre +:+ TokenCounter.tail_text TokenCounter.heuristic s n)
  /\ PyStr.len (TokenCounter.tail_text TokenCounter.heuristic s n)
     = Z.min (PyStr.len s) (4 * n).
Proof.
  split; [|split].
  - unfold TokenCounter.count, TokenCounter.heuristic.
    destruct (PyStr.strip s); reflexivity.
  - unfold TokenCounter.tail_text, TokenCounter.heuristic, PyStr.slice_from.
    eexists. symmetry. apply str_take_drop.
  - unfold TokenCounter.tail_text, TokenCounter.heuristic, PyStr.slice_from,
      PyStr.slice_bound, PyStr.len.
    rewrite str_length_drop.
    destruct (Z.ltb_spec (- Z.max 0 (n * 4)) 0); lia.
Qed.

Lemma heuristic_count_and_tail_witness :
  TokenCounter.count TokenCounter.heuristic "  abcdefgh  " = 2
  /\ TokenCounter.tail_text TokenCounter.heuristic "abcdefgh" 1 = "efgh".
Proof.
  pose proof (heuristic_count_and_tail "  abcdefgh  " 1 ltac:(lia)) as [H _].
  split; [rewrite H|]; reflexivity.
Defined.

(** C9 as stated fails: a text of one blank is not empty, and its count is
    0, not [max(1, 1 / 4) = 1]. *)
Lemma count_of_blank_text :
  " " <> EmptyString
  /\ TokenCounter.count TokenCounter.heuristic " "
     <> Z.max 1 (PyStr.len " " / 4).
Proof. split; [discriminate|vm_compute; discriminate]. Qed.

(** The trailing blanks of a text are not counted either. *)
Example count_ignores_margins :
  TokenCounter.count TokenCounter.heuristic "abcd    " = 1
  /\ Z.max 1 (PyStr.len "abcd    " / 4) = 2.
Proof. split; reflexivity. Qed.

(** [text[-0:]] is the whole text. *)
Example tail_text_of_zero :
  TokenCounter.tail_text TokenCounter.heuristic "abcdefgh" 0 = "abcdefgh".
Proof. reflexivity. Qed.

(** ** Construction of the chunker *)

(** C5, as the code has it. The constructor checks nothing: for every
    configuration, [max_tokens < min_tokens] included, it returns a chunker
    holding the three budgets as given and the parent section level clamped
    to 1..6. *)
Theorem init_always_returns loader name (mn mx ov psl : Z) :
  exists c,
    TokenAwareChunker.init loader name mn mx ov psl = Returned c
    /\ TokenAwareChunker.min_tokens c = mn
    /\ TokenAwareChunker.max_tokens c = mx
    /\ TokenAwareChunker.overlap_tokens c = ov
    /\ 1 <= TokenAwareChunker.parent_section_level c <= 6
    /\ (1 <= psl <= 6 -> TokenAwareChunker.parent_section_level c = psl).
Proof.
  eexists; split; [reflexivity|]. cbn. repeat split; lia.
Qed.

(** C5 as stated fails: with [min_tokens = 500] and [max_tokens = 100] the
    constructor returns. *)
Lemma init_accepts_max_below_min :
  ~ (forall loader name mn mx ov psl,
        mx < mn ->
        exists e, TokenAwareChunker.init loader name mn mx ov psl = Raised e).
Proof.
  intros H. destruct (H None "x" 500 100 0 2 ltac:(lia)) as [e He].
  discriminate He.
Qed.

(** Under such a configuration the scan goes through as under any other. *)
Example chunk_with_max_below_min :
  map (fun c => (Chunk.text c, Chunk.token_count c))
      (TokenAwareChunker.chunk (Samples.chunker 500 2 0 1) Samples.two_sections)
  = [ ("# A" +:+ PyStr.nlnl +:+ "para1", 2);
      ("# B" +:+ PyStr.nlnl +:+ "para2", 2) ].
Proof. vm_compute. reflexivity. Qed.

(** ** Reindexing *)

Section Reindex.

Lemma length_reindex_from (i : Z) (l : list Chunk.t) :
  length (reindex_from i l) = length l.
Proof. revert i; induction l as [|c l IH]; intros i; cbn; [|rewrite IH]; done. Qed.

Lemma length_reindex (l : list Chunk.t) : length (reindex l) = length l.
Proof. apply length_reindex_from. Qed.

Lemma lookup_reindex_from (i : Z) (l : list Chunk.t) (k : nat) :
  reindex_from i l !! k
  = (fun c => Chunk.mk (i + Z.of_nat k) (Chunk.text c) (Chunk.token_count c)
                       (Chunk.metadata c)) <$> l !! k.
Proof.
  revert i k; induction l as [|c l IH]; intros i k; [done|].
  destruct k as [|k]; cbn.
  - now rewrite Z.add_0_r.
  - rewrite IH. destruct (l !! k); cbn; [|done].
    do 2 f_equal. lia.
Qed.

Lemma elem_of_reindex_from (i : Z) (l : list Chunk.t) (c : Chunk.t) :
  c ∈ reindex_from i l -> exists c', c' ∈ l /\ same_content c c'.
Proof.
  revert i; induction l as [|x l IH]; intros i; cbn.
  - intros H; inversion H.
  - rewrite elem_of_cons. intros [->|H].
    + exists x. split; [left|done].
    + destruct (IH _ H) as (c' & Hin & Hc). exists c'. split; [now right|done].
Qed.

Lemma reindex_dense (l : list Chunk.t) (k : nat) (c : Chunk.t) :
  reindex l !! k = Some c -> Chunk.index c = Z.of_nat k.
Proof.
  unfold reindex. rewrite lookup_reindex_from.
  destruct (l !! k); cbn; [|done]. now intros [= <-].
Qed.

End Reindex.

(** ** The heading merge of the filter *)

Section HeadingMerge.
Import ChunkFilter.

(** Induction that follows the scan: by one chunk or by two. *)
Lemma chunk_pair_ind (P : list Chunk.t -> Prop) :
  P [] ->
  (forall c, P [c]) ->
  (forall c n rest, P rest -> P (n :: rest) -> P (c :: n :: rest)) ->
  forall l, P l.
Proof.
  intros Hnil Hone Hstep l.
  enough (P l /\ forall c, P (c :: l)) by tauto.
  induction l as [|n rest [IH1 IH2]]; split; auto.
Qed.

Lemma merge_heading_scan_merge (c n : Chunk.t) (rest : list Chunk.t) :
  _looks_like_heading_only (Chunk.text c) = true ->
  same_parent c n = true ->
  merge_heading_scan (c :: n :: rest)
  = merge_heading_pair c n :: merge_heading_scan rest.
Proof. intros H1 H2. cbn. now rewrite H1, H2. Qed.

Lemma merge_heading_scan_keep (c n : Chunk.t) (rest : list Chunk.t) :
  _looks_like_heading_only (Chunk.text c) && same_parent c n = false ->
  merge_heading_scan (c :: n :: rest) = c :: merge_heading_scan (n :: rest).
Proof. intros H. cbn [merge_heading_scan]. now rewrite H. Qed.

Lemma length_merge_heading_scan (l : list Chunk.t) :
  (length (merge_heading_scan l) <= length l)%nat.
Proof.
  induction l as [| c | c n rest IH1 IH2] using chunk_pair_ind; [done..|].
  destruct (_looks_like_heading_only (Chunk.text c) && same_parent c n) eqn:E.
  - apply andb_prop in E as [E1 E2].
    rewrite merge_heading_scan_merge by done. cbn. lia.
  - rewrite merge_heading_scan_keep by done. cbn in *. lia.
Qed.

(** A chunk after the scan is a chunk of the input or the merge of two. *)
Lemma merge_heading_scan_origin (l : list Chunk.t) (x : Chunk.t) :
  x ∈ merge_heading_scan l ->
  x ∈ l
  \/ exists c n, c ∈ l /\ n ∈ l
       /\ _looks_like_heading_only (Chunk.text c) = true
       /\ same_parent c n = true /\ x = merge_heading_pair c n.
Proof.
  induction l as [| c | c n rest IH1 IH2] using chunk_pair_ind;
    [intros H; inversion H | now left |].
  destruct (_looks_like_heading_only (Chunk.text c) && same_parent c n) eqn:E.
  - apply andb_prop in E as [E1 E2].
    rewrite merge_heading_scan_merge by done.
    rewrite elem_of_cons. intros [->|H].
    + right. exists c, n. rewrite !elem_of_cons. tauto.
    + destruct (IH1 H) as [Hin|(a & b & Ha & Hb & Hrest)].
      * left. rewrite !elem_of_cons. tauto.
      * right. exists a, b. rewrite !elem_of_cons. tauto.
  - rewrite merge_heading_scan_keep by done.
    rewrite elem_of_cons. intros [->|H].
    + left. rewrite !elem_of_cons. tauto.
    + destruct (IH2 H) as [Hin|(a & b & Ha & Hb & Hrest)].
      * left. rewrite elem_of_cons. tauto.
      * right. exists a, b. rewrite (elem_of_cons _ a), (elem_of_cons _ b). tauto.
Qed.

End HeadingMerge.

(** ** The statistics of the filter *)

(** C10. With filtering enabled, [total_in] counts the chunks after the
    heading merge, which are at most the chunks passed in, [total_out] the
    chunks returned, and [dropped] is their difference. *)
Theorem filter_stats_balance (str_hash : string -> Z) (chunks : list Chunk.t)
    (cfg : ChunkFilter.FilterConfig) (Hen : ChunkFilter.enabled cfg = true) :
  let r := ChunkFilter.filter_chunks str_hash chunks cfg in
  ChunkFilter.total_in (snd r)
  = Z.of_nat (length (ChunkFilter._merge_heading_with_next chunks))
  /\ ChunkFilter.total_out (snd r) = Z.of_nat (length (fst r))
  /\ ChunkFilter.total_in (snd r) - ChunkFilter.total_out (snd r)
     = ChunkFilter.dropped (snd r)
  /\ ChunkFilter.total_in (snd r) <= Z.of_nat (length chunks).
Proof.
  unfold ChunkFilter.filter_chunks. rewrite Hen. cbn [negb].
  destruct (ChunkFilter.cap_doc _ _) as [capped d]. cbn.
  repeat split; try done.
  unfold ChunkFilter._merge_heading_with_next. rewrite length_reindex.
  pose proof (length_merge_heading_scan chunks). lia.
Qed.

(** Two chunks come in, the heading merge leaves one: [total_in] is 1. *)
Lemma filter_stats_balance_witness :
  let chunks :=
    TokenAwareChunker.chunk (Samples.chunker 1 3 0 2) Samples.heading_then_body in
  let r := ChunkFilter.filter_chunks Samples.hash_zero chunks
                                     ChunkFilter.default_config in
  length chunks = 2%nat
  /\ ChunkFilter.total_in (snd r) = 1
  /\ ChunkFilter.total_in (snd r) - ChunkFilter.total_out (snd r)
     = ChunkFilter.dropped (snd r).
Proof.
  pose proof (filter_stats_balance Samples.hash_zero
    (TokenAwareChunker.chunk (Samples.chunker 1 3 0 2) Samples.heading_then_body)
    ChunkFilter.default_config eq_refl) as (H1 & _ & H3 & _).
  cbv zeta. split; [vm_compute; reflexivity|]. split; [|exact H3].
  rewrite H1. vm_compute. reflexivity.
Defined.

(** ** What every chunk of the chunker satisfies *)

Section ChunkerForall.
Import TokenAwareChunker.

Variable self : TokenAwareChunker.t.

(** [flush] leaves the chunks as they are or appends the chunk of [cur]. *)
Lemma flush_cases (s : asm) :
  (chunks (flush self s) = chunks s /\ idx (flush self s) = idx s
   \/ exists c,
        chunks (flush self s) = chunks s ++ [c]
        /\ idx (flush self s) = idx s + 1
        /\ cur s <> []
        /\ Chunk.index c = idx s
        /\ Chunk.text c = PyStr.strip (joined_text (cur s))
        /\ Chunk.token_count c = _tok_count self (Chunk.text c)
        /\ 1 <= Chunk.token_count c
        /\ Meta.parent_section_path (Chunk.metadata c) = active_parent s
        /\ Meta.merged_heading (Chunk.metadata c) = None
        /\ Meta.tags (Chunk.metadata c) = []
        /\ Meta.quality_score (Chunk.metadata c) = None)
  /\ cur (flush self s) = []
  /\ active_parent (flush self s) = active_parent s.
Proof.
  unfold flush. destruct (cur s) as [|b bs] eqn:Hcur.
  - rewrite Hcur. auto.
  - destruct (Z.leb_spec 1 (_tok_count self (PyStr.strip (joined_text (b :: bs)))));
      cbn; (split; [|done]).
    + right. eexists. split; [reflexivity|]. cbn. repeat split; done.
    + now left.
Qed.

Variable P : Chunk.t -> Prop.

Hypothesis P_flush :
  forall c,
    Chunk.token_count c = _tok_count self (Chunk.text c) ->
    Meta.merged_heading (Chunk.metadata c) = None ->
    Meta.tags (Chunk.metadata c) = [] ->
    Meta.quality_score (Chunk.metadata c) = None ->
    P c.

Hypothesis P_merge : forall prev c, P (merge_pair self prev c).

Hypothesis P_content : forall c c', same_content c c' -> P c' -> P c.

Lemma flush_Forall (s : asm) :
  Forall P (chunks s) -> Forall P (chunks (flush self s)).
Proof.
  intros H. destruct (flush_cases s) as [[[-> _]|(c & -> & Hc)] _]; [done|].
  apply Forall_app. split; [done|]. constructor; [|done].
  apply P_flush; tauto.
Qed.

Lemma enter_Forall (s : asm) (b : Block.t) :
  Forall P (chunks s) -> Forall P (chunks (enter self s b)).
Proof.
  intros H. unfold enter.
  destruct (is_parent_heading self b).
  - pose proof (flush_Forall s H). cbn.
    now destruct (Block.parent_section_path b).
  - now destruct (active_parent s).
Qed.

Lemma place_Forall (s : asm) (b : Block.t) :
  Forall P (chunks s) -> Forall P (chunks (place self s b)).
Proof.
  intros H. unfold place.
  destruct (cur_tokens s + Block.token_count b <=? max_tokens self); [done|].
  pose proof (flush_Forall s H) as H3.
  destruct (last (chunks (flush self s))); [|done].
  now destruct (_ && _).
Qed.

Lemma step_Forall (s : asm) (b : Block.t) :
  Forall P (chunks s) -> Forall P (chunks (step self s b)).
Proof. intros H. now apply place_Forall, enter_Forall. Qed.

Lemma assemble_Forall (blocks : list Block.t) : Forall P (assemble self blocks).
Proof.
  unfold assemble. apply flush_Forall.
  generalize (mk_asm [] [] 0 0 None) (List.Forall_nil P : Forall P (chunks (mk_asm [] [] 0 0 None))).
  induction blocks as [|b bs IH]; intros s Hs; cbn; [done|].
  apply IH. now apply step_Forall.
Qed.

Lemma merge_step_Forall (rev_merged : list Chunk.t) (c : Chunk.t) :
  Forall P rev_merged -> P c -> Forall P (merge_step self rev_merged c).
Proof.
  intros H Hc. unfold merge_step. destruct rev_merged as [|prev before].
  - now constructor.
  - destruct (_ && _).
    + inversion H; subst. constructor; [apply P_merge|done].
    + now constructor.
Qed.

Lemma merge_small_Forall (cs : list Chunk.t) :
  Forall P cs -> Forall P (merge_small self cs).
Proof.
  intros H. unfold merge_small. apply Forall_rev.
  generalize (@nil Chunk.t) (List.Forall_nil P).
  induction H as [|c cs Hc _ IH]; intros acc Hacc; cbn; [done|].
  apply IH. now apply merge_step_Forall.
Qed.

Lemma reindex_Forall (cs : list Chunk.t) : Forall P cs -> Forall P (reindex cs).
Proof.
  intros H. apply Forall_forall. intros c Hc.
  apply elem_of_reindex_from in Hc as (c' & Hin & Hsame).
  rewrite Forall_forall in H. eauto.
Qed.

Lemma chunk_blocks_Forall (blocks : list Block.t) :
  Forall P (chunk_blocks self blocks).
Proof.
  unfold chunk_blocks. apply reindex_Forall, merge_small_Forall, assemble_Forall.
Qed.

End ChunkerForall.

(** ** Sorting *)

Section SortFacts.
Context {A : Type} (before : A -> A -> bool).

Lemma insert_by_Permutation (x : A) (l : list A) :
  insert_by before x l ≡ₚ x :: l.
Proof.
  induction l as [|y r IH]; cbn; [done|].
  destruct (before y x); [|done].
  rewrite IH. apply Permutation_swap.
Qed.

Lemma sort_by_Permutation (l : list A) : sort_by before l ≡ₚ l.
Proof.
  induction l as [|x r IH]; cbn; [done|].
  rewrite insert_by_Permutation. now constructor.
Qed.

Lemma length_sort_by (l : list A) : length (sort_by before l) = length l.
Proof. apply Permutation_length, sort_by_Permutation. Qed.

Hypothesis before_neg_trans :
  forall x y z, before x y = false -> before y z = false -> before x z = false.
Hypothesis before_asym :
  forall x y, before x y = true -> before y x = false.

Lemma insert_by_sorted (x : A) (l : list A) :
  StronglySorted (ahead before) l -> StronglySorted (ahead before) (insert_by before x l).
Proof.
  induction 1 as [|y r Hr IH Hy]; cbn.
  - repeat constructor.
  - destruct (before y x) eqn:E.
    + constructor; [done|].
      rewrite insert_by_Permutation. constructor; [|done].
      unfold ahead. auto.
    + constructor; [now constructor|].
      constructor; [done|].
      eapply Forall_impl; [exact Hy|]. unfold ahead. intros z Hz. eauto.
Qed.

Lemma sort_by_sorted (l : list A) : StronglySorted (ahead before) (sort_by before l).
Proof.
  induction l as [|x r IH]; cbn; [constructor|]. now apply insert_by_sorted.
Qed.

End SortFacts.

(** ** The order of set iteration does not show *)

Section SetOrder.
Import ChunkFilter.

Lemma bump_comm (a b : string) (d : gmap string Z) :
  bump a 1 (bump b 1 d) = bump b 1 (bump a 1 d).
Proof.
  unfold bump. destruct (decide (a = b)) as [->|Hne]; [done|].
  rewrite !lookup_insert_ne by done. now apply insert_insert_ne.
Qed.

Lemma fold_bump_Permutation (l1 l2 : list string) :
  l1 ≡ₚ l2 ->
  forall d, fold_left (fun d t => bump t 1 d) l1 d
            = fold_left (fun d t => bump t 1 d) l2 d.
Proof.
  induction 1 as [|x l1 l2 _ IH|x y l|l1 l2 l3 _ IH1 _ IH2]; intros d; cbn.
  - done.
  - apply IH.
  - now rewrite bump_comm.
  - now rewrite IH1.
Qed.

Lemma set_iter_Permutation (h1 h2 : string -> Z) (l : list string) :
  set_iter h1 l ≡ₚ set_iter h2 l.
Proof. unfold set_iter. now rewrite !sort_by_Permutation. Qed.

Lemma tag_step_hash_irrelevant (h1 h2 : string -> Z) cfg s c :
  tag_step h1 cfg s c = tag_step h2 cfg s c.
Proof.
  unfold tag_step. destruct (drops _); [|done].
  f_equal. apply fold_bump_Permutation, set_iter_Permutation.
Qed.

Lemma tag_all_hash_irrelevant (h1 h2 : string -> Z) cfg cs :
  tag_all h1 cfg cs = tag_all h2 cfg cs.
Proof.
  unfold tag_all. generalize (mkTagging ∅ ∅ []).
  induction cs as [|c cs IH]; intros s; cbn; [done|].
  rewrite (tag_step_hash_irrelevant h1 h2). apply IH.
Qed.

Lemma filter_chunks_hash_irrelevant (h1 h2 : string -> Z) cs cfg :
  filter_chunks h1 cs cfg = filter_chunks h2 cs cfg.
Proof.
  unfold filter_chunks. now rewrite (tag_all_hash_irrelevant h1 h2).
Qed.

End SetOrder.

(** C8. With the character heuristic, the chunks (texts, token counts,
    order, indices, metadata) and the statistics that the pipeline returns
    for a Markdown text under given settings are the same in every process:
    normalisation, cleanup, chunking and filtering are functions of the
    text and the settings, and the one thing that varies between two runs,
    the order in which the tags of a dropped chunk are met in a set, does
    not reach the result. *)
Theorem pipeline_deterministic (hash1 hash2 : string -> Z)
    (settings : Ingest.Settings) (markdown : string) :
  Ingest.run hash1 None settings markdown = Ingest.run hash2 None settings markdown.
Proof.
  unfold Ingest.run. cbn.
  now rewrite (filter_chunks_hash_irrelevant hash1 hash2).
Qed.

(** ** Counting in a dictionary *)

Section Bump.
Import ChunkFilter.

Lemma fromkeys_spec {A} `{EqDecision A} (l seen : list A) :
  NoDup (fromkeys l seen)
  /\ forall x, x ∈ fromkeys l seen <-> x ∈ l /\ x ∉ seen.
Proof.
  revert seen; induction l as [|a l IH]; intros seen; cbn.
  - split; [constructor|]. intros x. rewrite elem_of_nil. tauto.
  - case_bool_decide as Ha.
    + destruct (IH seen) as [Hnd Hin]. split; [done|].
      intros x. rewrite Hin, elem_of_cons. split; [tauto|].
      intros [[->|Hx] Hn]; tauto.
    + destruct (IH (a :: seen)) as [Hnd Hin]. split.
      * constructor; [|done]. rewrite Hin, elem_of_cons. tauto.
      * intros x. rewrite elem_of_cons, Hin, !elem_of_cons.
        destruct (decide (x = a)) as [->|Hne]; tauto.
Qed.

Lemma fold_bump_other (k : string) (l : list string) (d : gmap string Z) :
  k ∉ l -> fold_left (fun d t => bump t 1 d) l d !! k = d !! k.
Proof.
  revert d; induction l as [|x l IH]; intros d Hk; cbn; [done|].
  rewrite elem_of_cons in Hk.
  rewrite IH by tauto. unfold bump. apply lookup_insert_ne. intros ->. tauto.
Qed.

Lemma fold_bump_once (k : string) (l : list string) (d : gmap string Z) :
  NoDup l -> k ∈ l ->
  fold_left (fun d t => bump t 1 d) l d !! k = Some (default 0 (d !! k) + 1).
Proof.
  intros Hnd; revert d; induction Hnd as [|x l Hx Hnd IH]; intros d Hk; cbn.
  - inversion Hk.
  - destruct (decide (k = x)) as [->|Hne].
    + rewrite fold_bump_other by done. unfold bump. apply lookup_insert_eq.
    + rewrite elem_of_cons in Hk. rewrite IH by tauto.
      unfold bump. now rewrite lookup_insert_ne by congruence.
Qed.

End Bump.

(** ** The tagging loop *)

Section Tagging.
Import ChunkFilter.

Variable str_hash : string -> Z.
Variable cfg : FilterConfig.

Lemma duplicate_tag_iff (seen : gset string) (c : Chunk.t) :
  "duplicate" ∈ chunk_tags cfg seen c <-> hash_of c ∈ seen.
Proof.
  unfold chunk_tags, hash_of.
  repeat match goal with
         | |- context [if ?b then _ else _] => destruct b eqn:?
         end;
    rewrite ?elem_of_app, ?elem_of_cons, ?elem_of_nil;
    try apply bool_decide_eq_true_1 in Heqb3;
    try apply bool_decide_eq_false_1 in Heqb3;
    intuition discriminate.
Qed.

Lemma drops_duplicate (tags : list string) :
  "duplicate" ∈ tags -> drops tags = true.
Proof.
  intros H. unfold drops, has_tag. now rewrite (bool_decide_eq_true_2 _ H).
Qed.

Lemma tag_step_dropped (s : tagging) (c : Chunk.t) :
  drops (chunk_tags cfg (seen_hashes s) c) = true ->
  kept (tag_step str_hash cfg s c) = kept s
  /\ seen_hashes (tag_step str_hash cfg s c) = seen_hashes s.
Proof. intros H. unfold tag_step. now rewrite H. Qed.

Lemma tag_step_kept (s : tagging) (c : Chunk.t) :
  drops (chunk_tags cfg (seen_hashes s) c) = false ->
  kept (tag_step str_hash cfg s c) = kept s ++ [kept_form cfg (seen_hashes s) c]
  /\ seen_hashes (tag_step str_hash cfg s c) = {[hash_of c]} ∪ seen_hashes s
  /\ t_dropped_by_tag (tag_step str_hash cfg s c) = t_dropped_by_tag s.
Proof. intros H. unfold tag_step. now rewrite H. Qed.

(** The loop only appends to [kept] and only adds to the set. *)
Lemma run_grows (cs : list Chunk.t) (s : tagging) :
  (exists more, kept (fold_left (tag_step str_hash cfg) cs s) = kept s ++ more)
  /\ seen_hashes s ⊆ seen_hashes (fold_left (tag_step str_hash cfg) cs s).
Proof.
  revert s; induction cs as [|c cs IH]; intros s; cbn.
  - split; [exists []; now rewrite app_nil_r|done].
  - destruct (IH (tag_step str_hash cfg s c)) as [[more Hm] Hs].
    destruct (drops (chunk_tags cfg (seen_hashes s) c)) eqn:E.
    + destruct (tag_step_dropped s c E) as [Hk Hseen].
      rewrite Hk in Hm. rewrite Hseen in Hs. eauto.
    + destruct (tag_step_kept s c E) as (Hk & Hseen & _).
      rewrite Hk in Hm. rewrite Hseen in Hs. split.
      * eexists. rewrite Hm, <- app_assoc. reflexivity.
      * etrans; [|exact Hs]. apply union_subseteq_r.
Qed.

Lemma hash_of_kept_form (seen : gset string) (c : Chunk.t) :
  hash_of (kept_form cfg seen c) = hash_of c.
Proof. reflexivity. Qed.

Lemma run_seen_is_kept (cs : list Chunk.t) (s : tagging) :
  seen_is_kept s -> seen_is_kept (fold_left (tag_step str_hash cfg) cs s).
Proof.
  revert s; induction cs as [|c cs IH]; intros s Hs; cbn; [done|].
  apply IH. intros x.
  destruct (drops (chunk_tags cfg (seen_hashes s) c)) eqn:E.
  - destruct (tag_step_dropped s c E) as [-> ->]. apply Hs.
  - destruct (tag_step_kept s c E) as (-> & -> & _).
    rewrite fmap_app, elem_of_app, elem_of_union, elem_of_singleton, (Hs x).
    rewrite list_fmap_singleton, list_elem_of_singleton, hash_of_kept_form.
    tauto.
Qed.

Lemma tag_all_seen_is_kept (cs : list Chunk.t) :
  seen_is_kept (tag_all str_hash cfg cs).
Proof.
  apply run_seen_is_kept. intros x. cbn. rewrite elem_of_nil.
  split; [apply not_elem_of_empty|tauto].
Qed.

(** The kept chunks have pairwise different hashes. *)
Lemma run_NoDup (cs : list Chunk.t) (s : tagging) :
  seen_is_kept s -> NoDup (hash_of <$> kept s) ->
  NoDup (hash_of <$> kept (fold_left (tag_step str_hash cfg) cs s)).
Proof.
  revert s; induction cs as [|c cs IH]; intros s Hs Hnd; cbn; [done|].
  assert (Hs' : seen_is_kept (tag_step str_hash cfg s c)).
  { apply (run_seen_is_kept [c] s Hs). }
  apply IH; [done|].
  destruct (drops (chunk_tags cfg (seen_hashes s) c)) eqn:E.
  - now destruct (tag_step_dropped s c E) as [-> _].
  - destruct (tag_step_kept s c E) as (-> & _ & _).
    rewrite fmap_app. apply NoDup_app. split; [done|]. split.
    + intros x Hx. cbn. rewrite elem_of_cons, elem_of_nil.
      intros [->|[]]. apply Hs in Hx.
      assert (Hd : "duplicate" ∈ chunk_tags cfg (seen_hashes s) c).
      { apply duplicate_tag_iff. exact Hx. }
      apply drops_duplicate in Hd. congruence.
    + cbn. apply NoDup_singleton.
Qed.

Lemma tag_all_NoDup (cs : list Chunk.t) :
  NoDup (hash_of <$> kept (tag_all str_hash cfg cs)).
Proof.
  apply run_NoDup; [|constructor].
  intros x. cbn. rewrite elem_of_nil.
  split; [apply not_elem_of_empty|tauto].
Qed.

(** A kept chunk is the kept form of a chunk of the input. *)
Lemma run_kept_origin (cs : list Chunk.t) (s : tagging) (x : Chunk.t) :
  x ∈ kept (fold_left (tag_step str_hash cfg) cs s) ->
  x ∈ kept s \/ exists c seen, c ∈ cs /\ x = kept_form cfg seen c.
Proof.
  revert s; induction cs as [|c cs IH]; intros s; cbn; [now left|].
  intros H. apply IH in H as [H|(c' & seen & Hin & ->)].
  - destruct (drops (chunk_tags cfg (seen_hashes s) c)) eqn:E.
    + destruct (tag_step_dropped s c E) as [Hk _]. rewrite Hk in H. now left.
    + destruct (tag_step_kept s c E) as (Hk & _ & _). rewrite Hk in H.
      rewrite elem_of_app, elem_of_cons, elem_of_nil in H.
      destruct H as [H|[->|[]]]; [now left|].
      right. exists c, (seen_hashes s). split; [left|done].
  - right. exists c', seen. split; [now right|done].
Qed.

End Tagging.

(** C6. Duplicate detection follows the order of the chunks. When two
    chunks have the same trimmed text and the earlier one is kept by the
    tagging loop, the earlier one stays among the kept chunks, the later
    one is tagged [duplicate] and dropped (the kept chunks and the set are
    left as they were, the [duplicate] count goes up by one), and no other
    kept chunk has that hash. A hash is in the set exactly when a kept
    chunk has it: a dropped chunk adds nothing to the set, and a chunk
    whose hash is not in the set is not tagged [duplicate]. *)
Theorem duplicate_detection_order (str_hash : string -> Z)
    (cfg : ChunkFilter.FilterConfig) (pre mid post : list Chunk.t)
    (c1 c2 : Chunk.t)
    (Htext : PyStr.strip (Chunk.text c1) = PyStr.strip (Chunk.text c2))
    (Hkept : ChunkFilter.drops
               (ChunkFilter.chunk_tags cfg
                  (ChunkFilter.seen_hashes (ChunkFilter.tag_all str_hash cfg pre))
                  c1) = false) :
  let s1 := ChunkFilter.tag_all str_hash cfg pre in
  let s2 := ChunkFilter.tag_all str_hash cfg (pre ++ c1 :: mid) in
  let s3 := ChunkFilter.tag_step str_hash cfg s2 c2 in
  let final := ChunkFilter.tag_all str_hash cfg (pre ++ c1 :: mid ++ c2 :: post) in
  kept_form cfg (ChunkFilter.seen_hashes s1) c1 ∈ ChunkFilter.kept final
  /\ "duplicate" ∈ ChunkFilter.chunk_tags cfg (ChunkFilter.seen_hashes s2) c2
  /\ ChunkFilter.kept s3 = ChunkFilter.kept s2
  /\ ChunkFilter.seen_hashes s3 = ChunkFilter.seen_hashes s2
  /\ ChunkFilter.t_dropped_by_tag s3 !! "duplicate"
     = Some (default 0 (ChunkFilter.t_dropped_by_tag s2 !! "duplicate") + 1)
  /\ (forall c, c ∈ ChunkFilter.kept final -> hash_of c = hash_of c2 ->
                c = kept_form cfg (ChunkFilter.seen_hashes s1) c1)
  /\ (forall cs, seen_is_kept (ChunkFilter.tag_all str_hash cfg cs))
  /\ (forall s c,
        ChunkFilter.drops
          (ChunkFilter.chunk_tags cfg (ChunkFilter.seen_hashes s) c) = true ->
        ChunkFilter.seen_hashes (ChunkFilter.tag_step str_hash cfg s c)
        = ChunkFilter.seen_hashes s)
  /\ (forall s c,
        hash_of c ∉ ChunkFilter.seen_hashes s ->
        "duplicate" ∉ ChunkFilter.chunk_tags cfg (ChunkFilter.seen_hashes s) c).
Proof.
  intros s1 s2 s3 final.
  assert (Hh : hash_of c1 = hash_of c2) by (unfold hash_of; now rewrite Htext).
  (* the first occurrence enters [kept] and the set *)
  assert (H2 : kept_form cfg (ChunkFilter.seen_hashes s1) c1 ∈ ChunkFilter.kept s2
               /\ hash_of c1 ∈ ChunkFilter.seen_hashes s2).
  { subst s2. unfold ChunkFilter.tag_all.
    rewrite fold_left_app. cbn [fold_left].
    fold (ChunkFilter.tag_all str_hash cfg pre). fold s1.
    destruct (tag_step_kept str_hash cfg s1 c1 Hkept) as (Hk & Hs & _).
    destruct (run_grows str_hash cfg mid (ChunkFilter.tag_step str_hash cfg s1 c1))
      as [[more Hm] Hsub].
    split.
    - rewrite Hm, Hk, !elem_of_app, list_elem_of_singleton. tauto.
    - apply Hsub. rewrite Hs. apply elem_of_union_l, elem_of_singleton. done. }
  destruct H2 as [Hin2 Hseen2].
  assert (Hdup : "duplicate"
                 ∈ ChunkFilter.chunk_tags cfg (ChunkFilter.seen_hashes s2) c2).
  { apply duplicate_tag_iff. now rewrite <- Hh. }
  pose proof (drops_duplicate _ Hdup) as Hdrop.
  destruct (tag_step_dropped str_hash cfg s2 c2 Hdrop) as [Hk3 Hs3].
  assert (Hfinal : kept_form cfg (ChunkFilter.seen_hashes s1) c1
                   ∈ ChunkFilter.kept final).
  { subst final. unfold ChunkFilter.tag_all.
    replace (pre ++ c1 :: mid ++ c2 :: post)
      with ((pre ++ c1 :: mid) ++ c2 :: post) by now rewrite <- app_assoc.
    rewrite fold_left_app. fold (ChunkFilter.tag_all str_hash cfg (pre ++ c1 :: mid)).
    fold s2. cbn [fold_left].
    destruct (run_grows str_hash cfg post (ChunkFilter.tag_step str_hash cfg s2 c2))
      as [[more Hm] _].
    rewrite Hm, Hk3, elem_of_app. now left. }
  split; [exact Hfinal|]. split; [exact Hdup|]. split; [exact Hk3|].
  split; [exact Hs3|]. split; [|split; [|split; [|split]]].
  - subst s3. unfold ChunkFilter.tag_step. rewrite Hdrop.
    cbn [ChunkFilter.t_dropped_by_tag]. unfold set_iter.
    rewrite (fold_bump_Permutation _ (fromkeys (ChunkFilter.chunk_tags cfg
               (ChunkFilter.seen_hashes s2) c2) []))
      by apply sort_by_Permutation.
    pose proof (fromkeys_spec (ChunkFilter.chunk_tags cfg
                  (ChunkFilter.seen_hashes s2) c2) []) as [Hnd Hin].
    apply fold_bump_once; [exact Hnd|].
    apply Hin. split; [done|]. intros H; inversion H.
  - intros c Hc Hhc.
    pose proof (tag_all_NoDup str_hash cfg (pre ++ c1 :: mid ++ c2 :: post)) as Hnd.
    fold final in Hnd.
    apply list_elem_of_lookup in Hc as [i Hi].
    apply list_elem_of_lookup in Hfinal as [j Hj].
    assert (i = j); [|congruence].
    eapply NoDup_lookup; [exact Hnd| |].
    + rewrite list_lookup_fmap, Hi. reflexivity.
    + rewrite list_lookup_fmap, Hj.
      change (Some (hash_of c1) = Some (hash_of c)). congruence.
  - apply tag_all_seen_is_kept.
  - intros s c H. now apply tag_step_dropped.
  - intros s c H. now rewrite duplicate_tag_iff.
Qed.

Lemma duplicate_detection_order_witness :
  "duplicate"
  ∈ ChunkFilter.chunk_tags ChunkFilter.default_config
      (ChunkFilter.seen_hashes
         (ChunkFilter.tag_all Samples.hash_zero ChunkFilter.default_config
            [SampleChunks.alpha]))
      SampleChunks.alpha_padded.
Proof.
  apply (duplicate_detection_order Samples.hash_zero ChunkFilter.default_config
           [] [] [] SampleChunks.alpha SampleChunks.alpha_padded);
    vm_compute; reflexivity.
Defined.

(** The first of two equal texts is dropped as front matter: the second is
    then kept, and is not tagged [duplicate]. *)
Example dropped_first_occurrence_does_not_block :
  map (fun c => (Chunk.text c, Meta.tags (Chunk.metadata c)))
      (ChunkFilter.kept
         (ChunkFilter.tag_all Samples.hash_zero ChunkFilter.default_config
            [SampleChunks.alpha_foreword; SampleChunks.alpha_padded]))
  = [("  alpha beta gamma ", ["low_signal"])].
Proof. vm_compute. reflexivity. Qed.

(** ** Grouping by parent section *)

Section Grouping.
Import ChunkFilter.

Lemma fromkeys_snoc {A} `{EqDecision A} (l : list A) (x : A) (seen : list A) :
  fromkeys (l ++ [x]) seen
  = fromkeys l seen ++ (if bool_decide (x ∈ l ++ seen) then [] else [x]).
Proof.
  revert seen; induction l as [|a l IH]; intros seen; cbn.
  - case_bool_decide; [done|]. reflexivity.
  - case_bool_decide as Ha.
    + rewrite IH. f_equal.
      destruct (decide (x ∈ l ++ seen)) as [Hx|Hx].
      * rewrite !bool_decide_eq_true_2; [done|now right|done].
      * rewrite !bool_decide_eq_false_2; [done| |done].
        rewrite elem_of_cons. intros [->|?]; [|done].
        apply Hx, elem_of_app. now right.
    + rewrite IH. cbn. do 2 f_equal.
      destruct (decide (x ∈ l ++ a :: seen)) as [Hx|Hx].
      * rewrite !bool_decide_eq_true_2; [done| |done].
        rewrite elem_of_app, elem_of_cons in Hx.
        rewrite elem_of_cons, elem_of_app. tauto.
      * rewrite !bool_decide_eq_false_2; [done| |done].
        rewrite elem_of_app, elem_of_cons in Hx.
        rewrite elem_of_cons, elem_of_app. intros [->|?]; tauto.
Qed.

Lemma group_add_keys (q : string) (c : Chunk.t)
    (F : string -> list Chunk.t) (keys : list string) :
  NoDup keys ->
  group_add q c (map (fun p => (p, F p)) keys)
  = map (fun p => (p, F p ++ if String.eqb p q then [c] else [])) keys
    ++ (if bool_decide (q ∈ keys) then [] else [(q, [c])]).
Proof.
  induction 1 as [|k keys Hk Hnd IH]; cbn; [done|].
  destruct (String.eqb_spec k q) as [->|Hne].
  - rewrite bool_decide_eq_true_2 by left. rewrite app_nil_r.
    f_equal. apply map_ext_in. intros p Hp.
    destruct (String.eqb_spec p q) as [->|_].
    + apply list_elem_of_In in Hp. contradiction.
    + now rewrite app_nil_r.
  - rewrite IH. cbn. rewrite app_nil_r. do 2 f_equal.
    destruct (decide (q ∈ keys)) as [Hq|Hq].
    + rewrite !bool_decide_eq_true_2; [done|now right|done].
    + rewrite !bool_decide_eq_false_2; [done| |done].
      rewrite elem_of_cons. intros [->|?]; tauto.
Qed.

Lemma filter_has_parent_none (q : string) (ks : list Chunk.t) :
  q ∉ map parent_key ks -> List.filter (has_parent q) ks = [].
Proof.
  induction ks as [|c ks IH]; [done|].
  cbn [List.filter map]. rewrite elem_of_cons. intros Hq.
  unfold has_parent at 1.
  destruct (String.eqb_spec (parent_key c) q) as [Heq|_].
  - exfalso. apply Hq. now left.
  - apply IH. tauto.
Qed.

Lemma group_add_groups_of (ks : list Chunk.t) (c : Chunk.t) :
  group_add (parent_key c) c (groups_of ks) = groups_of (ks ++ [c]).
Proof.
  unfold groups_of.
  rewrite group_add_keys by apply fromkeys_spec.
  rewrite map_app. cbn [map]. rewrite fromkeys_snoc, map_app, app_nil_r.
  f_equal.
  - apply map_ext. intros p. rewrite List.filter_app. cbn.
    unfold has_parent at 3. rewrite String.eqb_sym. reflexivity.
  - pose proof (fromkeys_spec (map parent_key ks) []) as [_ Hin].
    destruct (decide (parent_key c ∈ map parent_key ks)) as [Hq|Hq].
    + rewrite !bool_decide_eq_true_2; [done|done|].
      apply Hin. split; [done|]. intros Hx; inversion Hx.
    + rewrite !bool_decide_eq_false_2; [|done|].
      * cbn. rewrite List.filter_app, filter_has_parent_none by done. cbn.
        unfold has_parent. now rewrite String.eqb_refl.
      * intros Hx. apply Hin in Hx. tauto.
Qed.

Lemma group_by_parent_groups_of (ks : list Chunk.t) :
  group_by_parent ks = groups_of ks.
Proof.
  unfold group_by_parent.
  change (@nil (string * list Chunk.t)) with (groups_of []).
  rewrite <- (app_nil_l ks) at 2. generalize (@nil Chunk.t).
  induction ks as [|c ks IH]; intros pre; cbn; [now rewrite app_nil_r|].
  rewrite group_add_groups_of, IH, <- app_assoc. reflexivity.
Qed.

End Grouping.

(** ** The caps *)

Section Caps.
Import ChunkFilter.

Lemma bumped_refl (k : string) (d : gmap string Z) : bumped k 0 d d.
Proof. split; [done|lia]. Qed.

Lemma bumped_bump (k : string) (n : Z) (d : gmap string Z) :
  bumped k n d (bump k n d).
Proof.
  unfold bump. split.
  - intros k' Hk'. now rewrite lookup_insert_ne.
  - now rewrite lookup_insert_eq.
Qed.

Lemma bumped_trans (k : string) (n m : Z) (d d' d'' : gmap string Z) :
  bumped k n d d' -> bumped k m d' d'' -> bumped k (n + m) d d''.
Proof.
  intros [H1 H2] [H3 H4]. split.
  - intros k' Hk'. now rewrite H3, H1.
  - lia.
Qed.

Variable cfg : FilterConfig.

(** The loop over one group: the chunks that pass are appended, the others
    counted. *)
Lemma cap_loop (P : Chunk.t -> bool) (g capped : list Chunk.t)
    (d : gmap string Z) :
  exists d',
    fold_left
      (fun (acc : list Chunk.t * gmap string Z) c =>
         if P c then (fst acc ++ [c], snd acc)
         else (fst acc, bump "cap_parent" 1 (snd acc)))
      g (capped, d)
    = (capped ++ List.filter P g, d')
    /\ bumped "cap_parent"
         (Z.of_nat (length g) - Z.of_nat (length (List.filter P g))) d d'.
Proof.
  revert capped d; induction g as [|c g IH]; intros capped d; cbn [fold_left].
  - exists d. cbn. rewrite app_nil_r. split; [done|apply bumped_refl].
  - cbn [List.filter fst snd]. destruct (P c).
    + destruct (IH (capped ++ [c]) d) as (d' & -> & Hd').
      exists d'. rewrite <- app_assoc. split; [done|].
      cbn [length]. replace (Z.of_nat (S (length g)) - Z.of_nat (S (length (List.filter P g))))
        with (Z.of_nat (length g) - Z.of_nat (length (List.filter P g))) by lia.
      exact Hd'.
    + destruct (IH capped (bump "cap_parent" 1 d)) as (d' & -> & Hd').
      exists d'. split; [done|].
      cbn [length].
      replace (Z.of_nat (S (length g)) - Z.of_nat (length (List.filter P g)))
        with (1 + (Z.of_nat (length g) - Z.of_nat (length (List.filter P g))))
        by lia.
      eapply bumped_trans; [apply bumped_bump|exact Hd'].
Qed.

Lemma cap_group_spec (g capped : list Chunk.t) (d : gmap string Z) :
  exists d',
    cap_group cfg (capped, d) g = (capped ++ cap_one cfg g, d')
    /\ bumped "cap_parent"
         (Z.of_nat (length g) - Z.of_nat (length (cap_one cfg g))) d d'.
Proof.
  unfold cap_group, cap_one.
  destruct (Z.of_nat (length g) <=? max_chunks_per_parent cfg).
  - exists d. split; [done|]. rewrite Z.sub_diag. apply bumped_refl.
  - apply cap_loop.
Qed.

Lemma cap_groups_spec (gs : list (list Chunk.t)) (capped : list Chunk.t)
    (d : gmap string Z) :
  exists d',
    fold_left (cap_group cfg) gs (capped, d)
    = (capped ++ concat (map (cap_one cfg) gs), d')
    /\ bumped "cap_parent"
         (Z.of_nat (length (concat gs))
          - Z.of_nat (length (concat (map (cap_one cfg) gs)))) d d'.
Proof.
  revert capped d; induction gs as [|g gs IH]; intros capped d;
    cbn [fold_left map concat].
  - exists d. rewrite app_nil_r. split; [done|apply bumped_refl].
  - destruct (cap_group_spec g capped d) as (d1 & -> & H1).
    destruct (IH (capped ++ cap_one cfg g) d1) as (d2 & -> & H2).
    exists d2. rewrite <- app_assoc. split; [done|].
    rewrite !length_app.
    replace (Z.of_nat (length g + length (concat gs))
             - Z.of_nat (length (cap_one cfg g)
                         + length (concat (map (cap_one cfg) gs))))
      with ((Z.of_nat (length g) - Z.of_nat (length (cap_one cfg g)))
            + (Z.of_nat (length (concat gs))
               - Z.of_nat (length (concat (map (cap_one cfg) gs))))) by lia.
    eapply bumped_trans; eassumption.
Qed.

Lemma cap_one_subset (g : list Chunk.t) (c : Chunk.t) :
  c ∈ cap_one cfg g -> c ∈ g.
Proof.
  unfold cap_one. destruct (_ <=? _); [done|].
  rewrite !list_elem_of_In, filter_In. tauto.
Qed.

Lemma cap_one_nil : cap_one cfg [] = [].
Proof. unfold cap_one. now destruct (_ <=? _). Qed.

End Caps.

(** ** Lists *)

Section ListFacts.
Context {A : Type}.

Lemma filter_all_true (f : A -> bool) (l : list A) :
  (forall x, x ∈ l -> f x = true) -> List.filter f l = l.
Proof.
  induction l as [|x l IH]; intros H; cbn; [done|].
  rewrite (H x) by left. f_equal. apply IH. intros y Hy. apply H. now right.
Qed.

Lemma filter_all_false (f : A -> bool) (l : list A) :
  (forall x, x ∈ l -> f x = false) -> List.filter f l = [].
Proof.
  induction l as [|x l IH]; intros H; cbn; [done|].
  rewrite (H x) by left. apply IH. intros y Hy. apply H. now right.
Qed.

Lemma elem_of_filter_bool (f : A -> bool) (l : list A) (x : A) :
  x ∈ List.filter f l <-> x ∈ l /\ f x = true.
Proof. rewrite !list_elem_of_In. apply filter_In. Qed.

Lemma NoDup_filter_bool (f : A -> bool) (l : list A) :
  NoDup l -> NoDup (List.filter f l).
Proof.
  induction 1 as [|x l Hx Hl IH]; cbn; [constructor|].
  destruct (f x); [|done]. constructor; [|done].
  rewrite elem_of_filter_bool. tauto.
Qed.

Lemma fmap_inj_on {B} (f : A -> B) (l : list A) (x y : A) :
  NoDup (f <$> l) -> x ∈ l -> y ∈ l -> f x = f y -> x = y.
Proof.
  intros Hnd Hx Hy Hf.
  apply list_elem_of_lookup in Hx as [i Hi].
  apply list_elem_of_lookup in Hy as [j Hj].
  assert (i = j); [|congruence].
  eapply NoDup_lookup; [exact Hnd| |];
    rewrite list_lookup_fmap; [rewrite Hi|rewrite Hj]; cbn; [done|].
  now rewrite Hf.
Qed.

End ListFacts.

(** ** The order of the caps *)

Section SortKey.
Import ChunkFilter.

Lemma key_gt_neg_trans (a b c : Z * Z) :
  key_gt a b = false -> key_gt b c = false -> key_gt a c = false.
Proof.
  unfold key_gt.
  rewrite !orb_false_iff, !andb_false_iff, !Z.ltb_ge, !Z.eqb_neq. lia.
Qed.

Lemma key_gt_asym (a b : Z * Z) : key_gt a b = true -> key_gt b a = false.
Proof.
  unfold key_gt.
  rewrite !orb_true_iff, !andb_true_iff, !Z.ltb_lt, !Z.eqb_eq,
    !orb_false_iff, !andb_false_iff, !Z.ltb_ge, !Z.eqb_neq. lia.
Qed.

Lemma sorted_desc_Permutation (l : list Chunk.t) : sorted_desc l ≡ₚ l.
Proof. apply sort_by_Permutation. Qed.

(** In [sorted_desc l] no chunk has a greater key than one before it. *)
Lemma sorted_desc_sorted (l : list Chunk.t) :
  StronglySorted (fun x y => key_gt (sort_key y) (sort_key x) = false)
                 (sorted_desc l).
Proof.
  apply (sort_by_sorted (fun y x => key_gt (sort_key y) (sort_key x))).
  - intros x y z. apply key_gt_neg_trans.
  - intros x y. apply key_gt_asym.
Qed.

Lemma list_slice_to_take {A} (n : Z) (l : list A) :
  0 <= n -> list_slice_to n l = take (Z.to_nat n) l.
Proof.
  intros Hn. unfold list_slice_to, PyStr.slice_bound.
  destruct (Z.ltb_spec n 0); [lia|].
  destruct (Z.le_ge_cases n (Z.of_nat (length l))).
  - now rewrite Z.min_l.
  - rewrite Z.min_r, Nat2Z.id by done.
    rewrite !firstn_all2; [done|lia..].
Qed.

Variable cfg : FilterConfig.

(** When a group is over the cap, the chunks let through are the first
    [max_chunks_per_parent] of the sorted group. *)
Lemma cap_one_top (g : list Chunk.t) :
  NoDup (hash_of <$> g) ->
  0 <= max_chunks_per_parent cfg ->
  max_chunks_per_parent cfg < Z.of_nat (length g) ->
  cap_one cfg g ≡ₚ take (Z.to_nat (max_chunks_per_parent cfg)) (sorted_desc g)
  /\ Z.of_nat (length (cap_one cfg g)) = max_chunks_per_parent cfg
  /\ (forall x y, x ∈ cap_one cfg g -> y ∈ g -> y ∉ cap_one cfg g ->
                  key_gt (sort_key y) (sort_key x) = false).
Proof.
  intros Hnd HN Hbig.
  set (n := Z.to_nat (max_chunks_per_parent cfg)).
  assert (Hin : forall c, c ∈ cap_one cfg g <-> c ∈ take n (sorted_desc g)).
  { intros c. unfold cap_one.
    destruct (Z.leb_spec (Z.of_nat (length g)) (max_chunks_per_parent cfg)); [lia|].
    rewrite elem_of_filter_bool, bool_decide_eq_true, elem_of_list_to_set.
    rewrite list_slice_to_take by done. fold n.
    change (map hash_of ?l) with (hash_of <$> l).
    rewrite list_elem_of_fmap. split.
    - intros (Hc & t & Hh & Ht).
      assert (Htg : t ∈ g).
      { rewrite <- (sorted_desc_Permutation g).
        eapply elem_of_sublist; [exact Ht|apply sublist_take]. }
      now rewrite (fmap_inj_on hash_of g c t Hnd Hc Htg Hh).
    - intros Hc. split; [|eauto].
      rewrite <- (sorted_desc_Permutation g).
      eapply elem_of_sublist; [exact Hc|apply sublist_take]. }
  assert (Hperm : cap_one cfg g ≡ₚ take n (sorted_desc g)).
  { apply NoDup_Permutation; [| |exact Hin].
    - unfold cap_one. destruct (_ <=? _); [now apply NoDup_fmap_1 in Hnd|].
      apply NoDup_filter_bool. now apply NoDup_fmap_1 in Hnd.
    - eapply sublist_NoDup; [|apply sublist_take].
      rewrite sorted_desc_Permutation. now apply NoDup_fmap_1 in Hnd. }
  split; [exact Hperm|]. split.
  - rewrite Hperm, length_take. unfold sorted_desc. rewrite length_sort_by. lia.
  - intros x y Hx Hy Hny. rewrite Hin in Hx, Hny.
    rewrite <- (sorted_desc_Permutation g) in Hy.
    rewrite <- (take_drop n (sorted_desc g)), elem_of_app in Hy.
    destruct Hy as [Hy|Hy]; [contradiction|].
    pose proof (sorted_desc_sorted g) as Hs.
    rewrite <- (take_drop n (sorted_desc g)) in Hs.
    exact (StronglySorted_app_1_elem_of _ _ _ _ _ Hs Hx Hy).
Qed.

End SortKey.

Section CapParents.
Import ChunkFilter.

Variable cfg : FilterConfig.

Lemma length_filter_keys (ks : list Chunk.t) (k : string) (keys : list string) :
  k ∉ keys ->
  (length (List.filter (has_parent k) ks)
   + length (List.filter (fun c => bool_decide (parent_key c ∈ keys)) ks)
   = length (List.filter (fun c => bool_decide (parent_key c ∈ k :: keys)) ks))%nat.
Proof.
  intros Hk. induction ks as [|c ks IH]; [done|].
  cbn [List.filter]. unfold has_parent at 1.
  destruct (String.eqb_spec (parent_key c) k) as [Heq|Hne].
  - rewrite (bool_decide_eq_false_2 (parent_key c ∈ keys)) by now rewrite Heq.
    rewrite (bool_decide_eq_true_2 (parent_key c ∈ k :: keys))
      by (rewrite Heq; left).
    cbn [length]. lia.
  - destruct (decide (parent_key c ∈ keys)) as [Hin|Hin].
    + rewrite !bool_decide_eq_true_2; [|now right|done]. cbn [length]. lia.
    + rewrite !bool_decide_eq_false_2; [done| |done].
      rewrite elem_of_cons. tauto.
Qed.

Lemma length_groups (ks : list Chunk.t) (keys : list string) :
  NoDup keys ->
  length (concat (map (fun p => List.filter (has_parent p) ks) keys))
  = length (List.filter (fun c => bool_decide (parent_key c ∈ keys)) ks).
Proof.
  induction 1 as [|k keys Hk Hnd IH]; cbn [map concat].
  - symmetry. rewrite filter_all_false; [done|].
    intros c _. apply bool_decide_eq_false_2. intros H; inversion H.
  - rewrite length_app, IH. now apply length_filter_keys.
Qed.

Lemma length_groups_of (ks : list Chunk.t) :
  length (concat (map snd (groups_of ks))) = length ks.
Proof.
  unfold groups_of. rewrite map_map. cbn [snd].
  rewrite length_groups by apply fromkeys_spec.
  rewrite filter_all_true; [done|].
  intros c Hc. apply bool_decide_eq_true_2. apply fromkeys_spec.
  split; [|intros H; inversion H].
  change (map parent_key ks) with (parent_key <$> ks).
  now apply list_elem_of_fmap_2.
Qed.

(** The chunks under one parent key after the cap are the chunks of its
    group that the cap lets through. *)
Lemma filter_capped (p : string) (ks : list Chunk.t) (keys : list string) :
  NoDup keys ->
  List.filter (has_parent p)
    (concat (map (fun q => cap_one cfg (List.filter (has_parent q) ks)) keys))
  = if bool_decide (p ∈ keys)
    then cap_one cfg (List.filter (has_parent p) ks) else [].
Proof.
  assert (Hgroup : forall q c,
             c ∈ cap_one cfg (List.filter (has_parent q) ks) ->
             parent_key c = q).
  { intros q c Hc. apply cap_one_subset, elem_of_filter_bool in Hc as [_ Hc].
    now apply String.eqb_eq in Hc. }
  induction 1 as [|k keys Hk Hnd IH]; cbn [map concat]; [done|].
  rewrite List.filter_app, IH.
  destruct (decide (k = p)) as [->|Hne].
  - rewrite (bool_decide_eq_true_2 (p ∈ p :: keys)) by left.
    rewrite (bool_decide_eq_false_2 (p ∈ keys)) by done. rewrite app_nil_r.
    apply filter_all_true. intros c Hc. apply String.eqb_eq. eauto.
  - rewrite filter_all_false.
    + cbn. destruct (decide (p ∈ keys)) as [Hin|Hin].
      * rewrite !bool_decide_eq_true_2; [done|now right|done].
      * rewrite !bool_decide_eq_false_2; [done| |done].
        rewrite elem_of_cons. intros [->|?]; tauto.
    + intros c Hc. apply String.eqb_neq. rewrite (Hgroup _ _ Hc). done.
Qed.

Lemma cap_parents_spec (ks : list Chunk.t) (d : gmap string Z) :
  exists d',
    cap_parents cfg ks d
    = (concat (map (cap_one cfg) (map snd (groups_of ks))), d')
    /\ bumped "cap_parent"
         (Z.of_nat (length ks)
          - Z.of_nat (length (concat (map (cap_one cfg) (map snd (groups_of ks))))))
         d d'.
Proof.
  unfold cap_parents. rewrite group_by_parent_groups_of.
  destruct (cap_groups_spec cfg (map snd (groups_of ks)) [] d) as (d' & -> & Hd).
  exists d'. split; [done|]. now rewrite length_groups_of in Hd.
Qed.

Lemma cap_parents_by_parent (ks : list Chunk.t) (d : gmap string Z) (p : string) :
  List.filter (has_parent p) (fst (cap_parents cfg ks d))
  = cap_one cfg (List.filter (has_parent p) ks).
Proof.
  destruct (cap_parents_spec ks d) as (d' & -> & _). cbn [fst].
  unfold groups_of. rewrite !map_map. cbn [snd].
  rewrite filter_capped by apply fromkeys_spec.
  case_bool_decide as Hp; [done|].
  rewrite filter_has_parent_none; [now rewrite cap_one_nil|].
  intros Hin. apply Hp. apply fromkeys_spec. split; [done|].
  intros H; inversion H.
Qed.

Lemma cap_parents_subset (ks : list Chunk.t) (d : gmap string Z) (c : Chunk.t) :
  c ∈ fst (cap_parents cfg ks d) -> c ∈ ks.
Proof.
  intros Hc.
  assert (Hp : c ∈ List.filter (has_parent (parent_key c))
                      (fst (cap_parents cfg ks d))).
  { apply elem_of_filter_bool. split; [done|]. apply String.eqb_refl. }
  rewrite cap_parents_by_parent in Hp.
  apply cap_one_subset, elem_of_filter_bool in Hp. tauto.
Qed.

Lemma cap_doc_subset (capped : list Chunk.t) (d : gmap string Z) (c : Chunk.t) :
  c ∈ fst (cap_doc cfg (capped, d)) -> c ∈ capped.
Proof.
  unfold cap_doc. destruct (_ <? _); [|done]. cbn [fst].
  unfold list_slice_to. intros Hc.
  rewrite <- (sorted_desc_Permutation capped).
  eapply elem_of_sublist; [exact Hc|apply sublist_take].
Qed.

End CapParents.

Section TagKeys.
Import ChunkFilter.

Variable str_hash : string -> Z.
Variable cfg : FilterConfig.

Lemma chunk_tags_loop_tags (seen : gset string) (c : Chunk.t) (t : string) :
  t ∈ chunk_tags cfg seen c -> t ∈ loop_tags.
Proof.
  unfold chunk_tags, loop_tags.
  repeat match goal with
         | |- context [if ?b then _ else _] => destruct b
         end;
    rewrite ?elem_of_app, ?elem_of_cons, ?elem_of_nil; tauto.
Qed.

Lemma tag_step_other_key (s : tagging) (c : Chunk.t) (k : string) :
  k ∉ loop_tags ->
  t_dropped_by_tag (tag_step str_hash cfg s c) !! k = t_dropped_by_tag s !! k.
Proof.
  intros Hk. unfold tag_step. destruct (drops _); [|done].
  cbn [t_dropped_by_tag]. apply fold_bump_other.
  unfold set_iter. rewrite sort_by_Permutation.
  intros Hin. apply fromkeys_spec in Hin as [Hin _].
  apply Hk. eapply chunk_tags_loop_tags, Hin.
Qed.

Lemma tag_all_other_key (cs : list Chunk.t) (k : string) :
  k ∉ loop_tags -> t_dropped_by_tag (tag_all str_hash cfg cs) !! k = None.
Proof.
  intros Hk. unfold tag_all.
  enough (H : forall s, t_dropped_by_tag
                          (fold_left (tag_step str_hash cfg) cs s) !! k
                        = t_dropped_by_tag s !! k) by now rewrite H.
  induction cs as [|c cs IH]; intros s; cbn [fold_left]; [done|].
  now rewrite IH, tag_step_other_key.
Qed.

Lemma NoDup_fmap_filter {A B} (f : A -> B) (g : A -> bool) (l : list A) :
  NoDup (f <$> l) -> NoDup (f <$> List.filter g l).
Proof.
  induction l as [|x l IH]; cbn; [done|].
  rewrite NoDup_cons. intros [Hx Hl]. destruct (g x); [|auto].
  cbn. apply NoDup_cons. split; [|auto].
  rewrite list_elem_of_fmap in *. intros (y & Hy & Hin).
  apply Hx. exists y. split; [done|].
  apply elem_of_filter_bool in Hin. tauto.
Qed.

(** Under a key that is not empty lie the chunks of that parent path; the
    chunks with an empty path or none lie under the empty key. *)
Lemma has_parent_path (p : string) (c : Chunk.t) :
  p <> EmptyString ->
  has_parent p c = true
  <-> Meta.parent_section_path (Chunk.metadata c) = Some p.
Proof.
  intros Hp. unfold has_parent, parent_key.
  destruct (Meta.parent_section_path (Chunk.metadata c)) as [[|a r]|];
    cbn [str_or or_empty PyStr.truthy]; rewrite String.eqb_eq.
  - split; [congruence|intros [= <-]; done].
  - split; [now intros ->|now intros [= <-]].
  - split; [congruence|discriminate].
Qed.

End TagKeys.

(** C7. After the tagging loop, with caps that are not negative: the
    surviving chunks are grouped under their parent section path (the
    chunks with an empty path or none under the empty key); for each
    parent section, a group within [max_chunks_per_parent] passes whole,
    and of a larger group exactly the first [max_chunks_per_parent] chunks
    of the group sorted by quality score, then token count, both
    descending, pass: no chunk left out outranks one that passes. The
    [cap_parent] count is the number of chunks left out. Then, when more
    than [max_chunks_per_doc] chunks remain, the first [max_chunks_per_doc]
    of them in the same sort order are returned and the others counted
    under [cap_doc]. The chunks returned are indexed 0, 1, 2, ... *)
Theorem capping_keeps_the_best (str_hash : string -> Z)
    (chunks : list Chunk.t) (cfg : ChunkFilter.FilterConfig)
    (Hen : ChunkFilter.enabled cfg = true)
    (HNp : 0 <= ChunkFilter.max_chunks_per_parent cfg)
    (HNd : 0 <= ChunkFilter.max_chunks_per_doc cfg) :
  let Np := ChunkFilter.max_chunks_per_parent cfg in
  let Nd := ChunkFilter.max_chunks_per_doc cfg in
  let s := ChunkFilter.tag_all str_hash cfg
             (ChunkFilter._merge_heading_with_next chunks) in
  let survivors := ChunkFilter.kept s in
  let pc := ChunkFilter.cap_parents cfg survivors (ChunkFilter.t_dropped_by_tag s) in
  let r := ChunkFilter.filter_chunks str_hash chunks cfg in
  (forall p,
      let g := List.filter (has_parent p) survivors in
      let g' := List.filter (has_parent p) (fst pc) in
      (Z.of_nat (length g) <= Np -> g' = g)
      /\ (Np < Z.of_nat (length g) ->
          g' ≡ₚ take (Z.to_nat Np) (ChunkFilter.sorted_desc g)
          /\ Z.of_nat (length g') = Np
          /\ forall x y, x ∈ g' -> y ∈ g -> y ∉ g' ->
               ChunkFilter.key_gt (ChunkFilter.sort_key y)
                                  (ChunkFilter.sort_key x) = false))
  /\ (forall p c, p <> EmptyString ->
        has_parent p c = true
        <-> Meta.parent_section_path (Chunk.metadata c) = Some p)
  /\ default 0 (snd pc !! "cap_parent")
     = Z.of_nat (length survivors) - Z.of_nat (length (fst pc))
  /\ (Z.of_nat (length (fst pc)) <= Nd ->
      fst r = reindex (fst pc)
      /\ ChunkFilter.dropped_by_tag (snd r) = snd pc)
  /\ (Nd < Z.of_nat (length (fst pc)) ->
      fst r = reindex (take (Z.to_nat Nd) (ChunkFilter.sorted_desc (fst pc)))
      /\ Z.of_nat (length (fst r)) = Nd
      /\ default 0 (ChunkFilter.dropped_by_tag (snd r) !! "cap_doc")
         = Z.of_nat (length (fst pc)) - Nd
      /\ default 0 (ChunkFilter.dropped_by_tag (snd r) !! "cap_parent")
         = default 0 (snd pc !! "cap_parent"))
  /\ (forall l,
        ChunkFilter.sorted_desc l ≡ₚ l
        /\ StronglySorted
             (fun x y => ChunkFilter.key_gt (ChunkFilter.sort_key y)
                                            (ChunkFilter.sort_key x) = false)
             (ChunkFilter.sorted_desc l))
  /\ (forall k c, fst r !! k = Some c -> Chunk.index c = Z.of_nat k).
Proof.
  intros Np Nd s survivors pc r.
  assert (Hr : r = (reindex (fst (ChunkFilter.cap_doc cfg pc)),
                    ChunkFilter.mkFilterStats
                      (Z.of_nat (length (ChunkFilter._merge_heading_with_next chunks)))
                      (Z.of_nat (length (reindex (fst (ChunkFilter.cap_doc cfg pc)))))
                      (Z.of_nat (length (ChunkFilter._merge_heading_with_next chunks))
                       - Z.of_nat (length (reindex (fst (ChunkFilter.cap_doc cfg pc)))))
                      (snd (ChunkFilter.cap_doc cfg pc)))).
  { subst r. unfold ChunkFilter.filter_chunks. rewrite Hen. cbn [negb].
    fold s. fold survivors. fold pc. now destruct (ChunkFilter.cap_doc cfg pc). }
  destruct (cap_parents_spec cfg survivors (ChunkFilter.t_dropped_by_tag s))
    as (d' & Hpc & Hd').
  fold pc in Hpc.
  assert (Hcount : default 0 (snd pc !! "cap_parent")
                   = Z.of_nat (length survivors) - Z.of_nat (length (fst pc))).
  { rewrite Hpc. cbn [fst snd]. destruct Hd' as [_ ->].
    subst s. rewrite tag_all_other_key; [cbn; lia|].
    unfold loop_tags. rewrite !elem_of_cons, elem_of_nil.
    intuition discriminate. }
  assert (Hdoc0 : snd pc !! "cap_doc" = None).
  { rewrite Hpc. cbn [snd]. destruct Hd' as [Hother _].
    rewrite Hother by discriminate.
    subst s. apply tag_all_other_key.
    unfold loop_tags. rewrite !elem_of_cons, elem_of_nil.
    intuition discriminate. }
  split; [|split; [apply has_parent_path|split;
    [exact Hcount|split; [|split; [|split; [|]]]]]].
  - intros p g g'. subst g'. subst pc. rewrite cap_parents_by_parent. fold g.
    split.
    + intros Hle. unfold cap_one.
      destruct (Z.leb_spec (Z.of_nat (length g)) (ChunkFilter.max_chunks_per_parent cfg));
        [done|]. fold Np in H. lia.
    + intros Hgt. apply cap_one_top; [|done|done].
      subst g. apply NoDup_fmap_filter. apply tag_all_NoDup.
  - intros Hle. rewrite Hr. cbn [fst snd ChunkFilter.dropped_by_tag].
    unfold ChunkFilter.cap_doc. destruct pc as [capped d]. cbn [fst] in Hle.
    destruct (Z.ltb_spec (ChunkFilter.max_chunks_per_doc cfg)
                         (Z.of_nat (length capped))); [fold Nd in H; lia|done].
  - intros Hgt. rewrite Hr. cbn [fst snd ChunkFilter.dropped_by_tag].
    unfold ChunkFilter.cap_doc. destruct pc as [capped d].
    cbn [fst snd] in Hgt, Hdoc0, Hcount |- *.
    destruct (Z.ltb_spec (ChunkFilter.max_chunks_per_doc cfg)
                         (Z.of_nat (length capped))); [|fold Nd in H; lia].
    cbn [fst snd]. rewrite list_slice_to_take by done. fold Nd.
    split; [done|]. split; [|split].
    + rewrite length_reindex, length_take.
      unfold ChunkFilter.sorted_desc. rewrite length_sort_by. lia.
    + unfold ChunkFilter.bump. rewrite lookup_insert_eq, Hdoc0. cbn.
      rewrite length_take. unfold ChunkFilter.sorted_desc.
      rewrite !length_sort_by. lia.
    + unfold ChunkFilter.bump. now rewrite lookup_insert_ne.
  - intros l. split; [apply sorted_desc_Permutation|apply sorted_desc_sorted].
  - intros k c. rewrite Hr. cbn [fst]. apply reindex_dense.
Qed.

(** Three chunks of one section under a cap of two per section and one per
    document: the chunk of 10 tokens is left out by the first cap, the
    chunk of 50 tokens by the second. *)
Lemma capping_keeps_the_best_witness :
  map Chunk.text
      (fst (ChunkFilter.filter_chunks Samples.hash_zero SampleCaps.three
                                      SampleCaps.tight))
  = ["second text"]
  /\ forall k c,
       fst (ChunkFilter.filter_chunks Samples.hash_zero SampleCaps.three
                                      SampleCaps.tight) !! k = Some c ->
       Chunk.index c = Z.of_nat k.
Proof.
  split; [vm_compute; reflexivity|].
  apply (capping_keeps_the_best Samples.hash_zero SampleCaps.three
           SampleCaps.tight); vm_compute; [reflexivity|discriminate..].
Defined.

(** ** Where the chunks of the filter come from *)

Section FilterOrigin.
Import ChunkFilter.

Lemma kept_after_caps (str_hash : string -> Z) (cfg : FilterConfig)
    (cs : list Chunk.t) (c : Chunk.t) :
  c ∈ fst (cap_doc cfg (cap_parents cfg (kept (tag_all str_hash cfg cs))
                                    (t_dropped_by_tag (tag_all str_hash cfg cs)))) ->
  exists x, x ∈ cs /\ Chunk.text c = Chunk.text x
            /\ Chunk.token_count c = Chunk.token_count x.
Proof.
  intros Hc.
  destruct (cap_parents _ _ _) as [capped d] eqn:E.
  apply cap_doc_subset in Hc.
  assert (Hk : c ∈ kept (tag_all str_hash cfg cs)).
  { eapply cap_parents_subset. rewrite E. exact Hc. }
  apply run_kept_origin in Hk as [Hk|(x & seen & Hx & ->)].
  - inversion Hk.
  - exists x. now split.
Qed.

Lemma filter_chunks_origin (str_hash : string -> Z) (cfg : FilterConfig)
    (chunks : list Chunk.t) (c : Chunk.t) :
  c ∈ fst (filter_chunks str_hash chunks cfg) ->
  exists x,
    (x ∈ chunks \/ enabled cfg = true /\ x ∈ merge_heading_scan chunks)
    /\ Chunk.text c = Chunk.text x
    /\ Chunk.token_count c = Chunk.token_count x.
Proof.
  unfold filter_chunks. destruct (enabled cfg); cbn [negb].
  - destruct (cap_doc _ _) as [capped d] eqn:E. cbn [fst].
    intros Hc. apply elem_of_reindex_from in Hc as (c' & Hc' & Ht & Hn & _).
    assert (Hin : c' ∈ fst (cap_doc cfg
               (cap_parents cfg
                  (kept (tag_all str_hash cfg (_merge_heading_with_next chunks)))
                  (t_dropped_by_tag
                     (tag_all str_hash cfg (_merge_heading_with_next chunks))))))
      by now rewrite E.
    apply kept_after_caps in Hin as (x & Hx & Ht' & Hn').
    apply elem_of_reindex_from in Hx as (y & Hy & Ht'' & Hn'' & _).
    exists y. split; [right; done|]. split; congruence.
  - cbn [fst]. intros Hc. exists c. tauto.
Qed.

End FilterOrigin.

(** ** Token counts of the chunks *)

(** C1, as the code has it. Every chunk of the chunker, after assembly and
    after the merge of the small chunks, stores the count of its text. The
    filter takes no count: a chunk it returns has the text and the stored
    count of a chunk it was given, or is the merge of a heading-only chunk
    [a] with the chunk [n] after it, and then stores
    [max(len(text) / 4, a.token_count + n.token_count)]. *)
Theorem token_count_of_chunks (self : TokenAwareChunker.t)
    (blocks : list Block.t) (str_hash : string -> Z)
    (cfg : ChunkFilter.FilterConfig) (chunks : list Chunk.t) :
  Forall (counted (TokenAwareChunker.tc self))
         (TokenAwareChunker.assemble self blocks)
  /\ Forall (counted (TokenAwareChunker.tc self))
            (TokenAwareChunker.chunk_blocks self blocks)
  /\ forall c, c ∈ fst (ChunkFilter.filter_chunks str_hash chunks cfg) ->
       (exists c0, c0 ∈ chunks /\ Chunk.text c = Chunk.text c0
                   /\ Chunk.token_count c = Chunk.token_count c0)
       \/ (exists a n,
             a ∈ chunks /\ n ∈ chunks
             /\ ChunkFilter._looks_like_heading_only (Chunk.text a) = true
             /\ ChunkFilter.same_parent a n = true
             /\ Chunk.text c
                = PyStr.strip (Chunk.text a) +:+ PyStr.nlnl
                  +:+ PyStr.strip (Chunk.text n)
             /\ Chunk.token_count c
                = Z.max (PyStr.len (Chunk.text c) / 4)
                        (Chunk.token_count a + Chunk.token_count n)).
Proof.
  assert (Hflush : forall c,
             Chunk.token_count c = TokenAwareChunker._tok_count self (Chunk.text c) ->
             Meta.merged_heading (Chunk.metadata c) = None ->
             Meta.tags (Chunk.metadata c) = [] ->
             Meta.quality_score (Chunk.metadata c) = None ->
             counted (TokenAwareChunker.tc self) c) by (intros c H _ _ _; exact H).
  assert (Hmerge : forall prev c,
             counted (TokenAwareChunker.tc self)
                     (TokenAwareChunker.merge_pair self prev c)) by reflexivity.
  assert (Hcontent : forall c c', same_content c c' ->
             counted (TokenAwareChunker.tc self) c' ->
             counted (TokenAwareChunker.tc self) c).
  { unfold counted. intros c c' (Ht & Hn & _) H. now rewrite Ht, Hn. }
  split; [now apply assemble_Forall|].
  split; [now apply chunk_blocks_Forall|].
  intros c Hc.
  apply filter_chunks_origin in Hc as (x & [Hx|[_ Hx]] & Ht & Hn).
  - left. eauto.
  - apply merge_heading_scan_origin in Hx
      as [Hx|(a & n & Ha & Hb & Hlook & Hsame & ->)].
    + left. eauto.
    + right. exists a, n. rewrite Ht, Hn. cbn. tauto.
Qed.

(** C1 as stated fails. The text ["#\n\na"], chunked with [max_tokens = 1]
    and filtered, gives one chunk, the merge of ["#"] and ["a"]: it stores
    2, and the count of its text is 1. *)
Lemma merged_heading_count_drifts :
  exists c stats,
    Ingest.run Samples.hash_zero None (Samples.settings 1 1 0)
               Samples.hash_then_letter
    = Returned ([c], stats)
    /\ Chunk.token_count c = 2
    /\ TokenCounter.count TokenCounter.heuristic (Chunk.text c) = 1.
Proof.
  eexists _, _. split; [vm_compute; reflexivity|]. split; reflexivity.
Qed.

(** ** The heading merge is a step of the filter *)

(** C4, as the code has it. The chunker merges no heading: none of its
    chunks carries [merged_heading]. The merge is the first step of
    [filter_chunks], made on the assembled chunks when filtering is
    enabled (a disabled filter returns the chunks as given). Its scan goes
    left to right: a chunk whose trimmed text starts with [#] and has no
    line feed, followed by a chunk of the same [parent_section_path], is
    replaced with it by one chunk, whose text is the two trimmed texts with
    a blank line between, and whose metadata is that of the second chunk
    with [merged_heading] set (left as it is when present); the scan
    resumes after the pair. Any other chunk is passed on, and the scan
    resumes at the next one. *)
Theorem heading_merge_is_in_filter :
  (forall self blocks c,
      c ∈ TokenAwareChunker.chunk_blocks self blocks ->
      Meta.merged_heading (Chunk.metadata c) = None)
  /\ (forall str_hash chunks cfg,
        ChunkFilter.enabled cfg = false ->
        fst (ChunkFilter.filter_chunks str_hash chunks cfg) = chunks)
  /\ (forall c n rest,
        ChunkFilter._looks_like_heading_only (Chunk.text c) = true ->
        ChunkFilter.same_parent c n = true ->
        let m := ChunkFilter.merge_heading_pair c n in
        ChunkFilter._merge_heading_with_next (c :: n :: rest)
        = reindex (m :: ChunkFilter.merge_heading_scan rest)
        /\ Chunk.text m
           = PyStr.strip (Chunk.text c) +:+ PyStr.nlnl
             +:+ PyStr.strip (Chunk.text n)
        /\ Meta.merged_heading (Chunk.metadata m)
           = Some (default true (Meta.merged_heading (Chunk.metadata n)))
        /\ Meta.section_paths (Chunk.metadata m)
           = Meta.section_paths (Chunk.metadata n)
        /\ Meta.primary_section_path (Chunk.metadata m)
           = Meta.primary_section_path (Chunk.metadata n)
        /\ Meta.parent_section_path (Chunk.metadata m)
           = Meta.parent_section_path (Chunk.metadata n)
        /\ Meta.block_types (Chunk.metadata m)
           = Meta.block_types (Chunk.metadata n)
        /\ Meta.tags (Chunk.metadata m) = Meta.tags (Chunk.metadata n)
        /\ Meta.quality_score (Chunk.metadata m)
           = Meta.quality_score (Chunk.metadata n))
  /\ (forall c n rest,
        ChunkFilter._looks_like_heading_only (Chunk.text c)
        && ChunkFilter.same_parent c n = false ->
        ChunkFilter._merge_heading_with_next (c :: n :: rest)
        = reindex (c :: ChunkFilter.merge_heading_scan (n :: rest)))
  /\ (forall c, ChunkFilter._merge_heading_with_next [c] = reindex [c]).
Proof.
  split; [|split; [|split; [|split]]].
  - intros self blocks c Hc.
    assert (H : Forall (fun c => Meta.merged_heading (Chunk.metadata c) = None)
                       (TokenAwareChunker.chunk_blocks self blocks)).
    { apply chunk_blocks_Forall.
      - intros; assumption.
      - reflexivity.
      - intros c1 c2 (_ & _ & Hm) H2. now rewrite Hm. }
    rewrite Forall_forall in H. now apply H.
  - intros str_hash chunks cfg Hoff. unfold ChunkFilter.filter_chunks.
    now rewrite Hoff.
  - intros c n rest Hlook Hsame m. unfold ChunkFilter._merge_heading_with_next.
    rewrite merge_heading_scan_merge by done. repeat split.
  - intros c n rest H. unfold ChunkFilter._merge_heading_with_next.
    now rewrite merge_heading_scan_keep.
  - reflexivity.
Qed.

(** C4 as stated fails. For ["## X\n\nbody text here"] the heading block
    is followed by a block of the same parent section, and the chunker
    returns them as two chunks without a mark; the filter merges them. *)
Lemma assembly_leaves_heading_unmerged :
  let describe (c : Chunk.t) :=
    (Chunk.text c, Meta.parent_section_path (Chunk.metadata c),
     Meta.merged_heading (Chunk.metadata c)) in
  let chunks :=
    TokenAwareChunker.chunk (Samples.chunker 1 3 0 2) Samples.heading_then_body in
  map Block.text
      (TokenAwareChunker._iter_blocks (Samples.chunker 1 3 0 2)
                                      Samples.heading_then_body)
  = ["## X"; "body text here"]
  /\ map describe chunks
     = [("## X", Some "X", None); ("body text here", Some "X", None)]
  /\ map describe
       (fst (ChunkFilter.filter_chunks Samples.hash_zero chunks
                                       ChunkFilter.default_config))
     = [("## X" +:+ PyStr.nlnl +:+ "body text here", Some "X", Some true)].
Proof. vm_compute. repeat split. Qed.

(** ** The heuristic count grows with the text *)

Section HeuristicMonotone.
Import PyStr.

Lemma all_space_append (a b : string) :
  all_space (a +:+ b) = all_space a && all_space b.
Proof.
  induction a as [|c a IH]; [reflexivity|].
  rewrite append_cons. cbn [all_space]. now rewrite IH, andb_assoc.
Qed.

Lemma lstrip_append (a b : string) :
  all_space a = false -> lstrip (a +:+ b) = lstrip a +:+ b.
Proof.
  induction a as [|c a IH]; [discriminate|].
  rewrite append_cons. cbn [all_space lstrip].
  destruct (is_space c); cbn [andb]; [exact IH|reflexivity].
Qed.

Lemma rstrip_all_space (s : string) : all_space s = true -> rstrip s = EmptyString.
Proof. destruct s as [|c r]; [reflexivity|]. cbn [rstrip]. now intros ->. Qed.

Lemma all_space_lstrip (s : string) : all_space (lstrip s) = all_space s.
Proof.
  induction s as [|c r IH]; [reflexivity|].
  cbn [lstrip all_space]. destruct (is_space c) eqn:E; cbn [andb]; [exact IH|].
  cbn [all_space]. now rewrite E.
Qed.

Lemma length_rstrip_append (s x : string) :
  (String.length (rstrip s) <= String.length (rstrip (s +:+ x)))%nat.
Proof.
  induction s as [|c r IH]; [cbn; lia|].
  rewrite append_cons. cbn [rstrip].
  destruct (all_space (String c r)) eqn:E; [cbn; lia|].
  assert (E' : all_space (String c (r +:+ x)) = false).
  { rewrite <- append_cons, all_space_append, E. reflexivity. }
  rewrite E'. cbn [String.length]. lia.
Qed.

Lemma length_strip_append (a x : string) :
  (String.length (strip a) <= String.length (strip (a +:+ x)))%nat.
Proof.
  unfold strip. destruct (all_space a) eqn:E.
  - rewrite (rstrip_all_space (lstrip a)); [cbn; lia|].
    now rewrite all_space_lstrip.
  - rewrite lstrip_append by done. apply length_rstrip_append.
Qed.

Lemma heuristic_count_nonneg (s : string) :
  0 <= TokenCounter.count TokenCounter.heuristic s.
Proof.
  unfold TokenCounter.count, TokenCounter.heuristic.
  destruct (truthy (strip s)); cbn [negb]; lia.
Qed.

Lemma heuristic_count_monotone (a x : string) :
  TokenCounter.count TokenCounter.heuristic a
  <= TokenCounter.count TokenCounter.heuristic (a +:+ x).
Proof.
  pose proof (length_strip_append a x) as Hlen.
  unfold TokenCounter.count, TokenCounter.heuristic, len.
  destruct (strip a) as [|c r] eqn:Ea; cbn [truthy negb].
  - destruct (truthy (strip (a +:+ x))); cbn [negb]; lia.
  - destruct (strip (a +:+ x)) as [|c' r'] eqn:Eb; cbn [truthy negb].
    + cbn in Hlen. lia.
    + apply Z.max_le_compat_l. apply Z.div_le_mono; lia.
Qed.

End HeuristicMonotone.

(** ** The merge of the small chunks *)

Section MergeSmall.
Import TokenAwareChunker.

Variable self : TokenAwareChunker.t.

Hypothesis heuristic_counter : tc self = TokenCounter.heuristic.

Lemma str_or_same (x : option string) : str_or x x = x.
Proof. destruct x as [s|]; [|reflexivity]. cbn. now destruct (PyStr.truthy s). Qed.

Lemma merge_step_small (rev_merged : list Chunk.t) (c : Chunk.t) :
  Forall (counted (tc self)) rev_merged ->
  small_after_other_rev (min_tokens self) rev_merged ->
  small_after_other_rev (min_tokens self) (merge_step self rev_merged c).
Proof.
  intros Hcounted Hok. unfold merge_step.
  destruct rev_merged as [|prev before]; [exact I|].
  destruct (Z.ltb_spec (Chunk.token_count c) (min_tokens self)) as [Hsmall|Hbig];
    cbn [andb].
  - case_bool_decide as Hpar.
    + (* merged into [prev] *)
      destruct before as [|p before']; [exact I|].
      cbn [small_after_other_rev] in Hok |- *. destruct Hok as [Hprev Hrest].
      split; [|exact Hrest].
      cbn [merge_pair Chunk.token_count Chunk.metadata Meta.parent_section_path].
      rewrite <- Hpar, str_or_same. intros Hlt. apply Hprev.
      inversion Hcounted as [|? ? Hc_prev _]; subst.
      unfold counted in Hc_prev. rewrite Hc_prev.
      unfold _tok_count in Hlt. rewrite heuristic_counter in Hlt |- *.
      pose proof (heuristic_count_monotone (Chunk.text prev)
                    (PyStr.nlnl +:+ Chunk.text c)). lia.
    + cbn [small_after_other_rev]. split; [|exact Hok]. intros _. exact Hpar.
  - cbn [small_after_other_rev]. split; [|exact Hok]. lia.
Qed.

Lemma merge_fold_small (cs acc : list Chunk.t) :
  Forall (counted (tc self)) cs ->
  Forall (counted (tc self)) acc ->
  small_after_other_rev (min_tokens self) acc ->
  small_after_other_rev (min_tokens self) (fold_left (merge_step self) cs acc).
Proof.
  intros Hcs; revert acc; induction Hcs as [|c cs Hc _ IH]; intros acc Hacc Hok;
    cbn [fold_left]; [done|].
  apply IH.
  - apply (merge_step_Forall self (counted (tc self))); [reflexivity|done|done].
  - now apply merge_step_small.
Qed.

Lemma small_after_other_snoc (n : Z) (l : list Chunk.t) (m : Chunk.t) :
  small_after_other n l ->
  (forall p, last l = Some p -> Chunk.token_count m < n ->
             Meta.parent_section_path (Chunk.metadata p)
             <> Meta.parent_section_path (Chunk.metadata m)) ->
  small_after_other n (l ++ [m]).
Proof.
  intros Hl Hm i p c Hp Hc Hlt.
  destruct (decide (S i < length l)%nat) as [Hin|Hout].
  - rewrite lookup_app_l in Hp, Hc by lia. eauto.
  - assert (S i = length l).
    { apply lookup_lt_Some in Hc. rewrite length_app in Hc. cbn in Hc. lia. }
    rewrite lookup_app_l in Hp by lia.
    rewrite lookup_app_r in Hc by lia.
    replace (S i - length l)%nat with 0%nat in Hc by lia.
    injection Hc as <-. apply Hm; [|done].
    rewrite last_lookup. rewrite <- Hp. f_equal. lia.
Qed.

Lemma small_after_other_of_rev (n : Z) (l : list Chunk.t) :
  small_after_other_rev n l -> small_after_other n (rev l).
Proof.
  induction l as [|m r IH]; intros Hok.
  - intros i p c Hp. inversion Hp.
  - cbn [rev]. apply small_after_other_snoc.
    + apply IH. destruct r; [exact I|]. apply Hok.
    + intros p Hlast Hlt. destruct r as [|p' r'].
      * inversion Hlast.
      * cbn [rev] in Hlast. rewrite last_snoc in Hlast. injection Hlast as <-.
        now apply Hok.
Qed.

Lemma reindex_small_after_other (n : Z) (l : list Chunk.t) :
  small_after_other n l -> small_after_other n (reindex l).
Proof.
  intros Hl i p c. unfold reindex. rewrite !lookup_reindex_from.
  destruct (l !! i) as [p0|] eqn:Hp; [|discriminate].
  destruct (l !! S i) as [c0|] eqn:Hc; [|discriminate].
  cbn. intros [= <-] [= <-]. cbn. intros Hlt. exact (Hl i p0 c0 Hp Hc Hlt).
Qed.

Lemma chunk_blocks_small (blocks : list Block.t) :
  small_after_other (min_tokens self) (chunk_blocks self blocks).
Proof.
  unfold chunk_blocks, merge_small.
  apply reindex_small_after_other, small_after_other_of_rev.
  apply merge_fold_small; [|constructor|exact I].
  apply assemble_Forall. intros c H _ _ _. exact H.
Qed.

End MergeSmall.

(** C3, as the code has it. With the character heuristic, after the merge
    of the small chunks a chunk below [min_tokens] is the first chunk of
    the output or follows a chunk of another parent section: of two chunks
    that follow each other in the output, the second is below [min_tokens]
    only if their parent section paths differ. *)
Theorem small_chunk_only_after_other_section (self : TokenAwareChunker.t)
    (md : string)
    (Hheuristic : TokenAwareChunker.tc self = TokenCounter.heuristic) :
  forall i p c,
    TokenAwareChunker.chunk self md !! i = Some p ->
    TokenAwareChunker.chunk self md !! S i = Some c ->
    Chunk.token_count c < TokenAwareChunker.min_tokens self ->
    Meta.parent_section_path (Chunk.metadata p)
    <> Meta.parent_section_path (Chunk.metadata c).
Proof.
  unfold TokenAwareChunker.chunk. now apply chunk_blocks_small.
Qed.

(** In ["# A\n\npara1\n\n# B\n\npara2"] chunked with [min_tokens = 5], the
    second chunk has 2 tokens: its section is not that of the first. *)
Lemma small_chunk_only_after_other_section_witness :
  map (fun c => (Chunk.token_count c,
                 Meta.parent_section_path (Chunk.metadata c)))
      (TokenAwareChunker.chunk (Samples.chunker 5 10 0 1) Samples.two_sections)
  = [(2, Some "A"); (2, Some "B")]
  /\ Some "A" <> Some "B".
Proof.
  split; [vm_compute; reflexivity|].
  pose proof (small_chunk_only_after_other_section (Samples.chunker 5 10 0 1)
                Samples.two_sections eq_refl 0%nat) as H.
  specialize (H _ _ eq_refl eq_refl). apply H. vm_compute. reflexivity.
Defined.

(** C3 as stated fails. In ["# A\n\n" + 40 characters] chunked with
    [min_tokens = 5] and [max_tokens = 10], the heading is flushed alone
    when the paragraph does not fit: the first chunk has 1 token, and the
    second chunk is of the same parent section. *)
Lemma small_first_chunk_is_left :
  map (fun c => (Chunk.token_count c,
                 Meta.parent_section_path (Chunk.metadata c)))
      (TokenAwareChunker.chunk (Samples.chunker 5 10 0 2) Samples.heading_then_long)
  = [(1, Some "A"); (10, Some "A")].
Proof. vm_compute. reflexivity. Qed.

(** ** The parser and the heading stack *)

Section Parser.
Import PyStr TokenAwareChunker ParserLoops Sections.

Variable self : TokenAwareChunker.t.

(** One turn of the scan. *)
Lemma iter_lines_cons (line : string) (rest para : list string) (st : stack) :
  iter_lines self (line :: rest) para st = scan_line self line rest para st.
Proof. reflexivity. Qed.

Lemma code_loop_cons (st : stack) (fence l : string) (ls' acc : list string) :
  code_loop self st fence (l :: ls') acc
  = if startswith fence (strip l) then
      block_at self st (strip (join nl (acc ++ [l])))
               (_tok_count self (strip (join nl (acc ++ [l])))) code None
      :: iter_lines self ls' [] st
    else code_loop self st fence ls' (acc ++ [l]).
Proof. reflexivity. Qed.

Lemma table_loop_cons (st : stack) (l : string) (ls' acc : list string) :
  table_loop self st (l :: ls') acc
  = if startswith "|" (strip l) then table_loop self st ls' (acc ++ [l])
    else block_at self st (strip (join nl acc))
                  (_tok_count self (strip (join nl acc))) table None
         :: iter_lines self (l :: ls') [] st.
Proof. reflexivity. Qed.

Lemma list_loop_cons (st : stack) (l : string) (ls' acc : list string) :
  list_loop self st (l :: ls') acc
  = if negb (truthy (strip l)) then
      block_at self st (strip (join nl acc))
               (_tok_count self (strip (join nl acc))) list_ None
      :: iter_lines self (l :: ls') [] st
    else if Re.match_list_continuation l
    then list_loop self st ls' (acc ++ [l])
    else block_at self st (strip (join nl acc))
                  (_tok_count self (strip (join nl acc))) list_ None
         :: iter_lines self (l :: ls') [] st.
Proof. reflexivity. Qed.

Lemma follows_body_block (st : stack) (s : string) (n : Z) (ty : BlockType)
    (bs : list Block.t) :
  ty <> heading ->
  follows self st bs ->
  follows self st (block_at self st s n ty None :: bs).
Proof. intros Hty Hbs. now apply follows_body. Qed.

Lemma follows_flush_para (st : stack) (para : list string) (bs : list Block.t) :
  follows self st bs -> follows self st (flush_para self st para ++ bs).
Proof.
  intros Hbs. unfold flush_para. destruct para as [|p para]; [done|].
  destruct (truthy _); [|done]. cbn [app]. now apply follows_body_block.
Qed.

Lemma code_loop_follows (st : stack) (fence : string) (ls acc : list string) :
  (forall l, (length l <= length ls)%nat -> scan_follows self l) ->
  follows self st (code_loop self st fence ls acc).
Proof.
  revert acc; induction ls as [|l ls' IH]; intros acc H.
  - cbn. apply follows_body_block; [discriminate|constructor].
  - rewrite code_loop_cons. destruct (startswith fence (strip l)).
    + apply follows_body_block; [discriminate|]. apply H. cbn. lia.
    + apply IH. intros l' Hl'. apply H. cbn. lia.
Qed.

Lemma table_loop_follows (st : stack) (ls acc : list string) :
  (forall l, (length l <= length ls)%nat -> scan_follows self l) ->
  follows self st (table_loop self st ls acc).
Proof.
  revert acc; induction ls as [|l ls' IH]; intros acc H.
  - cbn. apply follows_body_block; [discriminate|constructor].
  - rewrite table_loop_cons. destruct (startswith "|" (strip l)).
    + apply IH. intros l' Hl'. apply H. cbn. lia.
    + apply follows_body_block; [discriminate|]. now apply H.
Qed.

Lemma list_loop_follows (st : stack) (ls acc : list string) :
  (forall l, (length l <= length ls)%nat -> scan_follows self l) ->
  follows self st (list_loop self st ls acc).
Proof.
  revert acc; induction ls as [|l ls' IH]; intros acc H.
  - cbn. apply follows_body_block; [discriminate|constructor].
  - rewrite list_loop_cons. destruct (negb (truthy (strip l))).
    + apply follows_body_block; [discriminate|]. now apply H.
    + destruct (Re.match_list_continuation l).
      * apply IH. intros l' Hl'. apply H. cbn. lia.
      * apply follows_body_block; [discriminate|]. now apply H.
Qed.

Lemma scan_follows_all (n : nat) (ls : list string) :
  (length ls <= n)%nat -> scan_follows self ls.
Proof.
  revert ls; induction n as [|n IH]; intros ls Hlen para st.
  - destruct ls; [|cbn in Hlen; lia].
    cbn. rewrite <- (app_nil_r (flush_para _ _ _)).
    apply follows_flush_para. constructor.
  - destruct ls as [|line rest].
    { cbn. rewrite <- (app_nil_r (flush_para _ _ _)).
      apply follows_flush_para. constructor. }
    cbn [length] in Hlen.
    assert (Hsub : forall l, (length l <= length rest)%nat -> scan_follows self l).
    { intros l Hl. apply IH. lia. }
    rewrite iter_lines_cons. unfold scan_line.
    destruct (negb (truthy (strip line))).
    { apply follows_flush_para. now apply Hsub. }
    destruct (Re.match_heading line) as [[level title]|].
    { apply follows_flush_para.
      apply (follows_heading self st _ _ level title); try reflexivity.
      now apply Hsub. }
    destruct (String.eqb (strip line) "[IMAGE]").
    { apply follows_flush_para. apply follows_body_block; [discriminate|].
      now apply Hsub. }
    destruct (startswith "```" (strip line) || startswith "~~~" (strip line)).
    { apply follows_flush_para. now apply code_loop_follows. }
    destruct rest as [|next rest2].
    { destruct (Re.match_list_marker line).
      - apply follows_flush_para. now apply list_loop_follows.
      - now apply Hsub. }
    destruct (startswith "|" (strip line) && startswith "|" (strip next)
              && Re.search_dashes (strip next)).
    { apply follows_flush_para. apply table_loop_follows.
      intros l Hl. apply Hsub. cbn. lia. }
    destruct (Re.match_list_marker line).
    { apply follows_flush_para. now apply list_loop_follows. }
    now apply Hsub.
Qed.

Lemma iter_blocks_follows (md : string) :
  follows self [] (_iter_blocks self md).
Proof.
  unfold _iter_blocks. now apply (scan_follows_all (length (PyLines.splitlines md))).
Qed.

End Parser.

(** ** From the heading stack to parent sections *)

Section StackSections.
Import PyStr TokenAwareChunker Sections.

Variable self : TokenAwareChunker.t.

Lemma kept_levels_pop (level : Z) (rev_st : stack) :
  parent_section_level self < level ->
  kept_levels self (rev (pop_while_rev level rev_st))
  = kept_levels self (rev rev_st).
Proof.
  intros Hdeep. induction rev_st as [|e r IH]; [reflexivity|].
  cbn [pop_while_rev]. destruct (Z.leb_spec level (fst e)) as [Hle|Hlt].
  - rewrite IH. cbn [rev]. unfold kept_levels. rewrite List.filter_app.
    cbn [List.filter].
    destruct (Z.leb_spec (fst e) (parent_section_level self)); [lia|].
    now rewrite app_nil_r.
  - reflexivity.
Qed.

Lemma kept_levels_push_deep (st : stack) (level : Z) (title : string) :
  parent_section_level self < level ->
  kept_levels self (push_heading st level title) = kept_levels self st.
Proof.
  intros Hdeep. unfold push_heading, kept_levels.
  rewrite List.filter_app. cbn [List.filter fst].
  destruct (Z.leb_spec level (parent_section_level self)); [lia|].
  rewrite app_nil_r. fold (kept_levels self (rev (pop_while_rev level (rev st)))).
  rewrite kept_levels_pop by done. now rewrite rev_involutive.
Qed.

Lemma kept_levels_push_parent (st : stack) (level : Z) (title : string) :
  level <= parent_section_level self ->
  kept_levels self (push_heading st level title) <> [].
Proof.
  intros Hle. unfold push_heading, kept_levels.
  rewrite List.filter_app. cbn [List.filter fst].
  destruct (Z.leb_spec level (parent_section_level self)); [|lia].
  intros Hnil. now apply app_eq_nil in Hnil as [_ Hnil].
Qed.

(** Without the fallback, the parent path is that of the kept entries. *)
Lemma parent_path_of_kept (st : stack) :
  kept_levels self st <> [] ->
  _parent_section_path self st
  = Some (join " > " (map snd (kept_levels self st))).
Proof.
  intros Hk. unfold _parent_section_path. destruct st as [|top st']; [done|].
  fold (kept_levels self (top :: st')).
  now destruct (kept_levels self (top :: st')).
Qed.

Lemma starts_at_parent_level_body (b : Block.t) (bs : list Block.t) :
  Block.block_type b <> heading ->
  starts_at_parent_level self (b :: bs) = starts_at_parent_level self bs.
Proof. intros H. cbn. now destruct (Block.block_type b). Qed.

Lemma follows_sectioned (st : stack) (bs : list Block.t) :
  follows self st bs ->
  kept_levels self st <> []
  \/ (st = [] /\ starts_at_parent_level self bs = true) ->
  sectioned self (_parent_section_path self st) bs.
Proof.
  induction 1 as [st|st b bs Hty Hpar Hbs IH|st b bs level title Hty Hlvl Hpar Hbs IH];
    intros Hst.
  - constructor.
  - apply sectioned_same; [|done|].
    + unfold is_parent_heading. now destruct (Block.block_type b).
    + apply IH. destruct Hst as [Hk|[-> Hs]]; [now left|right].
      split; [done|]. now rewrite starts_at_parent_level_body in Hs.
  - destruct (Z.leb_spec level (parent_section_level self)) as [Hle|Hdeep].
    + assert (Hph : is_parent_heading self b = true).
      { unfold is_parent_heading. rewrite Hty, Hlvl. now apply Z.leb_le. }
      apply sectioned_new; [done|]. rewrite Hpar. apply IH. left.
      now apply kept_levels_push_parent.
    + assert (Hph : is_parent_heading self b = false).
      { unfold is_parent_heading. rewrite Hty, Hlvl. now apply Z.leb_gt. }
      assert (Hk : kept_levels self st <> []).
      { destruct Hst as [Hk|[_ Hs]]; [done|]. cbn in Hs. rewrite Hty in Hs.
        congruence. }
      assert (Heq : _parent_section_path self (push_heading st level title)
                    = _parent_section_path self st).
      { rewrite !parent_path_of_kept; rewrite ?kept_levels_push_deep; done. }
      apply sectioned_same; [done|congruence|].
      rewrite <- Heq. apply IH. left. now rewrite kept_levels_push_deep.
Qed.

Lemma sectioned_app_same (ap : option string) (l r : list Block.t) :
  Forall (fun x => is_parent_heading self x = false
                   /\ Block.parent_section_path x = ap) l ->
  sectioned self ap r -> sectioned self ap (l ++ r).
Proof.
  induction 1 as [|x l [Hx1 Hx2] _ IH]; intros Hr; [done|].
  cbn [app]. apply sectioned_same; auto.
Qed.

Lemma sectioned_expand (ap : option string) (bs : list Block.t) :
  sectioned self ap bs ->
  parent_headings_fit self bs = true ->
  sectioned self ap (expand self bs).
Proof.
  unfold expand.
  induction 1 as [ap|ap b bs Hph Hpar Hbs IH|ap b bs Hph Hbs IH]; intros Hfit.
  - constructor.
  - cbn [parent_headings_fit forallb] in Hfit.
    apply andb_prop in Hfit as [_ Hfit].
    cbn [map concat]. apply sectioned_app_same; [|now apply IH].
    unfold expand_block. destruct (_ <=? _).
    + now repeat constructor.
    + apply Forall_forall. intros x Hx.
      change (map ?f ?l) with (f <$> l) in Hx.
      apply list_elem_of_fmap in Hx as (p & -> & _).
      split; [|exact Hpar].
      unfold is_parent_heading. cbn. now destruct (Block.block_type b).
  - cbn [parent_headings_fit forallb] in Hfit.
    apply andb_prop in Hfit as [Hb Hfit]. rewrite Hph in Hb. cbn in Hb.
    cbn [map concat]. unfold expand_block at 1. rewrite Hb.
    cbn [app]. apply sectioned_new; [done|]. now apply IH.
Qed.

End StackSections.

(** ** The blocks of a chunk lie in one parent section *)

Section OneParent.
Import PyStr TokenAwareChunker Sections.

Variable self : TokenAwareChunker.t.

Lemma flushed_one_parent (ap : option string) (s : asm) :
  in_section ap s -> Forall one_parent (flushed self s).
Proof.
  intros [Hap Hcur]. unfold flushed. destruct (cur s) as [|b bs] eqn:E; [done|].
  destruct (_ <=? _); [|done]. constructor; [|constructor].
  unfold one_parent. cbn. now rewrite Hap.
Qed.

Lemma flush_in_section (ap : option string) (s : asm) :
  in_section ap s -> in_section ap (flush self s).
Proof.
  intros [Hap Hcur]. destruct (flush_cases self s) as (_ & Hc & Ha).
  split; [congruence|]. rewrite Hc. constructor.
Qed.

Lemma enter_same (ap : option string) (s : asm) (b : Block.t) :
  is_parent_heading self b = false ->
  Block.parent_section_path b = ap ->
  in_section ap s -> in_section ap (enter self s b).
Proof.
  intros Hph Hpar [Hap Hcur]. unfold enter. rewrite Hph.
  destruct (active_parent s) eqn:E; (split; cbn; [congruence|exact Hcur]).
Qed.

Lemma enter_new (ap : option string) (s : asm) (b : Block.t) :
  is_parent_heading self b = true ->
  in_section ap s ->
  in_section (Block.parent_section_path b) (enter self s b).
Proof.
  intros Hph Hs. unfold enter. rewrite Hph.
  destruct (flush_cases self s) as (_ & Hc & _). cbn.
  destruct (Block.parent_section_path b) eqn:E; split; cbn; rewrite ?Hc; done.
Qed.

Lemma place_in_section (ap : option string) (s : asm) (b : Block.t) :
  Block.parent_section_path b = ap ->
  in_section ap s -> in_section ap (place self s b).
Proof.
  intros Hpar Hs. unfold place.
  destruct (_ <=? _).
  - destruct Hs as [Hap Hcur]. split; cbn; [done|].
    apply Forall_app. split; [done|]. now repeat constructor.
  - destruct (flush_in_section ap s Hs) as [Hap Hcur].
    destruct (last (chunks (flush self s))) as [prev|];
      [destruct (_ && _); [destruct (truthy _)|]|];
      split; cbn; try done; repeat constructor; cbn; done.
Qed.

Lemma step_same (ap : option string) (s : asm) (b : Block.t) :
  is_parent_heading self b = false ->
  Block.parent_section_path b = ap ->
  in_section ap s ->
  in_section ap (step self s b) /\ Forall one_parent (step_groups self s b).
Proof.
  intros Hph Hpar Hs. pose proof (enter_same ap s b Hph Hpar Hs) as He.
  split; [now apply place_in_section|].
  unfold step_groups. rewrite Hph. cbn [app].
  destruct (_ <=? _); [done|]. now apply (flushed_one_parent ap).
Qed.

Lemma step_new (ap : option string) (s : asm) (b : Block.t) :
  is_parent_heading self b = true ->
  in_section ap s ->
  in_section (Block.parent_section_path b) (step self s b)
  /\ Forall one_parent (step_groups self s b).
Proof.
  intros Hph Hs. pose proof (enter_new ap s b Hph Hs) as He.
  split; [now apply place_in_section|].
  unfold step_groups. rewrite Hph. apply Forall_app. split.
  - now apply (flushed_one_parent ap).
  - destruct (_ <=? _); [done|].
    now apply (flushed_one_parent (Block.parent_section_path b)).
Qed.

Lemma groups_one_parent (ap : option string) (bs : list Block.t) :
  sectioned self ap bs ->
  forall s, in_section ap s -> Forall one_parent (groups_from self s bs).
Proof.
  induction 1 as [ap|ap b bs Hph Hpar Hbs IH|ap b bs Hph Hbs IH]; intros s Hs;
    cbn [groups_from].
  - now apply (flushed_one_parent ap).
  - destruct (step_same ap s b Hph Hpar Hs) as [Hs' Hg].
    apply Forall_app. split; [done|]. now apply IH.
  - destruct (step_new ap s b Hph Hs) as [Hs' Hg].
    apply Forall_app. split; [done|]. now apply IH.
Qed.

(** The groups are the blocks of the chunks. *)
Lemma flush_groups (s : asm) :
  exists cs, chunks (flush self s) = chunks s ++ cs
             /\ Forall2 chunk_of_group (flushed self s) cs.
Proof.
  unfold flush, flushed. destruct (cur s) as [|b bs] eqn:E.
  - exists []. now rewrite app_nil_r.
  - destruct (_ <=? _).
    + eexists [_]. split; [reflexivity|]. repeat constructor.
    + exists []. cbn. now rewrite app_nil_r.
Qed.

Lemma enter_groups (s : asm) (b : Block.t) :
  exists cs, chunks (enter self s b) = chunks s ++ cs
             /\ Forall2 chunk_of_group
                  (if is_parent_heading self b then flushed self s else []) cs.
Proof.
  unfold enter. destruct (is_parent_heading self b).
  - destruct (flush_groups s) as (cs & Hcs & Hg). exists cs. split; [|done].
    cbn. now destruct (Block.parent_section_path b).
  - exists []. rewrite app_nil_r. split; [|constructor].
    now destruct (active_parent s).
Qed.

Lemma place_groups (s : asm) (b : Block.t) :
  exists cs, chunks (place self s b) = chunks s ++ cs
             /\ Forall2 chunk_of_group
                  (if cur_tokens s + Block.token_count b <=? max_tokens self
                   then [] else flushed self s) cs.
Proof.
  unfold place. destruct (_ <=? _).
  - exists []. cbn. rewrite app_nil_r. split; [done|constructor].
  - destruct (flush_groups s) as (cs & Hcs & Hg). exists cs. split; [|done].
    destruct (last (chunks (flush self s))); [|done].
    now destruct (_ && _).
Qed.

Lemma step_groups_chunks (s : asm) (b : Block.t) :
  exists cs, chunks (step self s b) = chunks s ++ cs
             /\ Forall2 chunk_of_group (step_groups self s b) cs.
Proof.
  destruct (enter_groups s b) as (cs1 & H1 & G1).
  destruct (place_groups (enter self s b) b) as (cs2 & H2 & G2).
  exists (cs1 ++ cs2). unfold step. rewrite H2, H1, app_assoc. split; [done|].
  unfold step_groups. now apply Forall2_app.
Qed.

Lemma groups_from_chunks (bs : list Block.t) (s : asm) :
  exists cs, chunks (flush self (fold_left (step self) bs s)) = chunks s ++ cs
             /\ Forall2 chunk_of_group (groups_from self s bs) cs.
Proof.
  revert s; induction bs as [|b bs IH]; intros s; cbn [fold_left groups_from].
  - apply flush_groups.
  - destruct (step_groups_chunks s b) as (cs1 & H1 & G1).
    destruct (IH (step self s b)) as (cs2 & H2 & G2).
    exists (cs1 ++ cs2). rewrite H2, H1, app_assoc. split; [done|].
    now apply Forall2_app.
Qed.

Lemma groups_assemble (bs : list Block.t) :
  Forall2 chunk_of_group (groups self bs) (assemble self bs).
Proof.
  unfold groups, assemble.
  destruct (groups_from_chunks bs (mk_asm [] [] 0 0 None)) as (cs & -> & G).
  exact G.
Qed.

End OneParent.

(** C2, as the code has it. Take a document whose first heading is a
    heading of a parent section (level at most [parent_section_level]) and
    in which no such heading is over [max_tokens]. Then every chunk of the
    assembly is flushed from a group of blocks, the overlap fragment
    included, that all carry the parent section path recorded in the
    chunk: the overlap fragment is made with the path of the chunk it
    opens, which is also the path of the chunk its text comes from. *)
Theorem blocks_of_a_chunk_share_parent (self : TokenAwareChunker.t)
    (md : string)
    (Hstart : Sections.starts_at_parent_level self
                (TokenAwareChunker._iter_blocks self md) = true)
    (Hfit : Sections.parent_headings_fit self
              (TokenAwareChunker._iter_blocks self md) = true) :
  let blocks :=
    TokenAwareChunker.expand self (TokenAwareChunker._iter_blocks self md) in
  Forall2 Sections.chunk_of_group (Sections.groups self blocks)
          (TokenAwareChunker.assemble self blocks)
  /\ Forall Sections.one_parent (Sections.groups self blocks).
Proof.
  intros blocks. split; [apply groups_assemble|].
  apply (groups_one_parent self None); [|split; [reflexivity|constructor]].
  apply sectioned_expand; [|exact Hfit].
  apply (follows_sectioned self []); [apply iter_blocks_follows|].
  right. split; [reflexivity|exact Hstart].
Qed.

(** A section that overflows [max_tokens = 10] with [overlap_tokens = 2]:
    the second chunk opens with the last 8 characters of the first, and
    both of its blocks carry the path of the section. *)
Lemma blocks_of_a_chunk_share_parent_witness :
  let self := Samples.chunker 1 10 2 1 in
  let blocks :=
    TokenAwareChunker.expand self
      (TokenAwareChunker._iter_blocks self Samples.long_section) in
  map (fun g => (map Block.text (fst g), snd g)) (Sections.groups self blocks)
  = [ (["# A"; "aaaa bbbb cccc dddd eeee ffff gggg hhhh"], Some "A");
      (["ggg hhhh"; "iiii jjjj kkkk llll mmmm"], Some "A") ]
  /\ Forall Sections.one_parent (Sections.groups self blocks).
Proof.
  split; [vm_compute; reflexivity|].
  apply (blocks_of_a_chunk_share_parent (Samples.chunker 1 10 2 1)
           Samples.long_section); vm_compute; reflexivity.
Defined.

(** C2 as stated fails. In ["### A\n\ntext one\n\n### B\n\ntext two"] with
    [parent_section_level = 2] no heading opens a parent section: the
    parent path falls back to the first heading of the stack, which is [A]
    and then [B], and the four blocks go to one chunk, recorded under [A].
    No overlap is involved ([overlap_tokens = 0]). *)
Lemma deep_headings_share_a_chunk :
  let self := Samples.chunker 1 100 0 2 in
  let blocks :=
    TokenAwareChunker.expand self
      (TokenAwareChunker._iter_blocks self Samples.deep_headings) in
  map (fun g => (map Block.parent_section_path (fst g), snd g))
      (Sections.groups self blocks)
  = [([Some "A"; Some "A"; Some "B"; Some "B"], Some "A")]
  /\ map (fun c => Meta.parent_section_path (Chunk.metadata c))
         (TokenAwareChunker.chunk self Samples.deep_headings)
     = [Some "A"]
  /\ ~ Forall Sections.one_parent (Sections.groups self blocks).
Proof.
  split; [vm_compute; reflexivity|]. split; [vm_compute; reflexivity|].
  intros H. vm_compute in H.
  inversion H as [|? ? Hg _]; subst. unfold Sections.one_parent in Hg. cbn in Hg.
  inversion Hg as [|? ? _ Hg1]; subst.
  inversion Hg1 as [|? ? _ Hg2]; subst.
  inversion Hg2 as [|? ? Hb _]; subst. discriminate Hb.
Qed.

(** ** The scenarios of the specification, computed *)

(** Two sections at [parent_section_level = 1] give two chunks, under [A]
    and under [B]. *)
Example two_sections_two_chunks :
  map (fun c => (Chunk.index c, Chunk.text c,
                 Meta.parent_section_path (Chunk.metadata c)))
      (TokenAwareChunker.chunk (Samples.chunker 1 100 0 1) Samples.two_sections)
  = [ (0, "# A" +:+ PyStr.nlnl +:+ "para1", Some "A");
      (1, "# B" +:+ PyStr.nlnl +:+ "para2", Some "B") ].
Proof. vm_compute. reflexivity. Qed.

(** Of two chunks with the same trimmed text the second is dropped, and
    counted once under [duplicate] and once under [low_signal]. *)
Example second_of_two_equal_texts_is_dropped :
  let r := ChunkFilter.filter_chunks Samples.hash_zero
             [SampleChunks.alpha; SampleChunks.alpha_padded]
             ChunkFilter.default_config in
  map Chunk.text (fst r) = ["alpha beta gamma"]
  /\ ChunkFilter.dropped (snd r) = 1
  /\ ChunkFilter.dropped_by_tag (snd r) !! "duplicate" = Some 1
  /\ ChunkFilter.dropped_by_tag (snd r) !! "low_signal" = Some 1.
Proof. vm_compute. repeat split. Qed.

(** Two processes may meet the tags of a set in different orders. *)
Example set_order_varies :
  set_iter Samples.hash_zero ["low_signal"; "duplicate"]
  = ["low_signal"; "duplicate"]
  /\ set_iter Samples.hash_by_length ["low_signal"; "duplicate"]
     = ["duplicate"; "low_signal"].
Proof. vm_compute. split; reflexivity. Qed.

(** * Further properties of the pipeline *)

(** ** Trimming *)

Section Trimming.
Import PyStr.

(** The first character, if any, is not a space. *)
Lemma lstrip_starts_clean (s : string) :
  match lstrip s with String c _ => is_space c = false | EmptyString => True end.
Proof.
  induction s as [|c r IH]; [exact I|]. cbn [lstrip].
  destruct (is_space c) eqn:E; [exact IH|exact E].
Qed.

Lemma lstrip_clean (s : string) :
  match s with String c _ => is_space c = false | EmptyString => True end ->
  lstrip s = s.
Proof. destruct s as [|c r]; [done|]. cbn [lstrip]. now intros ->. Qed.

Lemma all_space_rstrip (s : string) : all_space (rstrip s) = all_space s.
Proof.
  induction s as [|c r IH]; [reflexivity|]. cbn [rstrip].
  destruct (all_space (String c r)) eqn:E; [reflexivity|].
  cbn [all_space] in E |- *. now rewrite IH.
Qed.

Lemma rstrip_idempotent (s : string) : rstrip (rstrip s) = rstrip s.
Proof.
  induction s as [|c r IH]; [reflexivity|]. cbn [rstrip].
  destruct (all_space (String c r)) eqn:E; [reflexivity|].
  cbn [rstrip]. replace (all_space (String c (rstrip r))) with false.
  - now rewrite IH.
  - cbn [all_space] in E |- *. now rewrite all_space_rstrip.
Qed.

Lemma rstrip_keeps_start (s : string) :
  match s with String c _ => is_space c = false | EmptyString => True end ->
  match rstrip s with String c _ => is_space c = false | EmptyString => True end.
Proof.
  destruct s as [|c r]; [done|]. intros Hc. cbn [rstrip].
  now destruct (all_space (String c r)).
Qed.

Lemma strip_idempotent (s : string) : strip (strip s) = strip s.
Proof.
  unfold strip.
  rewrite (lstrip_clean (rstrip (lstrip s)))
    by apply rstrip_keeps_start, lstrip_starts_clean.
  apply rstrip_idempotent.
Qed.

Lemma strip_trimmed (s : string) : trimmed (strip s).
Proof. apply strip_idempotent. Qed.

Lemma strip_empty_iff (s : string) : strip s = EmptyString <-> all_space s = true.
Proof.
  unfold strip. split.
  - intros H. rewrite <- all_space_lstrip, <- all_space_rstrip. now rewrite H.
  - intros H. apply rstrip_all_space. now rewrite all_space_lstrip.
Qed.

Lemma length_lstrip (s : string) :
  (String.length (lstrip s) <= String.length s)%nat.
Proof.
  induction s as [|c r IH]; [done|]. cbn [lstrip].
  destruct (is_space c); cbn [String.length]; lia.
Qed.

Lemma length_rstrip (s : string) :
  (String.length (rstrip s) <= String.length s)%nat.
Proof.
  induction s as [|c r IH]; [done|]. cbn [rstrip].
  destruct (all_space (String c r)); cbn [String.length]; lia.
Qed.

Lemma length_strip (s : string) :
  (String.length (strip s) <= String.length s)%nat.
Proof.
  unfold strip. pose proof (length_rstrip (lstrip s)).
  pose proof (length_lstrip s). lia.
Qed.

Lemma rstrip_append_r (u b : string) :
  all_space b = false -> rstrip (u +:+ b) = u +:+ rstrip b.
Proof.
  intros Hb. induction u as [|c u IH]; [reflexivity|].
  rewrite !append_cons. cbn [rstrip].
  replace (all_space (String c (u +:+ b))) with false; [now rewrite IH|].
  cbn [all_space]. rewrite all_space_append, Hb. now rewrite !andb_false_r.
Qed.

(** A trimmed text that is not empty starts and ends with a character
    that is not a space. *)
Lemma trimmed_not_all_space (s : string) :
  trimmed s -> s <> EmptyString -> all_space s = false.
Proof.
  intros Ht Hne. destruct (all_space s) eqn:E; [|done].
  apply strip_empty_iff in E. unfold trimmed in Ht. congruence.
Qed.

Lemma trimmed_starts_clean (s : string) :
  trimmed s ->
  match s with String c _ => is_space c = false | EmptyString => True end.
Proof.
  unfold trimmed, strip. intros H. rewrite <- H.
  apply rstrip_keeps_start, lstrip_starts_clean.
Qed.

Lemma trimmed_rstrip (s : string) : trimmed s -> rstrip s = s.
Proof.
  unfold trimmed, strip. intros H. rewrite <- H at 1. now rewrite rstrip_idempotent.
Qed.

Lemma str_append_assoc (a b c : string) :
  (a +:+ b) +:+ c = a +:+ b +:+ c.
Proof.
  induction a as [|x a IH]; [reflexivity|]. rewrite !append_cons. now rewrite IH.
Qed.

(** Two trimmed texts, neither empty, with anything between them. *)
Lemma trimmed_append (a sep b : string) :
  trimmed a -> a <> EmptyString -> trimmed b -> b <> EmptyString ->
  trimmed (a +:+ sep +:+ b).
Proof.
  intros Ha Hane Hb Hbne. unfold trimmed, strip.
  rewrite lstrip_clean.
  - rewrite <- str_append_assoc.
    rewrite rstrip_append_r by now apply trimmed_not_all_space.
    now rewrite (trimmed_rstrip b).
  - pose proof (trimmed_starts_clean a Ha). now destruct a.
Qed.

End Trimming.

(** ** Numbering of the assembled chunks *)

Section Dense.
Import TokenAwareChunker.

Variable self : TokenAwareChunker.t.

Lemma flush_dense (s : asm) : dense s -> dense (flush self s).
Proof.
  intros [Hidx Hk].
  destruct (flush_cases self s) as [[[Hc Hi]|(c & Hc & Hi & _ & Hci & _)] _].
  - split; [congruence|]. now rewrite Hc.
  - split.
    + rewrite Hc, Hi, length_app. cbn. lia.
    + rewrite Hc. intros k x Hx.
      destruct (decide (k < length (chunks s))%nat) as [Hlt|Hge].
      * rewrite lookup_app_l in Hx by done. now apply Hk.
      * rewrite lookup_app_r in Hx by lia.
        destruct (k - length (chunks s))%nat as [|n] eqn:E; [|destruct n; done].
        injection Hx as <-. rewrite Hci, Hidx. f_equal. lia.
Qed.

Lemma enter_dense (s : asm) (b : Block.t) : dense s -> dense (enter self s b).
Proof.
  intros H. unfold enter. destruct (is_parent_heading self b).
  - pose proof (flush_dense s H) as H'. cbn.
    now destruct (Block.parent_section_path b).
  - now destruct (active_parent s).
Qed.

Lemma place_dense (s : asm) (b : Block.t) : dense s -> dense (place self s b).
Proof.
  intros H. unfold place. destruct (_ <=? _); [exact H|].
  pose proof (flush_dense s H) as H'.
  destruct (last (chunks (flush self s))); [|exact H'].
  destruct (_ && _); exact H'.
Qed.

Lemma assemble_dense (blocks : list Block.t) (k : nat) (c : Chunk.t) :
  assemble self blocks !! k = Some c -> Chunk.index c = Z.of_nat k.
Proof.
  unfold assemble.
  enough (H : forall s, dense s -> dense (flush self (fold_left (step self) blocks s))).
  { apply H. split; [reflexivity|]. intros ? ? Hx. inversion Hx. }
  induction blocks as [|b bs IH]; intros s Hs; cbn [fold_left].
  - now apply flush_dense.
  - apply IH. now apply place_dense, enter_dense.
Qed.

End Dense.

(** X1. The indices are dense after each pass that numbers chunks: the
    chunks of the assembly, the chunks of [chunk] (after the merge of the
    small chunks) and the chunks of the heading merge of the filter are
    numbered 0, 1, 2, ... in the order of the list. *)
Theorem indices_are_dense (self : TokenAwareChunker.t) (blocks : list Block.t)
    (md : string) (chunks : list Chunk.t) (k : nat) (c : Chunk.t) :
  (TokenAwareChunker.assemble self blocks !! k = Some c ->
   Chunk.index c = Z.of_nat k)
  /\ (TokenAwareChunker.chunk self md !! k = Some c ->
      Chunk.index c = Z.of_nat k)
  /\ (ChunkFilter._merge_heading_with_next chunks !! k = Some c ->
      Chunk.index c = Z.of_nat k).
Proof.
  split; [apply assemble_dense|]. split; apply reindex_dense.
Qed.

(** ** The merge of the small chunks keeps the text *)

Section MergeText.
Import PyStr TokenAwareChunker.

Lemma join_merge (sep a b : string) (l r : list string) :
  join sep (l ++ (a +:+ sep +:+ b) :: r) = join sep (l ++ a :: b :: r).
Proof.
  induction l as [|x l IH].
  - cbn [app]. destruct r as [|y r]; [reflexivity|].
    cbn [join]. now rewrite !str_append_assoc.
  - cbn [app]. cbn [join].
    destruct (l ++ (a +:+ sep +:+ b) :: r) as [|u us] eqn:E1;
      [now destruct l|].
    destruct (l ++ a :: b :: r) as [|v vs] eqn:E2; [now destruct l|].
    now rewrite IH.
Qed.

Variable self : TokenAwareChunker.t.

Lemma merge_fold_text (cs acc : list Chunk.t) :
  all_text (rev (fold_left (merge_step self) cs acc)) = all_text (rev acc ++ cs).
Proof.
  revert acc; induction cs as [|c cs IH]; intros acc; cbn [fold_left].
  - now rewrite app_nil_r.
  - rewrite IH. unfold merge_step. destruct acc as [|prev before]; [reflexivity|].
    destruct (_ && _).
    + unfold all_text. cbn [rev]. rewrite <- !app_assoc. cbn [app].
      rewrite !map_app. cbn [map merge_pair Chunk.text]. apply join_merge.
    + cbn [rev]. now rewrite <- !app_assoc.
Qed.

Lemma merge_fold_length (cs acc : list Chunk.t) :
  (length (fold_left (merge_step self) cs acc) <= length acc + length cs)%nat.
Proof.
  revert acc; induction cs as [|c cs IH]; intros acc; cbn [fold_left length].
  - lia.
  - etrans; [apply IH|]. unfold merge_step. destruct acc as [|prev before].
    + cbn. lia.
    + destruct (_ && _); cbn [length]; lia.
Qed.

End MergeText.

(** X2. The merge of the small chunks loses no text and adds none: the
    texts of the chunks it returns, joined by blank lines, are the texts of
    the chunks it was given, joined by blank lines; and it returns at most
    as many chunks as it was given. *)
Theorem merge_small_keeps_text (self : TokenAwareChunker.t)
    (cs : list Chunk.t) :
  all_text (TokenAwareChunker.merge_small self cs) = all_text cs
  /\ (length (TokenAwareChunker.merge_small self cs) <= length cs)%nat.
Proof.
  unfold TokenAwareChunker.merge_small. split.
  - now rewrite merge_fold_text.
  - rewrite length_rev. apply (merge_fold_length self cs []).
Qed.

(** ** No chunk of the chunker is empty *)

Section Solid.
Import PyStr TokenAwareChunker.

Variable self : TokenAwareChunker.t.
Variable P : Chunk.t -> Prop.

Hypothesis P_flushed :
  forall c g,
    Chunk.text c = strip (joined_text g) ->
    Chunk.token_count c = _tok_count self (Chunk.text c) ->
    1 <= Chunk.token_count c ->
    P c.

Lemma flush_all (s : asm) : Forall P (chunks s) -> Forall P (chunks (flush self s)).
Proof.
  intros H. destruct (flush_cases self s) as [[[-> _]|(c & -> & Hc)] _]; [done|].
  apply Forall_app. split; [done|]. constructor; [|done].
  apply (P_flushed c (cur s)); tauto.
Qed.

Lemma step_all (s : asm) (b : Block.t) :
  Forall P (chunks s) -> Forall P (chunks (step self s b)).
Proof.
  intros H. unfold step.
  assert (He : Forall P (chunks (enter self s b))).
  { unfold enter. destruct (is_parent_heading self b).
    - pose proof (flush_all s H). cbn. now destruct (Block.parent_section_path b).
    - now destruct (active_parent s). }
  unfold place. destruct (_ <=? _); [done|].
  pose proof (flush_all _ He) as Hf.
  destruct (last (chunks (flush self (enter self s b)))); [|done].
  now destruct (_ && _).
Qed.

Lemma assemble_all (blocks : list Block.t) : Forall P (assemble self blocks).
Proof.
  unfold assemble. apply flush_all.
  generalize (mk_asm [] [] 0 0 None)
             (List.Forall_nil P : Forall P (chunks (mk_asm [] [] 0 0 None))).
  induction blocks as [|b bs IH]; intros s Hs; cbn [fold_left]; [done|].
  apply IH. now apply step_all.
Qed.

Hypothesis P_merged : forall prev c, P prev -> P c -> P (merge_pair self prev c).

Lemma merge_small_all (cs : list Chunk.t) :
  Forall P cs -> Forall P (merge_small self cs).
Proof.
  intros H. unfold merge_small. apply Forall_rev.
  generalize (@nil Chunk.t) (List.Forall_nil P).
  induction H as [|c cs Hc _ IH]; intros acc Hacc; cbn [fold_left]; [done|].
  apply IH. unfold merge_step. destruct acc as [|prev before].
  - now constructor.
  - inversion Hacc; subst. destruct (_ && _); constructor; auto.
Qed.

End Solid.

Section SolidHeuristic.
Import PyStr TokenAwareChunker.

Lemma heuristic_count_positive (s : string) :
  1 <= TokenCounter.count TokenCounter.heuristic s <-> strip s <> EmptyString.
Proof.
  unfold TokenCounter.count, TokenCounter.heuristic.
  destruct (strip s) eqn:E; cbn [truthy negb]; split; try done; lia.
Qed.

Lemma append_not_empty (a b : string) : a <> EmptyString -> a +:+ b <> EmptyString.
Proof. destruct a; [done|]. now rewrite append_cons. Qed.

Lemma chunk_blocks_solid (self : TokenAwareChunker.t) (blocks : list Block.t) :
  tc self = TokenCounter.heuristic ->
  Forall solid (chunk_blocks self blocks).
Proof.
  intros Hh. unfold chunk_blocks.
  apply Forall_forall. intros c Hc.
  apply elem_of_reindex_from in Hc as (c' & Hc' & Ht & Hn & _).
  assert (H : Forall solid (merge_small self (assemble self (expand self blocks)))).
  { apply merge_small_all.
    - intros prev x (Hp1 & Hp2 & _) (Hx1 & Hx2 & _).
      assert (Htr : trimmed (Chunk.text (merge_pair self prev x)))
        by now apply trimmed_append.
      assert (Hne : Chunk.text (merge_pair self prev x) <> EmptyString)
        by now apply append_not_empty.
      split; [done|]. split; [done|].
      cbn [merge_pair Chunk.token_count]. unfold _tok_count. rewrite Hh.
      apply heuristic_count_positive. cbn [merge_pair Chunk.text] in Htr, Hne.
      now rewrite Htr.
    - apply assemble_all. intros x g Hx Hcount Hpos.
      split; [rewrite Hx; apply strip_trimmed|]. split; [|done].
      unfold _tok_count in Hcount. rewrite Hh in Hcount. rewrite Hcount in Hpos.
      apply heuristic_count_positive in Hpos. intros Hempty.
      now rewrite Hempty in Hpos. }
  rewrite Forall_forall in H. destruct (H c' Hc') as (H1 & H2 & H3).
  unfold solid. now rewrite Ht, Hn.
Qed.

End SolidHeuristic.

(** X3. With the character heuristic no chunk of [chunk] is empty: the
    text of every chunk is trimmed and not empty, and its token count is at
    least 1; the blocks that count no token are dropped by [flush]. *)
Theorem chunks_are_not_empty (self : TokenAwareChunker.t) (md : string)
    (Hheuristic : TokenAwareChunker.tc self = TokenCounter.heuristic) :
  Forall solid (TokenAwareChunker.chunk self md).
Proof. now apply chunk_blocks_solid. Qed.

Lemma chunks_are_not_empty_witness :
  Forall solid
    (TokenAwareChunker.chunk (Samples.chunker 1 10 2 1) Samples.long_section).
Proof. apply chunks_are_not_empty. reflexivity. Defined.

(** ** What the filter returns *)

Section FilterOutput.
Import ChunkFilter.

Variable str_hash : string -> Z.
Variable cfg : FilterConfig.

(** A chunk that the loop keeps has no drop tag. *)
Lemma kept_form_clean (seen : gset string) (c : Chunk.t) :
  drops (chunk_tags cfg seen c) = false ->
  clean cfg (kept_form cfg seen c)
  /\ Meta.quality_score (Chunk.metadata (kept_form cfg seen c))
     = Some (kept_score cfg c).
Proof.
  unfold clean, section_of, kept_score, kept_form, tagged_meta, chunk_tags.
  cbn [Chunk.metadata Chunk.text Meta.parent_section_path
       Meta.primary_section_path Meta.quality_score].
  destruct (drop_front_matter cfg && _) eqn:E1;
    destruct (drop_boilerplate cfg && _) eqn:E2;
    destruct (drop_image_only cfg && _) eqn:E3;
    destruct (Chunk.token_count c <? min_tokens cfg) eqn:E4;
    destruct (bool_decide _) eqn:E5; cbn [app];
    intros Hd; vm_compute in Hd; try discriminate Hd; clear Hd;
    apply andb_false_iff in E1, E2, E3;
    (split;
     [split; [|split]; intros H; rewrite H in *;
      [destruct E1|destruct E2|destruct E3]; done
     |unfold _compute_quality_score;
      destruct (200 <=? Chunk.token_count c); reflexivity]).
Qed.

Lemma run_kept_clean (cs : list Chunk.t) (s : tagging) (x : Chunk.t) :
  x ∈ kept (fold_left (tag_step str_hash cfg) cs s) ->
  x ∈ kept s
  \/ exists c seen, c ∈ cs /\ x = kept_form cfg seen c
                    /\ drops (chunk_tags cfg seen c) = false.
Proof.
  revert s; induction cs as [|c cs IH]; intros s; cbn; [now left|].
  intros H. apply IH in H as [H|(c' & seen & Hin & -> & Hd)].
  - destruct (drops (chunk_tags cfg (seen_hashes s) c)) eqn:E.
    + destruct (tag_step_dropped str_hash cfg s c E) as [Hk _].
      rewrite Hk in H. now left.
    + destruct (tag_step_kept str_hash cfg s c E) as (Hk & _ & _).
      rewrite Hk in H.
      rewrite elem_of_app, elem_of_cons, elem_of_nil in H.
      destruct H as [H|[->|[]]]; [now left|].
      right. exists c, (seen_hashes s). split; [left|done].
  - right. exists c', seen. split; [now right|done].
Qed.

(** A list is free of repeats when each of its groups is. *)
Lemma NoDup_by_parent (l : list Chunk.t) :
  (forall p, NoDup (List.filter (has_parent p) l)) -> NoDup l.
Proof.
  induction l as [|x l IH]; intros H; [constructor|].
  constructor.
  - intros Hx. specialize (H (parent_key x)). cbn [List.filter] in H.
    unfold has_parent at 1 in H. rewrite String.eqb_refl in H.
    apply NoDup_cons in H as [H _]. apply H.
    apply elem_of_filter_bool. split; [done|]. apply String.eqb_refl.
  - apply IH. intros p. specialize (H p). cbn [List.filter] in H.
    destruct (has_parent p x); [|done]. now apply NoDup_cons in H as [_ H].
Qed.

Lemma NoDup_of_fmap {A B} (f : A -> B) (l : list A) : NoDup (f <$> l) -> NoDup l.
Proof.
  induction l as [|x l IH]; cbn; [constructor|].
  rewrite !NoDup_cons. intros [Hx Hl]. split; [|auto].
  intros Hin. apply Hx. apply list_elem_of_fmap. eauto.
Qed.

Lemma NoDup_fmap_within {A B} (f : A -> B) (l l' : list A) :
  NoDup (f <$> l) -> NoDup l' -> (forall x, x ∈ l' -> x ∈ l) ->
  NoDup (f <$> l').
Proof.
  intros Hl Hl' Hsub. induction Hl' as [|x l' Hx Hnd IH]; cbn; [constructor|].
  constructor.
  - rewrite list_elem_of_fmap. intros (y & Hf & Hy).
    assert (x = y); [|congruence].
    eapply (fmap_inj_on f l); [done| | |done].
    + apply Hsub. left.
    + apply Hsub. now right.
  - apply IH. intros y Hy. apply Hsub. now right.
Qed.

Lemma cap_one_NoDup (g : list Chunk.t) : NoDup g -> NoDup (cap_one cfg g).
Proof.
  unfold cap_one. destruct (_ <=? _); [done|]. apply NoDup_filter_bool.
Qed.

Lemma cap_parents_NoDup (ks : list Chunk.t) (d : gmap string Z) :
  NoDup (hash_of <$> ks) -> NoDup (hash_of <$> fst (cap_parents cfg ks d)).
Proof.
  intros Hnd. apply (NoDup_fmap_within hash_of ks); [done| |].
  - apply NoDup_by_parent. intros p. rewrite cap_parents_by_parent.
    apply cap_one_NoDup, NoDup_filter_bool. eapply NoDup_of_fmap, Hnd.
  - intros x. apply cap_parents_subset.
Qed.

Lemma cap_doc_NoDup (capped : list Chunk.t) (d : gmap string Z) :
  NoDup (hash_of <$> capped) -> NoDup (hash_of <$> fst (cap_doc cfg (capped, d))).
Proof.
  intros Hnd. unfold cap_doc. destruct (_ <? _); [|done]. cbn [fst].
  apply (NoDup_fmap_within hash_of capped); [done| |].
  - unfold list_slice_to. eapply sublist_NoDup; [|apply sublist_take].
    rewrite sorted_desc_Permutation. eapply NoDup_of_fmap, Hnd.
  - intros x Hx. apply (cap_doc_subset cfg capped d).
    unfold cap_doc. destruct (_ <? _) eqn:E; [done|].
    unfold list_slice_to in Hx.
    rewrite <- (sorted_desc_Permutation capped).
    eapply elem_of_sublist; [exact Hx|apply sublist_take].
Qed.

Lemma reindex_trimmed_text (l : list Chunk.t) :
  trimmed_text <$> reindex l = trimmed_text <$> l.
Proof.
  unfold reindex. generalize 0. induction l as [|c l IH]; intros i; [done|].
  cbn. now rewrite IH.
Qed.

End FilterOutput.

(** X4. What an enabled filter returns: no two chunks with the same
    trimmed text; no chunk that the configuration has dropped for front
    matter, boilerplate or an image alone; and on each chunk a quality
    score that its token count settles: 1.0, or below [min_tokens] 0.7
    (0.75 from 200 tokens on). *)
Theorem filter_output_is_clean (str_hash : string -> Z) (chunks : list Chunk.t)
    (cfg : ChunkFilter.FilterConfig) (Hen : ChunkFilter.enabled cfg = true) :
  let out := fst (ChunkFilter.filter_chunks str_hash chunks cfg) in
  NoDup (trimmed_text <$> out)
  /\ forall c, c ∈ out ->
       clean cfg c
       /\ Meta.quality_score (Chunk.metadata c) = Some (kept_score cfg c).
Proof.
  unfold ChunkFilter.filter_chunks. rewrite Hen. cbn [negb].
  set (cs := ChunkFilter._merge_heading_with_next chunks).
  destruct (ChunkFilter.cap_parents cfg _ _) as [capped d] eqn:Ep.
  destruct (ChunkFilter.cap_doc cfg _) as [capped' d'] eqn:Ed.
  cbn [fst]. cbv zeta.
  assert (Hnd : NoDup (hash_of <$> capped')).
  { replace capped' with (fst (ChunkFilter.cap_doc cfg (capped, d)))
      by now rewrite Ed.
    apply cap_doc_NoDup.
    replace capped with
      (fst (ChunkFilter.cap_parents cfg
              (ChunkFilter.kept (ChunkFilter.tag_all str_hash cfg cs))
              (ChunkFilter.t_dropped_by_tag (ChunkFilter.tag_all str_hash cfg cs))))
      by now rewrite Ep.
    apply cap_parents_NoDup, tag_all_NoDup. }
  split.
  - rewrite reindex_trimmed_text.
    change (hash_of <$> capped')
      with ((fun c => ChunkFilter._sha (trimmed_text c)) <$> capped') in Hnd.
    rewrite (list_fmap_compose trimmed_text ChunkFilter._sha) in Hnd.
    eapply NoDup_of_fmap, Hnd.
  - intros c Hc. apply elem_of_reindex_from in Hc as (c' & Hc' & Ht & Hn & Hm).
    assert (Hk : c' ∈ ChunkFilter.kept (ChunkFilter.tag_all str_hash cfg cs)).
    { apply (cap_parents_subset cfg _ (ChunkFilter.t_dropped_by_tag
                                         (ChunkFilter.tag_all str_hash cfg cs))).
      rewrite Ep. cbn [fst].
      apply (cap_doc_subset cfg capped d). now rewrite Ed. }
    apply run_kept_clean in Hk as [Hk|(x & seen & _ & -> & Hd)]; [inversion Hk|].
    destruct (kept_form_clean cfg seen x Hd) as [Hclean Hscore].
    unfold clean, section_of, kept_score in *.
    rewrite Ht, Hn, Hm. split; [exact Hclean|exact Hscore].
Qed.

Lemma filter_output_is_clean_witness :
  ChunkFilter.enabled SampleCaps.tight = true
  /\ NoDup (trimmed_text
              <$> fst (ChunkFilter.filter_chunks Samples.hash_zero
                         SampleCaps.three SampleCaps.tight)).
Proof.
  split; [reflexivity|].
  pose proof (filter_output_is_clean Samples.hash_zero SampleCaps.three
                SampleCaps.tight eq_refl) as [H _].
  exact H.
Defined.

(** ** The heading merge on the chunks of the chunker *)

Section HeadingMergeText.
Import PyStr ChunkFilter.

Lemma all_text_cons (c : Chunk.t) (l l' : list Chunk.t) :
  (l = [] <-> l' = []) -> all_text l = all_text l' ->
  all_text (c :: l) = all_text (c :: l').
Proof.
  unfold all_text. intros Hnil H. destruct l as [|x l], l' as [|y l'].
  - done.
  - destruct Hnil as [Hnil _]. now specialize (Hnil eq_refl).
  - destruct Hnil as [_ Hnil]. now specialize (Hnil eq_refl).
  - cbn [map join] in *. now rewrite H.
Qed.

Lemma merge_heading_scan_nil (l : list Chunk.t) :
  merge_heading_scan l = [] <-> l = [].
Proof.
  destruct l as [|c [|n rest]]; cbn; [done|done|].
  now destruct (_ && _).
Qed.

Lemma map_text_reindex (l : list Chunk.t) :
  map Chunk.text (reindex l) = map Chunk.text l.
Proof.
  unfold reindex. generalize 0. induction l as [|c l IH]; intros i; [done|].
  cbn. now rewrite IH.
Qed.

Lemma merge_heading_pair_solid (c n : Chunk.t) :
  solid c -> solid n ->
  solid (merge_heading_pair c n)
  /\ Chunk.text (merge_heading_pair c n)
     = Chunk.text c +:+ nlnl +:+ Chunk.text n.
Proof.
  intros (Hc1 & Hc2 & Hc3) (Hn1 & Hn2 & Hn3).
  assert (Ht : Chunk.text (merge_heading_pair c n)
               = Chunk.text c +:+ nlnl +:+ Chunk.text n).
  { cbn [merge_heading_pair Chunk.text]. unfold trimmed in Hc1, Hn1.
    now rewrite Hc1, Hn1. }
  split; [|done]. unfold solid. rewrite Ht. split; [|split].
  - now apply trimmed_append.
  - now apply append_not_empty.
  - cbn [merge_heading_pair Chunk.token_count]. lia.
Qed.

Lemma merge_heading_scan_solid (l : list Chunk.t) :
  Forall solid l ->
  Forall solid (merge_heading_scan l)
  /\ all_text (merge_heading_scan l) = all_text l.
Proof.
  induction l as [| c | c n rest IH1 IH2] using chunk_pair_ind;
    [done|done|].
  intros H. inversion H as [|? ? Hc H']; subst.
  inversion H' as [|? ? Hn Hrest]; subst.
  destruct (_looks_like_heading_only (Chunk.text c) && same_parent c n) eqn:E.
  - apply andb_prop in E as [E1 E2].
    rewrite merge_heading_scan_merge by done.
    destruct (IH1 Hrest) as [IHs IHt].
    destruct (merge_heading_pair_solid c n Hc Hn) as [Hs Ht].
    split; [now constructor|].
    transitivity (all_text (merge_heading_pair c n :: rest)).
    + apply all_text_cons; [apply merge_heading_scan_nil|done].
    + unfold all_text. cbn [map]. rewrite Ht.
      apply (join_merge nlnl _ _ [] (map Chunk.text rest)).
  - rewrite merge_heading_scan_keep by done.
    destruct (IH2 H') as [IHs IHt].
    split; [now constructor|].
    apply all_text_cons; [|done].
    rewrite merge_heading_scan_nil. split; discriminate.
Qed.

Lemma reindex_solid (l : list Chunk.t) : Forall solid l -> Forall solid (reindex l).
Proof.
  intros H. apply Forall_forall. intros c Hc.
  apply elem_of_reindex_from in Hc as (c' & Hc' & Ht & Hn & _).
  rewrite Forall_forall in H. specialize (H c' Hc').
  unfold solid in *. now rewrite Ht, Hn.
Qed.

End HeadingMergeText.

(** X5. On chunks with a trimmed text that is not empty and at least one
    token, as the chunker builds them, the heading merge of the filter
    loses no text: the texts of its chunks, joined by blank lines, are the
    texts it was given, and its chunks are again trimmed, not empty and of
    at least one token. *)
Theorem heading_merge_keeps_text (chunks : list Chunk.t)
    (Hsolid : Forall solid chunks) :
  all_text (ChunkFilter._merge_heading_with_next chunks) = all_text chunks
  /\ Forall solid (ChunkFilter._merge_heading_with_next chunks).
Proof.
  destruct (merge_heading_scan_solid chunks Hsolid) as [Hs Ht].
  unfold ChunkFilter._merge_heading_with_next. split.
  - unfold all_text in *. now rewrite map_text_reindex.
  - now apply reindex_solid.
Qed.

Lemma heading_merge_keeps_text_witness :
  let chunks :=
    TokenAwareChunker.chunk (Samples.chunker 1 3 0 2) Samples.heading_then_body in
  length (ChunkFilter._merge_heading_with_next chunks) = 1%nat
  /\ all_text (ChunkFilter._merge_heading_with_next chunks) = all_text chunks.
Proof.
  cbv zeta. split; [vm_compute; reflexivity|].
  apply heading_merge_keeps_text.
  set (l := TokenAwareChunker.chunk _ _). vm_compute in l. subst l.
  repeat (constructor; [split; [reflexivity|split; [discriminate|cbn; lia]]|]).
  constructor.
Defined.

(** ** The blocks of the parser *)

Section ParserForall.
Import PyStr TokenAwareChunker ParserLoops.

Variable self : TokenAwareChunker.t.
Variable L : string -> Prop.
Variable I : stack -> Prop.
Variable P : Block.t -> Prop.

Hypothesis I_push :
  forall st line level title,
    I st -> Re.match_heading line = Some (level, title) ->
    I (push_heading st level title).

Hypothesis I_nil : I [].

Hypothesis P_text :
  forall st para,
    I st -> Forall L para ->
    truthy (strip (join nl para)) = true ->
    P (block_at self st (strip (join nl para))
                (_tok_count self (strip (join nl para))) text None).

Hypothesis P_heading :
  forall st line level title,
    I st -> L line -> truthy (strip line) = true ->
    Re.match_heading line = Some (level, title) ->
    P (block_at self (push_heading st level title) (strip line)
                (_tok_count self (strip line)) heading (Some level)).

Hypothesis P_image :
  forall st, I st -> P (block_at self st "[IMAGE]" 1 image None).

Hypothesis P_group :
  forall st ty acc,
    I st -> ty = code \/ ty = table \/ ty = list_ ->
    headed L acc ->
    P (block_at self st (strip (join nl acc))
                (_tok_count self (strip (join nl acc))) ty None).

Lemma flush_para_yields (st : stack) (para : list string) :
  I st -> Forall L para -> Forall P (flush_para self st para).
Proof.
  intros Hst H. unfold flush_para. destruct para as [|p para]; [constructor|].
  destruct (truthy _) eqn:E; [|constructor].
  constructor; [|constructor]. now apply P_text.
Qed.

Lemma headed_snoc (acc : list string) (l : string) :
  headed L acc -> L l -> headed L (acc ++ [l]).
Proof.
  destruct acc as [|a acc]; [done|]. intros (H1 & H2 & H3) Hl. cbn.
  split; [done|]. split; [done|]. apply Forall_app. split; [done|].
  now constructor.
Qed.

Lemma code_loop_yields (st : stack) (fence : string) (ls acc : list string) :
  I st -> Forall L ls -> headed L acc ->
  (forall l, (length l <= length ls)%nat -> scan_yields self L I P l) ->
  Forall P (code_loop self st fence ls acc).
Proof.
  revert acc; induction ls as [|l ls' IH]; intros acc Hst Hls Hacc H.
  - cbn. constructor; [|constructor]. apply P_group; auto.
  - inversion Hls; subst. rewrite code_loop_cons.
    destruct (startswith fence (strip l)).
    + constructor.
      * apply P_group; [done|auto|now apply headed_snoc].
      * apply H; [cbn; lia|done|done|constructor].
    + apply IH; [done|done|now apply headed_snoc|].
      intros l' Hl'. apply H. cbn. lia.
Qed.

Lemma table_loop_yields (st : stack) (ls acc : list string) :
  I st -> Forall L ls -> headed L acc ->
  (forall l, (length l <= length ls)%nat -> scan_yields self L I P l) ->
  Forall P (table_loop self st ls acc).
Proof.
  revert acc; induction ls as [|l ls' IH]; intros acc Hst Hls Hacc H.
  - cbn. constructor; [|constructor]. apply P_group; auto.
  - pose proof Hls as Hls0. inversion Hls; subst. rewrite table_loop_cons.
    destruct (startswith "|" (strip l)).
    + apply IH; [done|done|now apply headed_snoc|].
      intros l' Hl'. apply H. cbn. lia.
    + constructor; [apply P_group; auto|].
      apply H; [done|done|done|constructor].
Qed.

Lemma list_loop_yields (st : stack) (ls acc : list string) :
  I st -> Forall L ls -> headed L acc ->
  (forall l, (length l <= length ls)%nat -> scan_yields self L I P l) ->
  Forall P (list_loop self st ls acc).
Proof.
  revert acc; induction ls as [|l ls' IH]; intros acc Hst Hls Hacc H.
  - cbn. constructor; [|constructor]. apply P_group; auto.
  - pose proof Hls as Hls0. inversion Hls; subst. rewrite list_loop_cons.
    destruct (negb (truthy (strip l))).
    + constructor; [apply P_group; auto|].
      apply H; [done|done|done|constructor].
    + destruct (Re.match_list_continuation l).
      * apply IH; [done|done|now apply headed_snoc|].
        intros l' Hl'. apply H. cbn. lia.
      * constructor; [apply P_group; auto|].
        apply H; [done|done|done|constructor].
Qed.

Lemma scan_yields_all (n : nat) (ls : list string) :
  (length ls <= n)%nat -> scan_yields self L I P ls.
Proof.
  revert ls; induction n as [|n IH]; intros ls Hlen Hls para st Hst Hpara.
  - destruct ls; [|cbn in Hlen; lia]. cbn. now apply flush_para_yields.
  - destruct ls as [|line rest]; [cbn; now apply flush_para_yields|].
    cbn [length] in Hlen. inversion Hls as [|? ? Hline Hrest]; subst.
    assert (Hsub : forall l, (length l <= length rest)%nat ->
                             scan_yields self L I P l).
    { intros l Hl. apply IH. lia. }
    pose proof (flush_para_yields st para Hst Hpara) as Hflush.
    assert (Hone : headed L [line] -> headed L [line]) by auto.
    rewrite iter_lines_cons. unfold scan_line.
    destruct (truthy (strip line)) eqn:Etruthy; cbn [negb].
    2:{ apply Forall_app. split; [done|]. apply Hsub; [done|done|done|constructor]. }
    assert (Hhead : headed L [line]) by (cbn; auto).
    destruct (Re.match_heading line) as [[level title]|] eqn:Ehead.
    { apply Forall_app. split; [done|]. constructor.
      - now apply (P_heading st line level title).
      - apply Hsub; [done|done| |constructor]. now apply (I_push st line). }
    destruct (String.eqb (strip line) "[IMAGE]").
    { apply Forall_app. split; [done|]. constructor; [now apply P_image|].
      apply Hsub; [done|done|done|constructor]. }
    destruct (startswith "```" (strip line) || startswith "~~~" (strip line)).
    { apply Forall_app. split; [done|]. now apply code_loop_yields. }
    destruct rest as [|next rest2].
    { destruct (Re.match_list_marker line).
      - apply Forall_app. split; [done|]. now apply list_loop_yields.
      - apply Hsub; [done|done|done|]. apply Forall_app. split; [done|].
        now constructor. }
    destruct (startswith "|" (strip line) && startswith "|" (strip next)
              && Re.search_dashes (strip next)).
    { inversion Hrest; subst.
      apply Forall_app. split; [done|]. apply table_loop_yields; [done|done| |].
      - cbn. split; [done|]. split; [done|]. now constructor.
      - intros l Hl. apply Hsub. cbn. lia. }
    destruct (Re.match_list_marker line).
    { apply Forall_app. split; [done|]. now apply list_loop_yields. }
    apply Hsub; [done|done|done|]. apply Forall_app. split; [done|].
    now constructor.
Qed.

Lemma iter_blocks_yields (md : string) :
  Forall L (PyLines.splitlines md) -> Forall P (_iter_blocks self md).
Proof.
  intros H. unfold _iter_blocks.
  apply (scan_yields_all (length (PyLines.splitlines md)));
    [done|done|exact I_nil|constructor].
Qed.

End ParserForall.

Section ParsedBlocks.
Import PyStr TokenAwareChunker.

Lemma truthy_not_empty (s : string) : truthy s = true <-> s <> EmptyString.
Proof. destruct s; cbn; split; try done. Qed.

Lemma truthy_strip (s : string) : truthy (strip s) = true <-> all_space s = false.
Proof.
  rewrite truthy_not_empty, strip_empty_iff. now destruct (all_space s).
Qed.

(** A block that starts with a line that is not blank is not blank. *)
Lemma strip_join_headed (L : string -> Prop) (acc : list string) :
  headed L acc -> truthy (strip (join nl acc)) = true.
Proof.
  destruct acc as [|first more]; [done|]. intros (H & _ & _).
  apply truthy_strip in H. apply truthy_strip.
  destruct more as [|m more]; [done|]. cbn [join].
  now rewrite all_space_append, H.
Qed.

Lemma count_hashes_first (line : string) :
  (1 <= Re.count_hashes line)%nat ->
  exists r, line = String "#"%char r.
Proof.
  destruct line as [|c r]; cbn [Re.count_hashes]; [lia|].
  destruct (Re.is_hash c) eqn:E; [|lia]. intros _. exists r. f_equal.
  unfold Re.is_hash in E. apply Nat.eqb_eq in E.
  rewrite <- (ascii_nat_embedding c), E. reflexivity.
Qed.

Lemma match_heading_level (line : string) (level : Z) (title : string) :
  Re.match_heading line = Some (level, title) ->
  1 <= level <= 6 /\ exists r, line = String "#"%char r.
Proof.
  unfold Re.match_heading.
  destruct (_ && _) eqn:E; [|discriminate].
  apply andb_prop in E as [E1 E2].
  apply Nat.leb_le in E1, E2.
  destruct (drop _ line) as [|c [|c' r]]; try discriminate.
  destruct (is_space c); [|discriminate].
  intros [= <- _]. split; [lia|]. now apply count_hashes_first.
Qed.

Lemma strip_keeps_hash (r : string) :
  exists r', strip (String "#"%char r) = String "#"%char r'.
Proof.
  unfold strip. cbn [lstrip].
  change (is_space "#"%char) with false. cbv iota. cbn [rstrip all_space].
  change (is_space "#"%char) with false. cbn [andb]. eauto.
Qed.

Lemma has_line_break_lstrip (s : string) :
  has_line_break s = false -> has_line_break (lstrip s) = false.
Proof.
  induction s as [|c r IH]; [done|]. cbn [has_line_break lstrip].
  intros H. apply orb_false_elim in H as [H1 H2].
  destruct (is_space c); [auto|]. cbn [has_line_break]. now rewrite H1, H2.
Qed.

Lemma has_line_break_rstrip (s : string) :
  has_line_break s = false -> has_line_break (rstrip s) = false.
Proof.
  induction s as [|c r IH]; [done|]. cbn [has_line_break rstrip].
  intros H. apply orb_false_elim in H as [H1 H2].
  destruct (all_space (String c r)); [done|].
  cbn [has_line_break]. now rewrite H1, IH.
Qed.

Lemma has_line_break_strip (s : string) :
  has_line_break s = false -> has_line_break (strip s) = false.
Proof. intros H. now apply has_line_break_rstrip, has_line_break_lstrip. Qed.

Lemma contains_nl_line_break (s : string) :
  has_line_break s = false -> contains nl s = false.
Proof.
  induction s as [|c r IH]; [done|]. cbn [has_line_break contains].
  intros H. apply orb_false_elim in H as [H1 H2]. rewrite IH by done.
  rewrite orb_false_r. unfold nl. cbn [String.prefix].
  destruct (ascii_dec LF c) as [<-|]; [discriminate H1|reflexivity].
Qed.

Lemma has_line_break_snoc (cur : string) (c : ascii) :
  has_line_break (cur +:+ String c EmptyString)
  = has_line_break cur || PyLines.is_line_break c.
Proof.
  induction cur as [|x cur IH]; cbn [has_line_break].
  - rewrite append_nil. cbn [has_line_break]. now rewrite orb_false_r.
  - rewrite append_cons. cbn [has_line_break]. now rewrite IH, orb_assoc.
Qed.

(** No line of [splitlines] holds a line boundary. *)
Lemma splitlines_aux_step (c : ascii) (r : string) :
  (forall cur, has_line_break cur = false ->
     Forall (fun l => has_line_break l = false) (PyLines.splitlines_aux r cur)) ->
  (forall r' cur, r = String LF r' -> has_line_break cur = false ->
     Forall (fun l => has_line_break l = false) (PyLines.splitlines_aux r' cur)) ->
  forall cur, has_line_break cur = false ->
    Forall (fun l => has_line_break l = false)
           (PyLines.splitlines_aux (String c r) cur).
Proof.
  intros Hr Hr' cur Hcur. cbn [PyLines.splitlines_aux].
  destruct (PyLines.is_line_break c) eqn:E.
  - destruct (Ascii.eqb c CR).
    + destruct r as [|c' r'].
      * constructor; [done|]. now apply Hr.
      * destruct (Ascii.eqb c' LF) eqn:E'.
        -- apply Ascii.eqb_eq in E' as ->.
           constructor; [done|]. now apply (Hr' r').
        -- constructor; [done|]. now apply Hr.
    + constructor; [done|]. now apply Hr.
  - apply Hr. now rewrite has_line_break_snoc, Hcur, E.
Qed.

Lemma splitlines_aux_lines (s cur : string) :
  has_line_break cur = false ->
  Forall (fun l => has_line_break l = false) (PyLines.splitlines_aux s cur).
Proof.
  revert cur.
  enough (H : (forall cur, has_line_break cur = false ->
                 Forall (fun l => has_line_break l = false)
                        (PyLines.splitlines_aux s cur))
              /\ forall c cur, has_line_break cur = false ->
                   Forall (fun l => has_line_break l = false)
                          (PyLines.splitlines_aux (String c s) cur))
    by apply H.
  induction s as [|c' r' [IH1 IH2]].
  - assert (H0 : forall cur, has_line_break cur = false ->
                   Forall (fun l => has_line_break l = false)
                          (PyLines.splitlines_aux EmptyString cur)).
    { intros cur Hcur. cbn. destruct (truthy cur); [|constructor].
      now constructor. }
    split; [exact H0|]. intros c. apply splitlines_aux_step; [exact H0|].
    intros r' cur [=].
  - split; [apply IH2|]. intros c. apply splitlines_aux_step; [apply IH2|].
    intros r cur [= -> ->]. apply IH1.
Qed.

Lemma splitlines_lines (md : string) :
  Forall (fun l => has_line_break l = false) (PyLines.splitlines md).
Proof. now apply splitlines_aux_lines. Qed.

Lemma block_well_formed (self : TokenAwareChunker.t) (st : stack) (s : string)
    (ty : BlockType) :
  ty <> heading -> ty <> image -> truthy (strip s) = true ->
  well_formed_block self
    (block_at self st (strip s) (_tok_count self (strip s)) ty None).
Proof.
  intros H1 H2 Hs. unfold well_formed_block, block_at.
  cbn [Block.text Block.block_type Block.heading_level Block.token_count].
  split; [apply strip_trimmed|]. split; [now apply truthy_not_empty|].
  now destruct ty.
Qed.

Lemma iter_blocks_well_formed (self : TokenAwareChunker.t) (md : string) :
  Forall (well_formed_block self) (_iter_blocks self md).
Proof.
  apply (iter_blocks_yields self (fun _ => True) (fun _ => True)).
  - done.
  - done.
  - intros st para _ _ H. now apply block_well_formed.
  - intros st line level title _ _ Hl Hm.
    apply match_heading_level in Hm as [Hlevel _].
    unfold well_formed_block, block_at.
    cbn [Block.text Block.block_type Block.heading_level Block.token_count].
    split; [apply strip_trimmed|]. split; [now apply truthy_not_empty|].
    split; [eauto|done].
  - intros st _. unfold well_formed_block, block_at.
    cbn [Block.text Block.block_type Block.heading_level Block.token_count].
    split; [reflexivity|]. split; [discriminate|done].
  - intros st ty acc _ Hty Hacc. apply block_well_formed.
    + intros ->. destruct Hty as [|[|]]; discriminate.
    + intros ->. destruct Hty as [|[|]]; discriminate.
    + eapply strip_join_headed, Hacc.
  - apply Forall_forall. done.
Qed.

Lemma iter_blocks_read_by_filter (self : TokenAwareChunker.t) (md : string) :
  Forall read_by_filter (_iter_blocks self md).
Proof.
  apply (iter_blocks_yields self (fun l => has_line_break l = false)
                            (fun _ => True)).
  - done.
  - done.
  - intros st para _ _ _. split; discriminate.
  - intros st line level title _ Hl _ Hm.
    apply match_heading_level in Hm as [_ [r ->]].
    split; [intros _|discriminate]. cbn [block_at Block.text].
    unfold ChunkFilter._looks_like_heading_only.
    rewrite !strip_idempotent.
    pose proof (strip_keeps_hash r) as [r' Hr'].
    rewrite contains_nl_line_break by now apply has_line_break_strip.
    rewrite Hr'. unfold startswith. cbn [String.prefix].
    destruct (ascii_dec "#"%char "#"%char); [|done]. now destruct r'.
  - intros st _. split; [discriminate|reflexivity].
  - intros st ty acc _ Hty _.
    split; intros H; cbn in H; subst ty; destruct Hty as [|[|]]; discriminate.
  - apply splitlines_lines.
Qed.

End ParsedBlocks.

(** X6. Every block of the parser is well formed: its text is trimmed and
    not empty; a heading block, and no other, carries a level, from 1 to 6;
    an image block is the marker [[IMAGE]], counted as one token; every
    other block stores the count of its text. *)
Theorem parsed_blocks_are_well_formed (self : TokenAwareChunker.t) (md : string) :
  Forall (well_formed_block self) (TokenAwareChunker._iter_blocks self md).
Proof. apply iter_blocks_well_formed. Qed.

(** X7. The parser and the filter agree on headings and images: the text
    of a heading block passes [_looks_like_heading_only], the text of an
    image block passes [_is_image_only]. *)
Theorem parsed_headings_read_as_headings (self : TokenAwareChunker.t)
    (md : string) :
  Forall read_by_filter (TokenAwareChunker._iter_blocks self md).
Proof. apply iter_blocks_read_by_filter. Qed.

(** ** The heading stack *)

Section HeadingStack.
Import TokenAwareChunker.

Lemma increasing_cons (e : Z * string) (st : stack) :
  increasing (e :: st) -> increasing st.
Proof. destruct st as [|e' st]; [done|]. now intros [_ H]. Qed.

Lemma increasing_snoc_inv (st : stack) (x : Z * string) :
  increasing (st ++ [x]) ->
  increasing st /\ Forall (fun e => fst e < fst x) st.
Proof.
  induction st as [|e st IH]; [done|]. intros H.
  destruct (IH (increasing_cons _ _ H)) as [IH1 IH2].
  destruct st as [|e' st].
  - cbn in H. split; [done|]. constructor; [tauto|constructor].
  - destruct H as [Hlt H]. split; [now split|].
    constructor; [|done]. inversion IH2; subst. lia.
Qed.

Lemma increasing_snoc (st : stack) (x : Z * string) :
  increasing st -> (forall e, last st = Some e -> fst e < fst x) ->
  increasing (st ++ [x]).
Proof.
  induction st as [|e st IH]; [done|]. intros H Hlast.
  destruct st as [|e' st].
  - cbn. split; [|done]. now apply Hlast.
  - destruct H as [Hlt H]. split; [done|]. apply IH; [done|].
    intros y Hy. now apply Hlast.
Qed.

(** On an increasing stack the pops leave the entries above [level]. *)
Lemma pop_while_increasing (st : stack) (level : Z) :
  increasing st ->
  rev (pop_while_rev level (rev st)) = List.filter (fun e => fst e <? level) st
  /\ increasing (rev (pop_while_rev level (rev st)))
  /\ forall e, last (rev (pop_while_rev level (rev st))) = Some e ->
               fst e < level.
Proof.
  induction st as [|x st IH] using rev_ind; intros H.
  - cbn. split; [done|]. split; [done|]. intros e [=].
  - apply increasing_snoc_inv in H as [Hst Hall].
    rewrite rev_unit. cbn [pop_while_rev]. rewrite List.filter_app.
    cbn [List.filter].
    destruct (Z.leb_spec level (fst x)) as [Hle|Hlt].
    + destruct (Z.ltb_spec (fst x) level); [lia|].
      rewrite app_nil_r. now apply IH.
    + destruct (Z.ltb_spec (fst x) level); [|lia].
      change (rev (x :: rev st)) with (rev (rev st) ++ [x]).
      rewrite rev_involutive. split; [|split].
      * f_equal. symmetry. apply filter_all_true.
        intros y Hy. rewrite Forall_forall in Hall. apply Hall in Hy.
        apply Z.ltb_lt. lia.
      * apply increasing_snoc; [done|]. intros e He.
        rewrite Forall_forall in Hall. apply Hall.
        now apply last_Some_elem_of.
      * intros e. rewrite last_snoc. now intros [= <-].
Qed.

Lemma heading_stack_increases (st : stack) (level : Z) (title : string) :
  increasing st -> increasing (push_heading st level title).
Proof.
  intros Hst.
  destruct (pop_while_increasing st level Hst) as (_ & Hinc & Hlast).
  unfold push_heading. now apply increasing_snoc.
Qed.

End HeadingStack.

(** X8. The heading stack of the parser grows inwards. When the levels of
    the stack increase from the outermost heading inwards, a heading of
    level [level] removes the entries of level [level] or more, is put
    last, and the levels increase again. *)
Theorem heading_stack_is_increasing (st : TokenAwareChunker.stack) (level : Z)
    (title : string) (Hst : increasing st) :
  TokenAwareChunker.push_heading st level title
  = List.filter (fun e => fst e <? level) st ++ [(level, title)]
  /\ increasing (TokenAwareChunker.push_heading st level title).
Proof.
  destruct (pop_while_increasing st level Hst) as (Heq & Hinc & Hlast).
  unfold TokenAwareChunker.push_heading. split; [now rewrite Heq|].
  now apply increasing_snoc.
Qed.

Lemma heading_stack_is_increasing_witness :
  increasing [(1, "A"); (2, "B"); (3, "C")]
  /\ TokenAwareChunker.push_heading [(1, "A"); (2, "B"); (3, "C")] 2 "X"
     = [(1, "A"); (2, "X")].
Proof.
  assert (H : increasing [(1, "A"); (2, "B"); (3, "C")]) by (cbn; lia).
  split; [exact H|].
  destruct (heading_stack_is_increasing [(1, "A"); (2, "B"); (3, "C")] 2 "X" H)
    as [-> _].
  reflexivity.
Defined.

(** ** Blank documents *)

Section Blank.
Import PyStr TokenAwareChunker ParserLoops.

Lemma line_break_is_space (c : ascii) :
  PyLines.is_line_break c = true -> is_space c = true.
Proof.
  unfold PyLines.is_line_break, is_space. generalize (nat_of_ascii c). intros n.
  rewrite !orb_true_iff, !andb_true_iff, !Nat.leb_le. lia.
Qed.

Lemma all_space_snoc (cur : string) (c : ascii) :
  all_space (cur +:+ String c EmptyString) = all_space cur && is_space c.
Proof. rewrite all_space_append. cbn. now rewrite andb_true_r. Qed.

Lemma splitlines_aux_blank (c : ascii) (r : string) :
  (forall cur, all_space r = true -> all_space cur = true ->
     Forall (fun l => all_space l = true) (PyLines.splitlines_aux r cur)) ->
  (forall r' cur, r = String LF r' -> all_space r' = true ->
     all_space cur = true ->
     Forall (fun l => all_space l = true) (PyLines.splitlines_aux r' cur)) ->
  forall cur, all_space (String c r) = true -> all_space cur = true ->
    Forall (fun l => all_space l = true)
           (PyLines.splitlines_aux (String c r) cur).
Proof.
  intros Hr Hr' cur Hs Hcur. cbn [all_space] in Hs.
  apply andb_prop in Hs as [Hc Hs]. cbn [PyLines.splitlines_aux].
  destruct (PyLines.is_line_break c) eqn:E.
  - destruct (Ascii.eqb c CR).
    + destruct r as [|c' r'].
      * constructor; [done|]. now apply Hr.
      * destruct (Ascii.eqb c' LF) eqn:E'.
        -- apply Ascii.eqb_eq in E' as ->. cbn [all_space] in Hs.
           apply andb_prop in Hs as [_ Hs].
           constructor; [done|]. now apply (Hr' r').
        -- constructor; [done|]. now apply Hr.
    + constructor; [done|]. now apply Hr.
  - apply Hr; [done|]. now rewrite all_space_snoc, Hcur, Hc.
Qed.

Lemma splitlines_blank (md : string) :
  all_space md = true ->
  Forall (fun l => all_space l = true) (PyLines.splitlines md).
Proof.
  unfold PyLines.splitlines. generalize EmptyString (eq_refl : all_space EmptyString = true).
  enough (H : (forall cur, all_space md = true -> all_space cur = true ->
                 Forall (fun l => all_space l = true)
                        (PyLines.splitlines_aux md cur))
              /\ forall c cur, all_space (String c md) = true ->
                   all_space cur = true ->
                   Forall (fun l => all_space l = true)
                          (PyLines.splitlines_aux (String c md) cur)).
  { intros cur Hcur Hmd. now apply H. }
  induction md as [|c' r' [IH1 IH2]].
  - assert (H0 : forall cur, all_space EmptyString = true -> all_space cur = true ->
                   Forall (fun l => all_space l = true)
                          (PyLines.splitlines_aux EmptyString cur)).
    { intros cur _ Hcur. cbn. destruct (truthy cur); [|constructor].
      now constructor. }
    split; [exact H0|]. intros c. apply splitlines_aux_blank; [exact H0|].
    intros r' cur [=].
  - split; [apply IH2|]. intros c. apply splitlines_aux_blank; [apply IH2|].
    intros r cur [= -> ->]. apply IH1.
Qed.

Lemma splitlines_aux_nonblank (c : ascii) (r : string) :
  (forall cur, all_space r = false \/ all_space cur = false ->
     Exists (fun l => all_space l = false) (PyLines.splitlines_aux r cur)) ->
  (forall r' cur, r = String LF r' ->
     all_space r' = false \/ all_space cur = false ->
     Exists (fun l => all_space l = false) (PyLines.splitlines_aux r' cur)) ->
  forall cur, all_space (String c r) = false \/ all_space cur = false ->
    Exists (fun l => all_space l = false)
           (PyLines.splitlines_aux (String c r) cur).
Proof.
  intros Hr Hr' cur H. cbn [PyLines.splitlines_aux].
  destruct (PyLines.is_line_break c) eqn:E.
  - destruct (all_space cur) eqn:Hcur.
    + assert (Hrest : all_space r = false).
      { destruct H as [H|H]; [|discriminate]. cbn [all_space] in H.
        now rewrite (line_break_is_space c E) in H. }
      destruct (Ascii.eqb c CR).
      * destruct r as [|c' r']; [discriminate|].
        destruct (Ascii.eqb c' LF) eqn:E'.
        -- apply Ascii.eqb_eq in E' as ->. cbn [all_space] in Hrest.
           change (is_space LF) with true in Hrest.
           apply Exists_cons_tl. apply (Hr' r'); auto.
        -- apply Exists_cons_tl. apply Hr. auto.
      * apply Exists_cons_tl. apply Hr. auto.
    + destruct (Ascii.eqb c CR); [destruct r as [|c' r']|];
        [|destruct (Ascii.eqb c' LF)|..]; now apply Exists_cons_hd.
  - apply Hr. rewrite all_space_snoc.
    destruct H as [H|H].
    + cbn [all_space] in H. apply andb_false_iff in H as [H|H]; [|auto].
      right. rewrite H. apply andb_false_r.
    + right. now rewrite H.
Qed.

Lemma splitlines_nonblank (md : string) :
  all_space md = false ->
  Exists (fun l => all_space l = false) (PyLines.splitlines md).
Proof.
  intros Hmd. unfold PyLines.splitlines.
  enough (H : (forall cur, all_space md = false \/ all_space cur = false ->
                 Exists (fun l => all_space l = false)
                        (PyLines.splitlines_aux md cur))
              /\ forall c cur,
                   all_space (String c md) = false \/ all_space cur = false ->
                   Exists (fun l => all_space l = false)
                          (PyLines.splitlines_aux (String c md) cur)).
  { apply H. auto. }
  clear Hmd. induction md as [|c' r' [IH1 IH2]].
  - assert (H0 : forall cur,
               all_space EmptyString = false \/ all_space cur = false ->
               Exists (fun l => all_space l = false)
                      (PyLines.splitlines_aux EmptyString cur)).
    { intros cur [H|H]; [discriminate|]. cbn.
      destruct cur; [discriminate|]. now apply Exists_cons_hd. }
    split; [exact H0|]. intros c. apply splitlines_aux_nonblank; [exact H0|].
    intros r' cur [=].
  - split; [apply IH2|]. intros c. apply splitlines_aux_nonblank; [apply IH2|].
    intros r cur [= -> ->]. apply IH1.
Qed.

Variable self : TokenAwareChunker.t.

Lemma iter_lines_blank (ls : list string) (st : stack) :
  Forall (fun l => all_space l = true) ls -> iter_lines self ls [] st = [].
Proof.
  induction 1 as [|line rest Hline _ IH]; [reflexivity|].
  rewrite iter_lines_cons. unfold scan_line.
  apply strip_empty_iff in Hline. now rewrite Hline.
Qed.

Lemma code_loop_not_nil (st : stack) (fence : string) (ls acc : list string) :
  code_loop self st fence ls acc <> [].
Proof.
  revert acc; induction ls as [|l ls' IH]; intros acc; [done|].
  rewrite code_loop_cons. now destruct (startswith fence (strip l)).
Qed.

Lemma table_loop_not_nil (st : stack) (ls acc : list string) :
  table_loop self st ls acc <> [].
Proof.
  revert acc; induction ls as [|l ls' IH]; intros acc; [done|].
  rewrite table_loop_cons. now destruct (startswith "|" (strip l)).
Qed.

Lemma list_loop_not_nil (st : stack) (ls acc : list string) :
  list_loop self st ls acc <> [].
Proof.
  revert acc; induction ls as [|l ls' IH]; intros acc; [done|].
  rewrite list_loop_cons. destruct (negb (truthy (strip l))); [done|].
  now destruct (Re.match_list_continuation l).
Qed.

Lemma app_not_nil_r {A} (l l' : list A) : l' <> [] -> l ++ l' <> [].
Proof. destruct l; [done|]. discriminate. Qed.

Lemma flush_para_headed (st : stack) (para : list string) :
  headed (fun _ => True) para -> flush_para self st para <> [].
Proof.
  intros H. unfold flush_para. rewrite (strip_join_headed _ _ H).
  now destruct para.
Qed.

(** A paragraph in progress, or a line that is not blank, gives a block. *)
Lemma iter_lines_not_nil (n : nat) (ls para : list string) (st : stack) :
  (length ls <= n)%nat ->
  headed (fun _ => True) para \/ (para = [] /\ Exists (fun l => all_space l = false) ls) ->
  iter_lines self ls para st <> [].
Proof.
  revert ls para st; induction n as [|n IH]; intros ls para st Hlen H.
  - destruct ls; [|cbn in Hlen; lia]. cbn.
    destruct H as [H|[_ H]]; [now apply flush_para_headed|inversion H].
  - destruct ls as [|line rest].
    { cbn. destruct H as [H|[_ H]]; [now apply flush_para_headed|inversion H]. }
    cbn [length] in Hlen.
    rewrite iter_lines_cons. unfold scan_line.
    destruct (truthy (strip line)) eqn:Etruthy; cbn [negb].
    2:{ destruct H as [H|[-> H]].
        - intros Hnil. apply app_eq_nil in Hnil as [Hnil _].
          now apply (flush_para_headed st para).
        - cbn [flush_para app]. apply IH; [lia|]. right. split; [done|].
          inversion H as [? ? Hl|]; subst; [|done].
          apply truthy_strip in Hl. congruence. }
    assert (Hpara : headed (fun _ => True) (para ++ [line])).
    { destruct H as [H|[-> _]].
      - now apply headed_snoc.
      - cbn. auto. }
    destruct (Re.match_heading line) as [[level title]|].
    { now apply app_not_nil_r. }
    destruct (String.eqb (strip line) "[IMAGE]").
    { now apply app_not_nil_r. }
    destruct (startswith "```" (strip line) || startswith "~~~" (strip line)).
    { apply app_not_nil_r, code_loop_not_nil. }
    destruct rest as [|next rest2].
    { destruct (Re.match_list_marker line).
      - apply app_not_nil_r, list_loop_not_nil.
      - apply IH; [cbn; lia|now left]. }
    destruct (startswith "|" (strip line) && startswith "|" (strip next)
              && Re.search_dashes (strip next)).
    { apply app_not_nil_r, table_loop_not_nil. }
    destruct (Re.match_list_marker line).
    { apply app_not_nil_r, list_loop_not_nil. }
    apply IH; [lia|now left].
Qed.

Lemma iter_blocks_nil_iff (md : string) :
  _iter_blocks self md = [] <-> all_space md = true.
Proof.
  unfold _iter_blocks. split.
  - intros H. destruct (all_space md) eqn:E; [done|]. exfalso.
    revert H. apply (iter_lines_not_nil (length (PyLines.splitlines md))); [done|].
    right. split; [done|]. now apply splitlines_nonblank.
  - intros H. now apply iter_lines_blank, splitlines_blank.
Qed.

End Blank.

(** X9. A document gives no block exactly when it is blank: the parser
    reads a block out of every document with a character that is not a
    space, whatever the token counter, and a blank document, the empty one
    among them, gives no block and no chunk. *)
Theorem blank_document_gives_nothing (self : TokenAwareChunker.t) (md : string) :
  (TokenAwareChunker._iter_blocks self md = [] <-> PyStr.all_space md = true)
  /\ (PyStr.all_space md = true -> TokenAwareChunker.chunk self md = []).
Proof.
  split; [apply iter_blocks_nil_iff|].
  intros H. unfold TokenAwareChunker.chunk.
  apply (iter_blocks_nil_iff self) in H. now rewrite H.
Qed.

(** ** The split of the oversized blocks *)

Section SplitBigText.
Import PyStr TokenAwareChunker.

Variable self : TokenAwareChunker.t.
Hypothesis Hheuristic : tc self = TokenCounter.heuristic.
Hypothesis Hmax : 1 <= max_tokens self.

Lemma str_length_take (k : nat) (s : string) : (String.length (take k s) <= k)%nat.
Proof.
  revert s; induction k as [|k IH]; intros s; [cbn; lia|].
  destruct s as [|c r]; cbn [take String.length]; [lia|].
  specialize (IH r). lia.
Qed.

Lemma length_slice (a step : Z) (s : string) :
  0 <= a -> 0 <= step -> len (slice a (a + step) s) <= step.
Proof.
  intros Ha Hstep. unfold slice, len.
  pose proof (str_length_take (slice_bound (a + step) (len s) - slice_bound a (len s))
                          (drop (slice_bound a (len s)) s)) as H.
  unfold slice_bound in *.
  destruct (Z.ltb_spec a 0); [lia|]. destruct (Z.ltb_spec (a + step) 0); [lia|].
  unfold len in *. lia.
Qed.

Lemma heuristic_count_short (p : string) (m : Z) :
  1 <= m -> len p <= 4 * m -> _tok_count self p <= m.
Proof.
  intros Hm Hlen. unfold _tok_count, TokenCounter.count.
  rewrite Hheuristic. unfold TokenCounter.heuristic.
  destruct (truthy (strip p)); cbn [negb]; [|lia].
  pose proof (length_strip p). unfold len in *.
  apply Z.max_lub; [done|]. apply Z.div_le_upper_bound; lia.
Qed.

Lemma hard_split_fits (s : string) :
  Forall (fits self) (hard_split (Z.max 1 (max_tokens self * 4)) s).
Proof.
  unfold hard_split. apply Forall_forall. intros p Hp.
  apply elem_of_filter_bool in Hp as [Hp Htruthy].
  apply list_elem_of_fmap in Hp as (k & -> & _).
  split; [now apply truthy_not_empty|].
  apply heuristic_count_short; [done|].
  set (step := Z.max 1 (max_tokens self * 4)) in *.
  pose proof (length_slice (Z.of_nat k * step) step s) as Hlen.
  pose proof (length_strip (slice (Z.of_nat k * step) (Z.of_nat k * step + step) s)).
  unfold len in *. subst step. lia.
Qed.

(** The loop over the sentences: the pieces put out fit, and the piece in
    progress counts at most [max_tokens]. *)
Lemma split_sentence_step_fits (out : list string) (cur s : string) :
  Forall (fits self) out -> _tok_count self cur <= max_tokens self ->
  Forall (fits self) (fst (split_sentence_step self (out, cur) s))
  /\ _tok_count self (snd (split_sentence_step self (out, cur) s))
     <= max_tokens self.
Proof.
  intros Hout Hcur. unfold split_sentence_step.
  destruct (truthy s) eqn:Es; cbn [negb]; [|done].
  destruct (Z.leb_spec (_tok_count self
              (if truthy cur then strip (cur +:+ " " +:+ s) else s))
              (max_tokens self)) as [Hc|Hc]; [done|].
  assert (Hout' : Forall (fits self) (if truthy cur then out ++ [cur] else out)).
  { destruct (truthy cur) eqn:Ecur; [|done].
    apply Forall_app. split; [done|]. constructor; [|constructor].
    split; [now apply truthy_not_empty|done]. }
  destruct (Z.leb_spec (_tok_count self s) (max_tokens self)) as [Hs|Hs].
  - done.
  - cbn [fst snd]. split.
    + apply Forall_app. split; [done|apply hard_split_fits].
    + unfold _tok_count. rewrite Hheuristic. cbn. lia.
Qed.

Lemma split_sentences_fit (ss : list string) (out : list string) (cur : string) :
  Forall (fits self) out -> _tok_count self cur <= max_tokens self ->
  Forall (fits self) (fst (fold_left (split_sentence_step self) ss (out, cur)))
  /\ _tok_count self (snd (fold_left (split_sentence_step self) ss (out, cur)))
     <= max_tokens self.
Proof.
  revert out cur; induction ss as [|s ss IH]; intros out cur Hout Hcur;
    cbn [fold_left]; [done|].
  destruct (split_sentence_step_fits out cur s Hout Hcur) as [H1 H2].
  destruct (split_sentence_step self (out, cur) s) as [out' cur'].
  now apply IH.
Qed.

Lemma split_part_step_fits (out : list string) (p : string) :
  Forall (fits self) out -> p <> EmptyString ->
  Forall (fits self) (split_part_step self out p).
Proof.
  intros Hout Hp. unfold split_part_step.
  destruct (Z.leb_spec (_tok_count self p) (max_tokens self)) as [Hc|Hc].
  - apply Forall_app. split; [done|]. now constructor.
  - assert (H0 : _tok_count self EmptyString <= max_tokens self).
    { unfold _tok_count. rewrite Hheuristic. cbn. lia. }
    destruct (split_sentences_fit (Re.split_sentences p) out EmptyString Hout H0)
      as [H1 H2].
    destruct (fold_left _ _ _) as [out' cur']. cbn [fst snd] in *.
    destruct (truthy cur') eqn:E; [|done].
    apply Forall_app. split; [done|]. constructor; [|constructor].
    split; [now apply truthy_not_empty|done].
Qed.

Lemma split_big_text_fits (block : string) :
  Forall (fits self) (_split_big_text self block).
Proof.
  unfold _split_big_text.
  assert (Hparts : Forall (fun p => p <> EmptyString)
            (map strip (List.filter (fun p => truthy (strip p))
                                    (Re.split_blank (strip block))))).
  { apply Forall_forall. intros p Hp.
    apply list_elem_of_fmap in Hp as (q & -> & Hq).
    apply elem_of_filter_bool in Hq as [_ Hq]. now apply truthy_not_empty. }
  revert Hparts. generalize (@nil string) (List.Forall_nil (fits self)).
  induction (map strip _) as [|p ps IH]; intros out Hout Hps; cbn [fold_left];
    [done|].
  inversion Hps; subst. apply IH; [|done]. now apply split_part_step_fits.
Qed.

Lemma expand_fits (blocks : list Block.t) :
  Forall (fun b => Block.token_count b <= max_tokens self) (expand self blocks).
Proof.
  unfold expand. apply Forall_concat. apply Forall_forall. intros bs Hbs.
  apply list_elem_of_fmap in Hbs as (b & -> & _). unfold expand_block.
  destruct (Z.leb_spec (Block.token_count b) (max_tokens self)) as [H|H].
  - now constructor.
  - apply Forall_fmap. eapply Forall_impl; [apply split_big_text_fits|].
    intros p [_ Hp]. exact Hp.
Qed.

End SplitBigText.

(** X10. With the character heuristic and [max_tokens] of 1 or more, the
    pieces into which [_split_big_text] cuts a text are not empty and
    count at most [max_tokens] each; so after the expansion at the head of
    [chunk] no block counts more than [max_tokens]. *)
Theorem split_pieces_fit (self : TokenAwareChunker.t) (s : string)
    (blocks : list Block.t)
    (Hheuristic : TokenAwareChunker.tc self = TokenCounter.heuristic)
    (Hmax : 1 <= TokenAwareChunker.max_tokens self) :
  Forall (fits self) (TokenAwareChunker._split_big_text self s)
  /\ Forall (fun b => Block.token_count b <= TokenAwareChunker.max_tokens self)
            (TokenAwareChunker.expand self blocks).
Proof.
  split; [now apply split_big_text_fits|now apply expand_fits].
Qed.

Lemma split_pieces_fit_witness :
  let self := Samples.chunker 1 2 0 1 in
  TokenAwareChunker._split_big_text self "aaaa bbbb. cccc dddd eeee ffff"
  = ["aaaa bbbb."; "cccc ddd"; "d eeee f"; "fff"]
  /\ Forall (fits self)
            (TokenAwareChunker._split_big_text self "aaaa bbbb. cccc dddd eeee ffff").
Proof.
  cbv zeta. split; [vm_compute; reflexivity|].
  assert (H : 1 <= TokenAwareChunker.max_tokens (Samples.chunker 1 2 0 1))
    by (cbn; lia).
  destruct (split_pieces_fit (Samples.chunker 1 2 0 1)
              "aaaa bbbb. cccc dddd eeee ffff" [] eq_refl H) as [H1 _].
  exact H1.
Defined.

(** ** Blank lines after [normalize_markdown] *)

Section LineFeeds.
Import PyStr.

Lemma lf_bound_app (k : nat) (a b : string) (run : nat) :
  lf_bound k (a +:+ b) run = lf_bound k a run && lf_bound k b (trail a run).
Proof.
  revert run; induction a as [|c a IH]; intros run; [reflexivity|].
  rewrite append_cons. cbn [lf_bound trail].
  destruct (Ascii.eqb c LF); rewrite IH; [now rewrite andb_assoc|done].
Qed.

Lemma trail_app (a b : string) (run : nat) :
  trail (a +:+ b) run = trail b (trail a run).
Proof.
  revert run; induction a as [|c a IH]; intros run; [reflexivity|].
  rewrite append_cons. cbn [trail]. now destruct (Ascii.eqb c LF).
Qed.

Lemma lf_bound_run (k : nat) (s : string) (run run' : nat) :
  (run' <= run)%nat -> lf_bound k s run = true -> lf_bound k s run' = true.
Proof.
  revert run run'; induction s as [|c r IH]; intros run run' Hle; [done|].
  cbn [lf_bound]. destruct (Ascii.eqb c LF); [|done].
  rewrite !andb_true_iff, !Nat.ltb_lt. intros [H1 H2]. split; [lia|].
  apply (IH (S run)); [lia|done].
Qed.

Lemma lf_bound_mono (k k' : nat) (s : string) (run : nat) :
  (k <= k')%nat -> lf_bound k s run = true -> lf_bound k' s run = true.
Proof.
  intros Hk. revert run; induction s as [|c r IH]; intros run; [done|].
  cbn [lf_bound]. destruct (Ascii.eqb c LF); [|apply IH].
  rewrite !andb_true_iff, !Nat.ltb_lt. intros [H1 H2]. split; [lia|auto].
Qed.

Lemma trail_bound (k : nat) (s : string) (run : nat) :
  (run <= k)%nat -> lf_bound k s run = true -> (trail s run <= k)%nat.
Proof.
  revert run; induction s as [|c r IH]; intros run Hrun; [done|].
  cbn [lf_bound trail]. destruct (Ascii.eqb c LF).
  - rewrite andb_true_iff, Nat.ltb_lt. intros [H1 H2]. apply IH; [lia|done].
  - apply IH. lia.
Qed.

Lemma lf_bound_tail (k : nat) (c : ascii) (r : string) (run : nat) :
  lf_bound k (String c r) run = true -> lf_bound k r O = true.
Proof.
  cbn [lf_bound]. destruct (Ascii.eqb c LF); [|done].
  rewrite andb_true_iff. intros [_ H]. apply (lf_bound_run k r (S run)); [lia|done].
Qed.

Lemma lf_bound_lstrip (k : nat) (s : string) :
  lf_bound k s O = true -> lf_bound k (lstrip s) O = true.
Proof.
  induction s as [|c r IH]; [done|]. intros H. cbn [lstrip].
  destruct (is_space c); [|done]. apply IH. eapply lf_bound_tail, H.
Qed.

Lemma rstrip_prefix (s : string) : exists t, s = rstrip s +:+ t.
Proof.
  induction s as [|c r [t IH]]; [now exists EmptyString|]. cbn [rstrip].
  destruct (all_space (String c r)).
  - now exists (String c r).
  - exists t. rewrite append_cons. now rewrite <- IH.
Qed.

Lemma lf_bound_rstrip (k : nat) (s : string) :
  lf_bound k s O = true -> lf_bound k (rstrip s) O = true.
Proof.
  destruct (rstrip_prefix s) as [t Ht]. intros H. rewrite Ht in H.
  rewrite lf_bound_app in H. now apply andb_prop in H as [H _].
Qed.

Lemma lf_bound_strip (k : nat) (s : string) :
  lf_bound k s O = true -> lf_bound k (strip s) O = true.
Proof. intros H. now apply lf_bound_rstrip, lf_bound_lstrip. Qed.

(** No run of three line feeds: ["\n\n\n" not in s]. *)
Lemma lf_bound_contains (s : string) (run : nat) :
  lf_bound 2 s run = true -> contains (String LF nlnl) s = false.
Proof.
  revert run; induction s as [|c r IH]; intros run H; [reflexivity|].
  cbn [contains]. rewrite (IH (if Ascii.eqb c LF then S run else O)).
  2:{ cbn [lf_bound] in H. destruct (Ascii.eqb c LF); [|done].
      now apply andb_prop in H as [_ H]. }
  rewrite orb_false_r. unfold nlnl. cbn [String.prefix].
  destruct (ascii_dec LF c) as [<-|]; [|done].
  destruct r as [|c1 r1]; [done|]. cbn [String.prefix].
  destruct (ascii_dec LF c1) as [<-|]; [|done].
  destruct r1 as [|c2 r2]; [done|]. cbn [String.prefix].
  destruct (ascii_dec LF c2) as [<-|]; [|done].
  exfalso. cbn [lf_bound] in H. rewrite !Ascii.eqb_refl in H.
  rewrite !andb_true_iff, !Nat.ltb_lt in H. lia.
Qed.

Lemma lf_bound_snoc (k : nat) (cur : string) (c : ascii) :
  Ascii.eqb c LF = false ->
  lf_bound k cur O = true ->
  lf_bound k (cur +:+ String c EmptyString) O = true
  /\ trail (cur +:+ String c EmptyString) O = O.
Proof.
  intros Hc Hcur. rewrite lf_bound_app, trail_app, Hcur.
  cbn [lf_bound trail andb]. now rewrite Hc.
Qed.

(** The state of [split_blank_aux]: the piece in progress holds no blank
    line, and when it ends with a line feed the next character is none. *)
Lemma split_blank_aux_step (c : ascii) (r : string) :
  (forall cur skipping,
      lf_bound 1 cur O = true ->
      (skipping = false -> trail cur O = 1%nat ->
       match r with String x _ => Ascii.eqb x LF = false | EmptyString => True end) ->
      Forall (fun p => lf_bound 1 p O = true) (Re.split_blank_aux r cur skipping)) ->
  (forall r' cur skipping, r = String LF r' ->
      lf_bound 1 cur O = true ->
      (skipping = false -> trail cur O = 1%nat ->
       match r' with String x _ => Ascii.eqb x LF = false | EmptyString => True end) ->
      Forall (fun p => lf_bound 1 p O = true) (Re.split_blank_aux r' cur skipping)) ->
  forall cur skipping,
    lf_bound 1 cur O = true ->
    (skipping = false -> trail cur O = 1%nat -> Ascii.eqb c LF = false) ->
    Forall (fun p => lf_bound 1 p O = true)
           (Re.split_blank_aux (String c r) cur skipping).
Proof.
  intros Hr Hr' cur skipping Hcur Hend. cbn [Re.split_blank_aux].
  destruct (Ascii.eqb c LF) eqn:Ec.
  - destruct skipping.
    + apply Hr; [done|discriminate].
    + assert (Htrail : trail cur O = O).
      { pose proof (trail_bound 1 cur O (Nat.le_0_l _) Hcur).
        destruct (trail cur O) as [|[|n]] eqn:E; [done| |lia].
        now specialize (Hend eq_refl eq_refl). }
      assert (Hlf : lf_bound 1 (cur +:+ String c EmptyString) O = true
                    /\ trail (cur +:+ String c EmptyString) O = 1%nat).
      { rewrite lf_bound_app, trail_app, Hcur, Htrail.
        cbn [lf_bound trail andb]. now rewrite Ec. }
      destruct Hlf as [Hlf Hone].
      destruct r as [|c' r'].
      * now apply Hr.
      * destruct (Ascii.eqb c' LF) eqn:Ec'.
        -- apply Ascii.eqb_eq in Ec' as ->.
           constructor; [done|]. apply (Hr' r'); [done|done|discriminate].
        -- now apply Hr.
  - destruct (lf_bound_snoc 1 cur c Ec Hcur) as [H1 H2].
    apply Hr; [done|]. intros _ H. rewrite H2 in H. discriminate.
Qed.

Lemma split_blank_pieces (s : string) :
  Forall (fun p => lf_bound 1 p O = true) (Re.split_blank s).
Proof.
  unfold Re.split_blank.
  enough (H : (forall cur skipping,
                  lf_bound 1 cur O = true ->
                  (skipping = false -> trail cur O = 1%nat ->
                   match s with
                   | String x _ => Ascii.eqb x LF = false
                   | EmptyString => True
                   end) ->
                  Forall (fun p => lf_bound 1 p O = true)
                         (Re.split_blank_aux s cur skipping))
              /\ forall c cur skipping,
                   lf_bound 1 cur O = true ->
                   (skipping = false -> trail cur O = 1%nat ->
                    Ascii.eqb c LF = false) ->
                   Forall (fun p => lf_bound 1 p O = true)
                          (Re.split_blank_aux (String c s) cur skipping)).
  { apply H; [done|]. intros _ [=]. }
  induction s as [|c' r' [IH1 IH2]].
  - assert (H0 : forall cur skipping,
               lf_bound 1 cur O = true ->
               (skipping = false -> trail cur O = 1%nat -> True) ->
               Forall (fun p => lf_bound 1 p O = true)
                      (Re.split_blank_aux EmptyString cur skipping)).
    { intros cur skipping Hcur _. cbn. now constructor. }
    split; [exact H0|]. intros c. apply split_blank_aux_step; [exact H0|].
    intros r' cur skipping [=].
  - split; [apply IH2|]. intros c. apply split_blank_aux_step; [apply IH2|].
    intros r cur skipping [= -> ->]. apply IH1.
Qed.

Lemma squeeze_Forall {A} `{EqDecision A} (P : A -> Prop) (l acc : list A) :
  Forall P l -> Forall P acc -> Forall P (squeeze l acc).
Proof.
  intros Hl. revert acc; induction Hl as [|x l Hx Hl IH]; intros acc Hacc;
    cbn [squeeze]; [done|].
  assert (Forall P (acc ++ [x])).
  { apply Forall_app. split; [done|]. now constructor. }
  destruct (last acc); [destruct (bool_decide _)|]; auto.
Qed.

Lemma trimmed_trail (p : string) (run : nat) :
  rstrip p = p -> p <> EmptyString -> trail p run = O.
Proof.
  revert run; induction p as [|c r IH]; intros run Hp Hne; [done|].
  cbn [rstrip] in Hp. destruct (all_space (String c r)) eqn:E; [done|].
  injection Hp as Hr. cbn [trail]. destruct r as [|c' r'].
  - cbn in E. rewrite andb_true_r in E.
    destruct (Ascii.eqb c LF) eqn:Ec; [|done].
    apply Ascii.eqb_eq in Ec as ->. discriminate E.
  - destruct (Ascii.eqb c LF); now apply IH.
Qed.

Lemma lf_bound_head (k : nat) (s : string) (run : nat) :
  match s with String c _ => is_space c = false | EmptyString => True end ->
  lf_bound k s run = lf_bound k s O.
Proof.
  destruct s as [|c r]; [done|]. intros Hc. cbn [lf_bound].
  destruct (Ascii.eqb c LF) eqn:Ec; [|done].
  apply Ascii.eqb_eq in Ec as ->. discriminate Hc.
Qed.

Lemma join_paragraphs (ps : list string) :
  Forall paragraph ps ->
  lf_bound 2 (join nlnl ps) O = true
  /\ match join nlnl ps with
     | String c _ => is_space c = false
     | EmptyString => True
     end.
Proof.
  induction 1 as [|p ps (Htrim & Hne & Hlf) Hps [IH1 IH2]]; [done|].
  pose proof (trimmed_starts_clean p Htrim) as Hstart.
  assert (Hp2 : lf_bound 2 p O = true)
    by (apply (lf_bound_mono 1 2); [lia|done]).
  destruct ps as [|q ps]; [done|].
  change (join nlnl (p :: q :: ps)) with (p +:+ nlnl +:+ join nlnl (q :: ps)).
  split.
  - rewrite lf_bound_app, Hp2, (trimmed_trail p O (trimmed_rstrip p Htrim) Hne).
    unfold nlnl. rewrite !append_cons, append_nil.
    cbn [lf_bound andb]. rewrite Ascii.eqb_refl. cbn [Nat.ltb Nat.leb andb].
    now rewrite lf_bound_head.
  - destruct p as [|c r]; [done|]. now rewrite append_cons.
Qed.

Lemma normalize_paragraphs (md : string) :
  Forall paragraph
    (map strip (List.filter (fun p => truthy (strip p)) (Re.split_blank md))).
Proof.
  apply Forall_forall. intros p Hp.
  apply list_elem_of_fmap in Hp as (q & -> & Hq).
  apply elem_of_filter_bool in Hq as [Hq Htruthy].
  pose proof (split_blank_pieces md) as Hall.
  rewrite Forall_forall in Hall.
  split; [apply strip_trimmed|]. split; [now apply truthy_not_empty|].
  now apply lf_bound_strip, Hall.
Qed.

End LineFeeds.

(** X11. The text that [normalize_markdown] returns is trimmed and holds no
    run of three line feeds: ["\n\n\n" not in out], as the test of the
    repository asks of one document, for every document. *)
Theorem normalized_has_no_blank_run (md : string) :
  PyStr.contains (String PyStr.LF PyStr.nlnl) (Normalize.normalize_markdown md)
  = false
  /\ trimmed (Normalize.normalize_markdown md).
Proof.
  unfold Normalize.normalize_markdown. split; [|apply strip_trimmed].
  apply (lf_bound_contains _ O), lf_bound_strip.
  apply join_paragraphs, squeeze_Forall; [|constructor].
  apply normalize_paragraphs.
Qed.

(** ** The lines that [cleanup_markdown] removes *)

Section CleanupLines.
Import PyStr Cleanup.

Lemma cleanup_markdown_lines (md : string) :
  cleanup_markdown md
  = if bool_decide (cleanup_repeated md = ∅)
    then strip (PyLines.replace (String CR nl) nl md)
    else strip (Re.sub_blank_runs (join nl (cleanup_kept md))).
Proof. reflexivity. Qed.

Lemma is_candidate_strip (a b : string) :
  strip a = strip b -> is_candidate a = is_candidate b.
Proof. unfold is_candidate. now intros ->. Qed.

Lemma occurrences_pos (s : string) (l : list string) :
  1 <= occurrences s l <-> s ∈ l.
Proof.
  unfold occurrences. induction l as [|x l IH]; cbn [List.filter].
  - cbn. rewrite elem_of_nil. lia.
  - rewrite elem_of_cons. destruct (String.eqb_spec s x) as [->|Hne].
    + cbn [length]. split; [auto|lia].
    + rewrite IH. split; [auto|]. intros [H|H]; [done|auto].
Qed.

Lemma elem_of_candidates (md : string) (ln : string) :
  strip ln ∈ cleanup_candidates md -> is_candidate ln = true.
Proof.
  unfold cleanup_candidates. intros H.
  apply list_elem_of_fmap in H as (l' & Heq & Hl').
  apply elem_of_filter_bool in Hl' as [_ Hc].
  now rewrite (is_candidate_strip ln l' Heq).
Qed.

Lemma elem_of_repeated (md : string) (ln : string) :
  strip ln ∈ cleanup_repeated md
  <-> 6 <= occurrences (strip ln) (cleanup_candidates md).
Proof.
  unfold cleanup_repeated. rewrite elem_of_list_to_set, elem_of_filter_bool.
  rewrite Z.leb_le. split; [tauto|]. intros H. split; [|done].
  apply occurrences_pos. lia.
Qed.

Lemma elem_of_cleanup_kept (md : string) (ln : string) :
  ln ∈ cleanup_kept md
  <-> ln ∈ cleanup_lines md
      /\ occurrences (strip ln) (cleanup_candidates md) < 6.
Proof.
  unfold cleanup_kept. rewrite elem_of_filter_bool, negb_true_iff.
  rewrite bool_decide_eq_false, elem_of_repeated. split; intros [H1 H2];
    (split; [done|lia]).
Qed.

End CleanupLines.

(** X12. [cleanup_markdown] removes repeated candidate lines and nothing
    else. The lines it keeps are the lines of the text, in order, less the
    lines whose trimmed form is counted six times or more among the
    candidates; a line that is no candidate (a blank line, a heading, a
    table row, a list item, an image marker, a line of fewer than 3 or
    more than 80 characters) is counted nowhere, and is kept. *)
Theorem cleanup_removes_repeated_lines (md : string) (ln : string) :
  cleanup_kept md `sublist_of` cleanup_lines md
  /\ (ln ∈ cleanup_kept md
      <-> ln ∈ cleanup_lines md
          /\ Cleanup.occurrences (PyStr.strip ln) (cleanup_candidates md) < 6)
  /\ (Cleanup.is_candidate ln = false ->
      Cleanup.occurrences (PyStr.strip ln) (cleanup_candidates md) = 0)
  /\ Cleanup.cleanup_markdown md
     = if bool_decide (cleanup_repeated md = ∅)
       then PyStr.strip (PyLines.replace (String PyStr.CR PyStr.nl) PyStr.nl md)
       else PyStr.strip (Re.sub_blank_runs (PyStr.join PyStr.nl (cleanup_kept md))).
Proof.
  split; [|split; [apply elem_of_cleanup_kept|split; [|reflexivity]]].
  - unfold cleanup_kept. generalize (cleanup_lines md). intros l.
    induction l as [|x l IH]; cbn [List.filter]; [constructor|].
    destruct (negb _); now constructor.
  - intros Hc.
    destruct (Z.le_gt_cases 1
                (Cleanup.occurrences (PyStr.strip ln) (cleanup_candidates md)))
      as [H|H].
    + apply occurrences_pos, elem_of_candidates in H. congruence.
    + unfold Cleanup.occurrences in *. lia.
Qed.

(** ** The parent section of a block *)

Section ParentPath.
Import PyStr TokenAwareChunker.

Variable self : TokenAwareChunker.t.

Lemma increasing_cons_all (e : Z * string) (st : stack) :
  increasing (e :: st) -> Forall (fun x => fst e < fst x) st.
Proof.
  revert e; induction st as [|e' st IH]; intros e H; [constructor|].
  destruct H as [Hlt H]. constructor; [done|].
  eapply Forall_impl; [apply IH, H|]. cbn. intros x Hx. lia.
Qed.

(** On an increasing stack the entries of the parent levels come first. *)
Lemma increasing_filter_prefix (st : stack) (c : Z) :
  increasing st ->
  List.filter (fun e => fst e <=? c) st
  = firstn (length (List.filter (fun e => fst e <=? c) st)) st.
Proof.
  induction st as [|e st IH]; intros H; [done|]. cbn [List.filter].
  destruct (Z.leb_spec (fst e) c) as [Hle|Hgt].
  - cbn [length firstn]. f_equal. apply IH. eapply increasing_cons, H.
  - rewrite filter_all_false; [done|].
    intros x Hx. pose proof (increasing_cons_all e st H) as Hall.
    rewrite Forall_forall in Hall. apply Hall in Hx. apply Z.leb_gt. lia.
Qed.

Lemma length_filter_le {A} (f : A -> bool) (l : list A) :
  (length (List.filter f l) <= length l)%nat.
Proof.
  induction l as [|x l IH]; cbn; [lia|]. destruct (f x); cbn; lia.
Qed.

Lemma block_at_ancestor (st : stack) (s : string) (n : Z) (ty : BlockType)
    (lvl : option Z) :
  increasing st -> parent_is_ancestor (block_at self st s n ty lvl).
Proof.
  intros Hst. unfold parent_is_ancestor, block_at.
  cbn [Block.section_path Block.parent_section_path].
  destruct st as [|top st]; [now left|]. right.
  unfold _section_path, _parent_section_path.
  exists (map snd (top :: st)).
  destruct (List.filter _ (top :: st)) as [|k0 kept] eqn:E.
  - exists 1%nat. cbn. split; [lia|done].
  - exists (length (k0 :: kept)). split; [|split; [done|]].
    + rewrite length_map. pose proof (length_filter_le
        (fun e => fst e <=? parent_section_level self) (top :: st)) as Hlen.
      rewrite E in Hlen. cbn [length] in *. lia.
    + do 2 f_equal. rewrite <- E. rewrite increasing_filter_prefix at 1 by done.
      change (map snd (firstn ?k ?l)) with (snd <$> firstn k l).
      now rewrite fmap_take.
Qed.

Lemma iter_blocks_ancestor (md : string) :
  Forall parent_is_ancestor (_iter_blocks self md).
Proof.
  apply (iter_blocks_yields self (fun _ => True) increasing).
  - intros st line level title Hst _.
    now apply heading_stack_increases.
  - exact I.
  - intros st para Hst _ _. now apply block_at_ancestor.
  - intros st line level title Hst _ _ _. apply block_at_ancestor.
    now apply heading_stack_increases.
  - intros st Hst. now apply block_at_ancestor.
  - intros st ty acc Hst _ _. now apply block_at_ancestor.
  - apply Forall_forall. done.
Qed.

Lemma expand_ancestor (blocks : list Block.t) :
  Forall parent_is_ancestor blocks ->
  Forall parent_is_ancestor (expand self blocks).
Proof.
  intros H. unfold expand. apply Forall_concat. apply Forall_forall.
  intros bs Hbs. apply list_elem_of_fmap in Hbs as (b & -> & Hb).
  rewrite Forall_forall in H. specialize (H b Hb). unfold expand_block.
  destruct (_ <=? _); [now constructor|].
  apply Forall_fmap, Forall_forall. intros p _. exact H.
Qed.

End ParentPath.

(** X13. The parent section of a block is its section or one around it.
    A block of the parser before the first heading has no section path and
    no parent path; any other block has the path of the headings around
    it, outermost first, and as parent path the path of the first [k] of
    them, with [k] at least 1. The blocks cut out of an oversized block
    keep both paths. *)
Theorem parent_section_is_an_ancestor (self : TokenAwareChunker.t) (md : string) :
  Forall parent_is_ancestor (TokenAwareChunker._iter_blocks self md)
  /\ Forall parent_is_ancestor
            (TokenAwareChunker.expand self
               (TokenAwareChunker._iter_blocks self md)).
Proof.
  split; [apply iter_blocks_ancestor|apply expand_ancestor, iter_blocks_ancestor].
Qed.

(** ** The chunks of the whole pipeline *)

Section Pipeline.
Import ChunkFilter.

Lemma filter_chunks_solid (str_hash : string -> Z) (cfg : FilterConfig)
    (chunks : list Chunk.t) :
  Forall solid chunks -> Forall solid (fst (filter_chunks str_hash chunks cfg)).
Proof.
  intros Hsolid. unfold filter_chunks. destruct (enabled cfg); cbn [negb]; [|done].
  destruct (cap_doc _ _) as [capped d] eqn:E. cbn [fst].
  apply reindex_solid, Forall_forall. intros c Hc.
  assert (Hin : c ∈ fst (cap_doc cfg
             (cap_parents cfg
                (kept (tag_all str_hash cfg (_merge_heading_with_next chunks)))
                (t_dropped_by_tag
                   (tag_all str_hash cfg (_merge_heading_with_next chunks))))))
    by now rewrite E.
  apply kept_after_caps in Hin as (x & Hx & Ht & Hn).
  assert (Hmerged : Forall solid (_merge_heading_with_next chunks)).
  { apply reindex_solid. now apply merge_heading_scan_solid. }
  rewrite Forall_forall in Hmerged. specialize (Hmerged x Hx).
  unfold solid in *. now rewrite Ht, Hn.
Qed.

Lemma filter_chunks_dense (str_hash : string -> Z) (cfg : FilterConfig)
    (chunks : list Chunk.t) (k : nat) (c : Chunk.t) :
  (forall k c, chunks !! k = Some c -> Chunk.index c = Z.of_nat k) ->
  fst (filter_chunks str_hash chunks cfg) !! k = Some c ->
  Chunk.index c = Z.of_nat k.
Proof.
  intros Hdense. unfold filter_chunks. destruct (enabled cfg); cbn [negb].
  - destruct (cap_doc _ _) as [capped d]. cbn [fst]. apply reindex_dense.
  - cbn [fst]. apply Hdense.
Qed.

Lemma filter_chunks_total_out (str_hash : string -> Z) (cfg : FilterConfig)
    (chunks : list Chunk.t) :
  total_out (snd (filter_chunks str_hash chunks cfg))
  = Z.of_nat (length (fst (filter_chunks str_hash chunks cfg))).
Proof.
  unfold filter_chunks. destruct (enabled cfg); cbn [negb]; [|done].
  now destruct (cap_doc _ _) as [capped d].
Qed.

End Pipeline.

(** X14. The pipeline of the ingest job on the character heuristic, from
    the extracted Markdown to the chunks it stores: it raises nothing, the
    text of every chunk is trimmed and not empty, every chunk has at least
    one token, the chunks are numbered 0, 1, 2, ... in the order returned,
    and [total_out] is their number; with the filter enabled or not. *)
Theorem pipeline_chunks_are_sound (str_hash : string -> Z)
    (settings : Ingest.Settings) (markdown : string) :
  exists chunks stats,
    Ingest.run str_hash None settings markdown = Returned (chunks, stats)
    /\ Forall solid chunks
    /\ (forall k c, chunks !! k = Some c -> Chunk.index c = Z.of_nat k)
    /\ ChunkFilter.total_out stats = Z.of_nat (length chunks).
Proof.
  unfold Ingest.run, TokenAwareChunker.init.
  set (md := Cleanup.cleanup_markdown _).
  set (chunker := TokenAwareChunker.mk _ _ _ _ _).
  set (r := ChunkFilter.filter_chunks _ _ _).
  exists (fst r), (snd r). split; [now destruct r|]. split; [|split].
  - apply filter_chunks_solid. now apply chunk_blocks_solid.
  - intros k c. apply filter_chunks_dense. intros k' c'. apply reindex_dense.
  - apply filter_chunks_total_out.
Qed.

(** ** The embeddings of a batch, and the rows of the job *)

Section EmbedMany.
Import EmbeddingsClient.
Context {E : Type}.

Lemma fill_length (items : list (Item E)) (embs embs' : list (option E)) :
  fill items embs = Returned embs' -> length embs' = length embs.
Proof.
  revert embs; induction items as [|item items IH]; intros embs; cbn [fill].
  - now intros [= ->].
  - destruct (index item) as [idx|]; [|discriminate].
    destruct (_ && _); intros H; apply IH in H; [|done].
    now rewrite length_insert in H.
Qed.

(** An embedding in the list is one that was there, or one that an item
    of the response gave for that index. *)
Lemma fill_origin (items : list (Item E)) (embs embs' : list (option E))
    (i : nat) (e : E) :
  fill items embs = Returned embs' ->
  embs' !! i = Some (Some e) ->
  embs !! i = Some (Some e)
  \/ exists item, item ∈ items /\ index item = Some (Z.of_nat i)
                  /\ embedding item = Some e.
Proof.
  revert embs; induction items as [|item items IH]; intros embs; cbn [fill].
  - intros [= ->]. now left.
  - destruct (index item) as [idx|] eqn:Eidx; [|discriminate].
    destruct (_ && _) eqn:Erange; intros H Hi.
    + apply andb_prop in Erange as [H0 H1].
      apply Z.leb_le in H0. apply Z.ltb_lt in H1.
      destruct (IH _ H Hi) as [Hin|(it & Hit & Hrest)].
      * destruct (decide (Z.to_nat idx = i)) as [<-|Hne].
        -- rewrite list_lookup_insert_eq in Hin by lia.
           right. exists item. split; [left|]. split; [|congruence].
           rewrite Eidx. f_equal. lia.
        -- rewrite list_lookup_insert_ne in Hin by done. now left.
      * right. exists it. split; [now right|done].
    + destruct (IH _ H Hi) as [Hin|(it & Hit & Hrest)]; [now left|].
      right. exists it. split; [now right|done].
Qed.

Lemma all_some_fmap (l : list (option E)) :
  forallb (fun e => bool_decide (is_Some e)) l = true ->
  l = Some <$> omap id l.
Proof.
  induction l as [|[e|] l IH]; [done| |]; cbn [forallb]; intros H;
    apply andb_prop in H as [H1 H2].
  - cbn. now rewrite <- IH.
  - apply bool_decide_eq_true_1 in H1. now destruct H1.
Qed.

Lemma embed_many_spec (post : list string -> outcome (list (Item E)))
    (texts : list string) (embs : list E) :
  embed_many post texts = Returned embs ->
  length embs = length texts
  /\ exists items,
       post texts = Returned items
       /\ forall i e, embs !! i = Some e ->
            exists item, item ∈ items /\ index item = Some (Z.of_nat i)
                         /\ embedding item = Some e.
Proof.
  unfold embed_many. destruct (post texts) as [items|]; [|discriminate].
  destruct (fill items _) as [filled|] eqn:Efill; [|discriminate].
  destruct (forallb _ filled) eqn:Eall; [|discriminate].
  intros [= <-]. pose proof (all_some_fmap filled Eall) as Hfilled.
  pose proof (fill_length _ _ _ Efill) as Hlen.
  rewrite length_replicate in Hlen. split.
  - rewrite <- Hlen. rewrite Hfilled at 2. now rewrite length_fmap.
  - exists items. split; [done|]. intros i e Hi.
    assert (Hf : filled !! i = Some (Some e)).
    { rewrite Hfilled, list_lookup_fmap, Hi. reflexivity. }
    destruct (fill_origin _ _ _ i e Efill Hf) as [Hin|H]; [|done].
    apply lookup_replicate in Hin as [[=] _].
Qed.

End EmbedMany.

Section Rows.
Import IngestRows.
Context {E : Type}.

Variable post : list string -> outcome (list (EmbeddingsClient.Item E)).
Variable chunks : list Chunk.t.

Lemma combine_data (batch : list Chunk.t) (embs : list E) :
  length embs = length batch ->
  map row_data
      (map (fun p => mkChunkRow (Chunk.index (fst p)) (Chunk.text (fst p))
                                (Chunk.token_count (fst p)) (snd p))
           (combine batch embs))
  = map chunk_data batch.
Proof.
  revert embs; induction batch as [|c batch IH]; intros [|e embs]; cbn;
    try done.
  intros [= H]. now rewrite IH.
Qed.

Lemma batch_rows_data (rs0 rs : list (ChunkRow E)) (i : Z) :
  batch_rows post chunks rs0 i = Returned rs ->
  map row_data rs
  = map row_data rs0 ++ map chunk_data (list_slice i (i + BATCH_SIZE) chunks).
Proof.
  unfold batch_rows.
  destruct (EmbeddingsClient.embed_many _ _) as [embs|] eqn:Eemb; [|discriminate].
  intros [= <-]. apply embed_many_spec in Eemb as [Hlen _].
  rewrite length_map in Hlen. now rewrite map_app, combine_data.
Qed.

Lemma rows_fold_raised (starts : list Z) (e : string) :
  fold_left
    (fun acc i =>
       match acc with
       | Raised e => Raised e
       | Returned rows => batch_rows post chunks rows i
       end) starts (Raised e)
  = Raised e.
Proof. induction starts as [|i starts IH]; [done|]. cbn [fold_left]. apply IH. Qed.

Lemma rows_fold_data (starts : list Z) (rs0 rs : list (ChunkRow E)) :
  fold_left
    (fun acc i =>
       match acc with
       | Raised e => Raised e
       | Returned rows => batch_rows post chunks rows i
       end) starts (Returned rs0)
  = Returned rs ->
  map row_data rs
  = map row_data rs0
    ++ concat (map (fun i => map chunk_data (list_slice i (i + BATCH_SIZE) chunks))
                   starts).
Proof.
  revert rs0; induction starts as [|i starts IH]; intros rs0; cbn [fold_left].
  - intros [= ->]. cbn. now rewrite app_nil_r.
  - destruct (batch_rows post chunks rs0 i) as [rs1|e] eqn:Eb.
    + intros H. apply IH in H. rewrite H, (batch_rows_data _ _ _ Eb).
      cbn [map concat]. now rewrite app_assoc.
    + now rewrite rows_fold_raised.
Qed.

End Rows.

Section Batches.
Import IngestRows.
Context {A : Type}.

Lemma list_slice_batch (k : nat) (l : list A) :
  list_slice (Z.of_nat k * BATCH_SIZE) (Z.of_nat k * BATCH_SIZE + BATCH_SIZE) l
  = firstn 16 (skipn (16 * k) l).
Proof.
  unfold list_slice, PyStr.slice_bound, BATCH_SIZE.
  destruct (Z.ltb_spec (Z.of_nat k * 16) 0); [lia|].
  destruct (Z.ltb_spec (Z.of_nat k * 16 + 16) 0); [lia|].
  destruct (Nat.le_gt_cases (length l) (16 * k)) as [Hout|Hin].
  - rewrite !(skipn_all2 l) by lia. now rewrite !firstn_nil.
  - replace (Z.to_nat (Z.min (Z.of_nat k * 16) (Z.of_nat (length l))))
      with (16 * k)%nat by lia.
    destruct (Nat.le_gt_cases (16 * k + 16) (length l)) as [Hfull|Hpart].
    + f_equal. lia.
    + rewrite !firstn_all2; [done| |]; rewrite length_skipn; lia.
Qed.

Lemma batches_concat (m : nat) (l : list A) :
  (length l <= 16 * m)%nat ->
  concat (map (fun k => firstn 16 (skipn (16 * k) l)) (seq 0 m)) = l.
Proof.
  revert l; induction m as [|m IH]; intros l Hlen.
  - destruct l; [done|cbn in Hlen; lia].
  - cbn [seq map concat]. rewrite <- seq_shift, map_map.
    rewrite (map_ext _ (fun k => firstn 16 (skipn (16 * k) (skipn 16 l)))).
    + rewrite IH by (rewrite length_skipn; lia).
      change (skipn (16 * 0) l) with l. apply firstn_skipn.
    + intros k. rewrite skipn_skipn. do 2 f_equal. lia.
Qed.

Lemma slices_concat (l : list A) :
  concat (map (fun i => list_slice i (i + BATCH_SIZE) l)
              (batch_starts (Z.of_nat (length l))))
  = l.
Proof.
  unfold batch_starts. rewrite map_map.
  rewrite (map_ext _ (fun k => firstn 16 (skipn (16 * k) l)))
    by (intros k; apply list_slice_batch).
  apply batches_concat. unfold BATCH_SIZE.
  pose proof (Z.mul_succ_div_gt (Z.of_nat (length l) + 16 - 1) 16 eq_refl).
  pose proof (Z.div_pos (Z.of_nat (length l) + 16 - 1) 16). lia.
Qed.

End Batches.

(** X15. [embed_many] returns one embedding for each text or raises:
    when it returns, the list has the length of [texts], and the embedding
    at each position is one that an item of the response carries under
    that index. *)
Theorem embed_many_answers_every_text {E : Type}
    (post : list string -> outcome (list (EmbeddingsClient.Item E)))
    (texts : list string) (embs : list E)
    (Hreturn : EmbeddingsClient.embed_many post texts = Returned embs) :
  length embs = length texts
  /\ exists items,
       post texts = Returned items
       /\ forall i e, embs !! i = Some e ->
            exists item,
              item ∈ items
              /\ EmbeddingsClient.index item = Some (Z.of_nat i)
              /\ EmbeddingsClient.embedding item = Some e.
Proof. now apply embed_many_spec. Qed.

Lemma embed_many_answers_every_text_witness :
  EmbeddingsClient.embed_many IngestRows.echo ["ab"; "cde"] = Returned [2; 3]
  /\ length [2; 3] = length ["ab"; "cde"].
Proof.
  assert (H : EmbeddingsClient.embed_many IngestRows.echo ["ab"; "cde"]
              = Returned [2; 3]) by (vm_compute; reflexivity).
  split; [exact H|].
  destruct (embed_many_answers_every_text IngestRows.echo ["ab"; "cde"] [2; 3] H)
    as [Hlen _].
  exact Hlen.
Defined.

(** X16. The rows of the ingest job are the chunks: when the batches of 16
    are all embedded, there is one row for each chunk, in the order of the
    chunks, with the index, the text and the token count of its chunk; a
    batch that is not embedded whole raises, so no chunk is left out
    in silence. *)
Theorem rows_match_chunks {E : Type}
    (post : list string -> outcome (list (EmbeddingsClient.Item E)))
    (chunks : list Chunk.t) (rs : list (IngestRows.ChunkRow E))
    (Hreturn : IngestRows.rows post chunks = Returned rs) :
  map IngestRows.row_data rs = map IngestRows.chunk_data chunks.
Proof.
  unfold IngestRows.rows in Hreturn. apply rows_fold_data in Hreturn.
  rewrite Hreturn. cbn [map app].
  rewrite <- (map_map (fun i => list_slice i (i + IngestRows.BATCH_SIZE) chunks)
                      (map IngestRows.chunk_data)).
  rewrite <- concat_map. now rewrite slices_concat.
Qed.

Lemma rows_match_chunks_witness :
  exists rs,
    IngestRows.rows IngestRows.echo SampleCaps.three = Returned rs
    /\ map IngestRows.row_data rs = map IngestRows.chunk_data SampleCaps.three.
Proof.
  eexists. split; [vm_compute; reflexivity|].
  apply (rows_match_chunks IngestRows.echo). vm_compute. reflexivity.
Defined.

(** A server that leaves a text unanswered makes the job raise. *)
Example rows_of_a_forgetful_server :
  IngestRows.rows IngestRows.forgetful SampleCaps.three = Raised "RuntimeError".
Proof. vm_compute. reflexivity. Qed.

(** ** No text is lost in the assembly *)

Section Conservation.
Import PyStr TokenAwareChunker.

Variable self : TokenAwareChunker.t.
Hypothesis Hheuristic : tc self = TokenCounter.heuristic.
Hypothesis Hno_overlap : overlap_tokens self <= 0.

Lemma join_flat (sep : string) (l m r : list string) :
  m <> [] -> join sep (l ++ join sep m :: r) = join sep (l ++ m ++ r).
Proof.
  revert l; induction m as [|a m IH]; intros l Hm; [done|].
  destruct m as [|b m]; [done|].
  change (join sep (a :: b :: m)) with (a +:+ sep +:+ join sep (b :: m)).
  rewrite join_merge.
  change (l ++ a :: join sep (b :: m) :: r)
    with (l ++ [a] ++ join sep (b :: m) :: r).
  rewrite app_assoc, IH by done. now rewrite <- app_assoc.
Qed.

Lemma join_solid (bs : list Block.t) :
  Forall block_solid bs -> bs <> [] ->
  trimmed (joined_text bs) /\ joined_text bs <> EmptyString.
Proof.
  unfold joined_text. induction 1 as [|b bs [Hb1 Hb2] Hbs IH]; [done|].
  intros _. destruct bs as [|b' bs]; [done|].
  destruct IH as [IH1 IH2]; [done|].
  change (join nlnl (map Block.text (b :: b' :: bs)))
    with (Block.text b +:+ nlnl +:+ join nlnl (map Block.text (b' :: bs))).
  split; [now apply trimmed_append|now apply append_not_empty].
Qed.

Lemma flush_holds (s : asm) (seen : list string) :
  holds s seen -> holds (flush self s) seen /\ cur (flush self s) = [].
Proof.
  intros [Hcur Hjoin]. unfold flush.
  destruct (cur s) as [|b bs] eqn:Ecur.
  - split; [|done]. split; [now rewrite Ecur|done].
  - destruct (join_solid (b :: bs) Hcur) as [Htrim Hne]; [done|].
    unfold trimmed in Htrim. rewrite Htrim.
    assert (Hpos : 1 <= _tok_count self (joined_text (b :: bs))).
    { unfold _tok_count. rewrite Hheuristic.
      apply heuristic_count_positive. now rewrite Htrim. }
    destruct (Z.leb_spec 1 (_tok_count self (joined_text (b :: bs)))); [|lia].
    split; [|done]. split; [constructor|]. intros rest.
    rewrite <- Hjoin. unfold held_texts. rewrite Ecur.
    cbn [chunks cur map app]. rewrite map_app. cbn [map Chunk.text].
    rewrite app_nil_r, <- !app_assoc. cbn [app].
    unfold joined_text. now rewrite join_flat.
Qed.

Lemma holds_parent (s : asm) (seen : list string) (p : option string) :
  holds s seen -> holds (mk_asm (chunks s) (cur s) (cur_tokens s) (idx s) p) seen.
Proof. done. Qed.

Lemma enter_holds (s : asm) (b : Block.t) (seen : list string) :
  holds s seen -> holds (enter self s b) seen.
Proof.
  intros H. unfold enter. destruct (is_parent_heading self b).
  - destruct (flush_holds s seen H) as [Hf _]. cbn.
    now destruct (Block.parent_section_path b).
  - now destruct (active_parent s).
Qed.

Lemma holds_snoc (cs : list Chunk.t) (bs : list Block.t) (b : Block.t)
    (n i : Z) (p : option string) (seen : list string) :
  block_solid b ->
  (forall n' i' p', holds (mk_asm cs bs n' i' p') seen) ->
  holds (mk_asm cs (bs ++ [b]) n i p) (seen ++ [Block.text b]).
Proof.
  intros Hb H. destruct (H n i p) as [Hcur Hjoin]. split.
  - cbn [cur] in *. apply Forall_app. split; [done|]. now constructor.
  - intros rest. unfold held_texts in *. cbn [chunks cur] in *.
    rewrite map_app. cbn [map]. rewrite <- !app_assoc. rewrite app_assoc.
    cbn [app]. now rewrite Hjoin.
Qed.

Lemma place_holds (s : asm) (b : Block.t) (seen : list string) :
  block_solid b -> holds s seen -> holds (place self s b) (seen ++ [Block.text b]).
Proof.
  intros Hb H. unfold place. destruct (_ <=? _).
  - destruct s as [cs bs n i p]. cbn [chunks cur cur_tokens idx active_parent].
    apply holds_snoc; [done|]. intros n' i' p'. exact H.
  - destruct (flush_holds s seen H) as [Hf Hnil].
    destruct (flush self s) as [cs bs n i p]. cbn [cur] in Hnil. subst bs.
    cbn [chunks cur cur_tokens idx active_parent].
    destruct (Z.ltb_spec 0 (overlap_tokens self)); [lia|]. cbn [andb].
    assert (Hone : forall n0,
               holds (mk_asm cs [b] n0 i p) (seen ++ [Block.text b])).
    { intros n0. apply (holds_snoc cs [] b n0 i p seen Hb).
      intros n' i' p'. exact Hf. }
    destruct (last cs); apply Hone.
Qed.

Lemma assemble_holds (blocks : list Block.t) :
  Forall block_solid blocks ->
  all_text (assemble self blocks) = join nlnl (map Block.text blocks).
Proof.
  intros Hblocks. unfold assemble.
  assert (H : holds (fold_left (step self) blocks (mk_asm [] [] 0 0 None))
                    (map Block.text blocks)).
  { rewrite <- (app_nil_l (map Block.text blocks)).
    assert (H0 : holds (mk_asm [] [] 0 0 None) []) by (split; [constructor|done]).
    revert H0. generalize (mk_asm [] [] 0 0 None) (@nil string).
    induction Hblocks as [|b bs Hb Hbs IH]; intros s seen Hs; cbn [fold_left map].
    - now rewrite app_nil_r.
    - replace (seen ++ Block.text b :: map Block.text bs)
        with ((seen ++ [Block.text b]) ++ map Block.text bs)
        by now rewrite <- app_assoc.
      apply IH. unfold step. now apply place_holds, enter_holds. }
  destruct (flush_holds _ _ H) as [[_ Hjoin] Hnil].
  specialize (Hjoin []). unfold held_texts in Hjoin.
  rewrite Hnil, !app_nil_r in Hjoin. exact Hjoin.
Qed.

Lemma expand_fitting (blocks : list Block.t) :
  Forall (fun b => Block.token_count b <= max_tokens self) blocks ->
  expand self blocks = blocks.
Proof.
  unfold expand. induction 1 as [|b bs Hb Hbs IH]; [done|].
  cbn [map concat]. unfold expand_block at 1.
  destruct (Z.leb_spec (Block.token_count b) (max_tokens self)); [|lia].
  cbn [app]. now rewrite IH.
Qed.

Lemma chunk_blocks_all_text (blocks : list Block.t) :
  all_text (chunk_blocks self blocks)
  = all_text (assemble self (expand self blocks)).
Proof.
  unfold chunk_blocks, all_text at 1. rewrite map_text_reindex.
  unfold merge_small.
  apply (merge_fold_text self (assemble self (expand self blocks)) []).
Qed.

End Conservation.

(** X17. Without overlap the assembly loses no text and repeats none.
    With the character heuristic and [overlap_tokens] of 0, the texts of
    the chunks of [chunk], joined by blank lines, read as the texts of the
    blocks joined by blank lines: for any blocks with a trimmed text that
    is not empty that are handed to the assembly, and so for every document
    whose blocks all fit in [max_tokens]. *)
Theorem no_text_is_lost (self : TokenAwareChunker.t) (blocks : list Block.t)
    (md : string)
    (Hheuristic : TokenAwareChunker.tc self = TokenCounter.heuristic)
    (Hno_overlap : TokenAwareChunker.overlap_tokens self <= 0) :
  (Forall block_solid blocks ->
   all_text (TokenAwareChunker.merge_small self
               (TokenAwareChunker.assemble self blocks))
   = PyStr.join PyStr.nlnl (map Block.text blocks))
  /\ (Forall (fun b => Block.token_count b <= TokenAwareChunker.max_tokens self)
             (TokenAwareChunker._iter_blocks self md) ->
      all_text (TokenAwareChunker.chunk self md)
      = PyStr.join PyStr.nlnl
          (map Block.text (TokenAwareChunker._iter_blocks self md))).
Proof.
  split.
  - intros Hsolid. rewrite <- (assemble_holds self Hheuristic Hno_overlap) by done.
    apply (merge_fold_text self (TokenAwareChunker.assemble self blocks) []).
  - intros Hfit. unfold TokenAwareChunker.chunk.
    rewrite chunk_blocks_all_text, expand_fitting by done.
    apply assemble_holds; [done|done|].
    eapply Forall_impl; [apply iter_blocks_well_formed|].
    intros b (H1 & H2 & _). now split.
Qed.

Lemma no_text_is_lost_witness :
  let self := Samples.chunker 5 10 0 1 in
  length (TokenAwareChunker.chunk self Samples.two_sections) = 2%nat
  /\ all_text (TokenAwareChunker.chunk self Samples.two_sections)
     = Samples.two_sections.
Proof.
  cbv zeta. split; [vm_compute; reflexivity|].
  assert (H : TokenAwareChunker.overlap_tokens (Samples.chunker 5 10 0 1) <= 0)
    by (cbn; lia).
  destruct (no_text_is_lost (Samples.chunker 5 10 0 1) [] Samples.two_sections
              eq_refl H) as [_ Hmd].
  rewrite Hmd; [vm_compute; reflexivity|].
  set (l := TokenAwareChunker._iter_blocks _ _). vm_compute in l. subst l.
  repeat (constructor; [cbn; lia|]). constructor.
Defined.

(** ** The metadata of the chunks the filter returns *)

Section ReturnedMetadata.
Import ChunkFilter.

Variable cfg : FilterConfig.

(** A chunk that is kept has no tag but, when it is short, [low_signal]. *)
Lemma kept_tags (seen : gset string) (c : Chunk.t) :
  drops (chunk_tags cfg seen c) = false ->
  chunk_tags cfg seen c
  = if Chunk.token_count c <? min_tokens cfg then ["low_signal"] else [].
Proof.
  unfold chunk_tags.
  destruct (drop_front_matter cfg && _);
    destruct (drop_boilerplate cfg && _);
    destruct (drop_image_only cfg && _);
    destruct (Chunk.token_count c <? min_tokens cfg);
    destruct (bool_decide _); cbn [app];
    intros Hd; vm_compute in Hd; try discriminate Hd; reflexivity.
Qed.

End ReturnedMetadata.

Lemma sorted_set_spec (l : list string) :
  NoDup (sorted_set l) /\ forall t, t ∈ sorted_set l <-> t ∈ l.
Proof.
  unfold sorted_set. destruct (fromkeys_spec l []) as [Hnd Hin]. split.
  - now rewrite sort_by_Permutation.
  - intros t. rewrite sort_by_Permutation, Hin. split; [tauto|].
    intros H. split; [done|]. intros H'; inversion H'.
Qed.

(** X18. The filter changes two keys of the metadata and no other. A
    chunk it returns has the text, the token count, the section paths, the
    block types and the [merged_heading] mark of a chunk of the heading
    merge; its tags are the tags that chunk came with and, when it has
    fewer tokens than [min_tokens], [low_signal], each once. *)
Theorem filter_keeps_metadata (str_hash : string -> Z) (chunks : list Chunk.t)
    (cfg : ChunkFilter.FilterConfig) (c : Chunk.t)
    (Hen : ChunkFilter.enabled cfg = true)
    (Hc : c ∈ fst (ChunkFilter.filter_chunks str_hash chunks cfg)) :
  exists x,
    x ∈ ChunkFilter._merge_heading_with_next chunks
    /\ Chunk.text c = Chunk.text x
    /\ Chunk.token_count c = Chunk.token_count x
    /\ Meta.section_paths (Chunk.metadata c) = Meta.section_paths (Chunk.metadata x)
    /\ Meta.primary_section_path (Chunk.metadata c)
       = Meta.primary_section_path (Chunk.metadata x)
    /\ Meta.parent_section_path (Chunk.metadata c)
       = Meta.parent_section_path (Chunk.metadata x)
    /\ Meta.block_types (Chunk.metadata c) = Meta.block_types (Chunk.metadata x)
    /\ Meta.merged_heading (Chunk.metadata c)
       = Meta.merged_heading (Chunk.metadata x)
    /\ NoDup (Meta.tags (Chunk.metadata c))
    /\ forall t,
         t ∈ Meta.tags (Chunk.metadata c)
         <-> t ∈ Meta.tags (Chunk.metadata x)
             \/ (t = "low_signal"
                 /\ Chunk.token_count x < ChunkFilter.min_tokens cfg).
Proof.
  unfold ChunkFilter.filter_chunks in Hc. rewrite Hen in Hc. cbn [negb] in Hc.
  set (cs := ChunkFilter._merge_heading_with_next chunks) in *.
  destruct (ChunkFilter.cap_parents cfg _ _) as [capped d] eqn:Ep.
  destruct (ChunkFilter.cap_doc cfg _) as [capped' d'] eqn:Ed.
  cbn [fst] in Hc.
  apply elem_of_reindex_from in Hc as (c' & Hc' & Ht & Hn & Hm).
  assert (Hk : c' ∈ ChunkFilter.kept (ChunkFilter.tag_all str_hash cfg cs)).
  { apply (cap_parents_subset cfg _ (ChunkFilter.t_dropped_by_tag
                                       (ChunkFilter.tag_all str_hash cfg cs))).
    rewrite Ep. cbn [fst].
    apply (cap_doc_subset cfg capped d). now rewrite Ed. }
  apply run_kept_clean in Hk as [Hk|(x & seen & Hx & -> & Hd)]; [inversion Hk|].
  exists x. rewrite Ht, Hn, Hm. split; [done|].
  cbn [kept_form Chunk.text Chunk.token_count Chunk.metadata
       ChunkFilter.tagged_meta Meta.section_paths Meta.primary_section_path
       Meta.parent_section_path Meta.block_types Meta.merged_heading Meta.tags].
  do 7 (split; [reflexivity|]).
  destruct (sorted_set_spec
              (Meta.tags (Chunk.metadata x) ++ ChunkFilter.chunk_tags cfg seen x))
    as [Hnd Hin].
  split; [exact Hnd|]. intros t. rewrite Hin, elem_of_app, (kept_tags cfg seen x Hd).
  destruct (Z.ltb_spec (Chunk.token_count x) (ChunkFilter.min_tokens cfg)).
  - rewrite elem_of_cons, elem_of_nil. intuition.
  - rewrite elem_of_nil. intuition lia.
Qed.

Lemma filter_keeps_metadata_witness :
  let c :=
    Chunk.mk 0 "second text" 300
      (Meta.mk ["Chapter 1"] (Some "Chapter 1") (Some "Chapter 1") [text]
               None [] (Some 100)) in
  c ∈ fst (ChunkFilter.filter_chunks Samples.hash_zero SampleCaps.three
                                     SampleCaps.tight)
  /\ NoDup (Meta.tags (Chunk.metadata c)).
Proof.
  cbv zeta.
  assert (Hc : Chunk.mk 0 "second text" 300
                 (Meta.mk ["Chapter 1"] (Some "Chapter 1") (Some "Chapter 1")
                          [text] None [] (Some 100))
               ∈ fst (ChunkFilter.filter_chunks Samples.hash_zero
                        SampleCaps.three SampleCaps.tight))
    by (vm_compute; left).
  split; [exact Hc|].
  destruct (filter_keeps_metadata Samples.hash_zero SampleCaps.three
              SampleCaps.tight _ eq_refl Hc)
    as (x & _ & _ & _ & _ & _ & _ & _ & _ & Hnd & _).
  exact Hnd.
Defined.

(** ** The filter adds no chunk *)

Section FilterLengths.
Import ChunkFilter.

Variable str_hash : string -> Z.
Variable cfg : FilterConfig.

Lemma length_kept (cs : list Chunk.t) (s : tagging) :
  (length (kept (fold_left (tag_step str_hash cfg) cs s))
   <= length (kept s) + length cs)%nat.
Proof.
  revert s; induction cs as [|c cs IH]; intros s; cbn [fold_left length]; [lia|].
  specialize (IH (tag_step str_hash cfg s c)).
  destruct (drops (chunk_tags cfg (seen_hashes s) c)) eqn:E.
  - destruct (tag_step_dropped str_hash cfg s c E) as [Hk _].
    rewrite Hk in IH. lia.
  - destruct (tag_step_kept str_hash cfg s c E) as (Hk & _ & _).
    rewrite Hk, length_app in IH. cbn [length] in IH. lia.
Qed.

Lemma length_cap_ones (gs : list (list Chunk.t)) :
  (length (concat (map (cap_one cfg) gs)) <= length (concat gs))%nat.
Proof.
  induction gs as [|g gs IH]; cbn [map concat]; [done|].
  rewrite !length_app.
  assert (length (cap_one cfg g) <= length g)%nat; [|lia].
  unfold cap_one. destruct (_ <=? _); [done|]. apply length_filter_le.
Qed.

Lemma length_cap_parents (ks : list Chunk.t) (d : gmap string Z) :
  (length (fst (cap_parents cfg ks d)) <= length ks)%nat.
Proof.
  destruct (cap_parents_spec cfg ks d) as (d' & -> & _). cbn [fst].
  pose proof (length_cap_ones (map snd (groups_of ks))) as H.
  now rewrite length_groups_of in H.
Qed.

Lemma length_cap_doc (capped : list Chunk.t) (d : gmap string Z) :
  (length (fst (cap_doc cfg (capped, d))) <= length capped)%nat.
Proof.
  unfold cap_doc. destruct (_ <? _); [|done]. cbn [fst].
  unfold list_slice_to. rewrite length_firstn, (sorted_desc_Permutation capped). lia.
Qed.

End FilterLengths.

(** X19. The filter adds no chunk. For every configuration, enabled or
    not, [filter_chunks] returns at most as many chunks as it is given, and
    its statistics agree: [total_out] is at most [total_in] and [dropped]
    is not negative. *)
Theorem filter_adds_no_chunk (str_hash : string -> Z) (chunks : list Chunk.t)
    (cfg : ChunkFilter.FilterConfig) :
  let r := ChunkFilter.filter_chunks str_hash chunks cfg in
  (length (fst r) <= length chunks)%nat
  /\ ChunkFilter.total_out (snd r) <= ChunkFilter.total_in (snd r)
  /\ 0 <= ChunkFilter.dropped (snd r).
Proof.
  unfold ChunkFilter.filter_chunks. destruct (ChunkFilter.enabled cfg); cbn [negb].
  - set (cs := ChunkFilter._merge_heading_with_next chunks).
    pose proof (length_kept str_hash cfg cs (ChunkFilter.mkTagging ∅ ∅ [])) as Hk.
    fold (ChunkFilter.tag_all str_hash cfg cs) in Hk.
    cbn [ChunkFilter.kept length] in Hk.
    pose proof (length_cap_parents cfg
                  (ChunkFilter.kept (ChunkFilter.tag_all str_hash cfg cs))
                  (ChunkFilter.t_dropped_by_tag
                     (ChunkFilter.tag_all str_hash cfg cs))) as Hp.
    destruct (ChunkFilter.cap_parents cfg _ _) as [capped d].
    pose proof (length_cap_doc cfg capped d) as Hd.
    destruct (ChunkFilter.cap_doc cfg _) as [capped' d']. cbn [fst snd] in *.
    cbv zeta. cbn [ChunkFilter.total_out ChunkFilter.total_in ChunkFilter.dropped].
    rewrite length_reindex.
    assert (Hm : (length cs <= length chunks)%nat).
    { unfold cs, ChunkFilter._merge_heading_with_next. rewrite length_reindex.
      apply length_merge_heading_scan. }
    lia.
  - cbn. lia.
Qed.
